(** * Polypyus: the fragment graph of [polypyus/graph.py]

    A shallow embedding of the signature graph ([Edge], [Graph]), of its
    insertion with edge splitting, of [finalize] and of the sequential scan
    [Graph.match], followed by a small-step model of the process-parallel
    driver.  Python's exceptions, [defaultdict]s, list indexing and integer
    remainder are modelled in [Module Py]. *)

From Stdlib Require Import ZArith List Bool Lia PeanoNat.
From Stdlib Require Import PrimFloat Uint63.
Import ListNotations.

Set Implicit Arguments.
Open Scope Z_scope.

(* ================================================================== *)
(** ** Python primitives *)
(* ================================================================== *)

Module Py.

(** The exceptions the modelled code can raise. *)
Inductive exn : Type :=
| IndexError
| ZeroDivisionError.

(** The result of running a piece of Python: a value, an exception, or
    no result within the given number of loop iterations. *)
Inductive outcome (A : Type) : Type :=
| Ok (a : A)
| Raise (e : exn)
| OutOfFuel.

Arguments Ok {A} a.
Arguments Raise {A} e.
Arguments OutOfFuel {A}.

Definition bind {A B : Type} (m : outcome A) (k : A -> outcome B) : outcome B :=
  match m with
  | Ok a => k a
  | Raise e => Raise e
  | OutOfFuel => OutOfFuel
  end.

(** [seq[i]] on a list or a bytes object, for a non-negative index. *)
Definition nth_item {A : Type} (l : list A) (i : nat) : outcome A :=
  match nth_error l i with
  | Some a => Ok a
  | None => Raise IndexError
  end.

(** [seq[i]] for a Python integer: a negative index counts from the end. *)
Definition getitem {A : Type} (l : list A) (i : Z) : outcome A :=
  if 0 <=? i then nth_item l (Z.to_nat i)
  else if 0 <=? Z.of_nat (length l) + i
       then nth_item l (Z.to_nat (Z.of_nat (length l) + i))
       else Raise IndexError.

(** A slice bound, as Python clamps it: a negative bound counts from the
    end, and the result is cut to [0 .. len]. *)
Definition clamp (n : nat) (i : Z) : nat :=
  let j := if i <? 0 then Z.of_nat n + i else i in
  Z.to_nat (Z.min (Z.max j 0) (Z.of_nat n)).

(** [seq[lo:hi]]. *)
Definition slice {A : Type} (l : list A) (lo hi : Z) : list A :=
  let a := clamp (length l) lo in
  let b := clamp (length l) hi in
  firstn (b - a) (skipn a l).

(** [a % b]: the sign of the result follows the divisor, as [Z.modulo]. *)
Definition mod_ (a b : Z) : outcome Z :=
  if b =? 0 then Raise ZeroDivisionError else Ok (a mod b).

(** [l[i] = x] where the index is known to exist. *)
Fixpoint set_nth {A : Type} (l : list A) (i : nat) (x : A) : list A :=
  match l, i with
  | [], _ => []
  | _ :: l', O => x :: l'
  | y :: l', S i' => y :: set_nth l' i' x
  end.

(** [for x in l: acc = f(acc, x)], stopping at the first exception. *)
Fixpoint foldM {A B : Type} (f : B -> A -> outcome B) (l : list A) (b : B)
  : outcome B :=
  match l with
  | [] => Ok b
  | x :: l' => bind (f b x) (foldM f l')
  end.

(** *** [collections.defaultdict(list)]

    A dictionary keeps its keys in insertion order; reading a missing key
    stores an empty list under it. *)
Section DefaultDict.
Variables (K A : Type) (eqb : K -> K -> bool).

Definition ddict : Type := list (K * list A).

Fixpoint dd_find (d : ddict) (k : K) : option (list A) :=
  match d with
  | [] => None
  | (k', v) :: d' => if eqb k k' then Some v else dd_find d' k
  end.

(** [d[k]]: the value, and the dictionary after the read. *)
Definition dd_get (d : ddict) (k : K) : list A * ddict :=
  match dd_find d k with
  | Some v => (v, d)
  | None => ([], d ++ [(k, [])])
  end.

(** [d[k] = v] for a dictionary that may or may not hold [k]. *)
Fixpoint dd_set (d : ddict) (k : K) (v : list A) : ddict :=
  match d with
  | [] => [(k, v)]
  | (k', v') :: d' =>
      if eqb k k' then (k', v) :: d' else (k', v') :: dd_set d' k v
  end.

(** [d[k].append(x)]. *)
Definition dd_append (d : ddict) (k : K) (x : A) : ddict :=
  let (v, d') := dd_get d k in dd_set d' k (v ++ [x]).

(** [bool(d)]. *)
Definition dd_truthy (d : ddict) : bool :=
  match d with [] => false | _ :: _ => true end.

End DefaultDict.

(** *** [sorted(l, key=..., reverse=...)]: a stable sort.

    [lt a b] compares the keys.  [ins] puts [x], which stood before every
    element of [l] in the input, before the first element that is not
    smaller, so equal keys keep their order. *)
Section Sorted.
Variables (A : Type) (lt : A -> A -> bool).

Fixpoint ins (x : A) (l : list A) : list A :=
  match l with
  | [] => [x]
  | y :: l' => if lt y x then y :: ins x l' else x :: l
  end.

Fixpoint sorted (l : list A) : list A :=
  match l with
  | [] => []
  | x :: l' => ins x (sorted l')
  end.

End Sorted.

(** *** Numbers: an [int] or a [float] (IEEE 754 binary64). *)
Inductive num : Type :=
| NInt (z : Z)
| NFloat (f : float).

(** [float(z)], exact below 2^53. *)
Definition Z_to_float (z : Z) : float :=
  match z with
  | Z0 => PrimFloat.zero
  | Zpos _ => PrimFloat.of_uint63 (Uint63.of_Z z)
  | Zneg p => PrimFloat.opp (PrimFloat.of_uint63 (Uint63.of_Z (Zpos p)))
  end.

Definition to_float (n : num) : float :=
  match n with
  | NInt z => Z_to_float z
  | NFloat f => f
  end.

(** [r * c] for an int [c]. *)
Definition num_mul_int (r : num) (c : Z) : num :=
  match r with
  | NInt a => NInt (a * c)
  | NFloat f => NFloat (PrimFloat.mul f (Z_to_float c))
  end.

Definition num_add (a b : num) : num :=
  match a, b with
  | NInt x, NInt y => NInt (x + y)
  | _, _ => NFloat (PrimFloat.add (to_float a) (to_float b))
  end.

(** [a / c], true division by a non-zero int. *)
Definition num_truediv (a : num) (c : Z) : num :=
  NFloat (PrimFloat.div (to_float a) (Z_to_float c)).

(** [a < b]. *)
Definition num_ltb (a b : num) : bool :=
  match a, b with
  | NInt x, NInt y => x <? y
  | _, _ => PrimFloat.ltb (to_float a) (to_float b)
  end.

End Py.

Import Py.

Declare Scope py_scope.
Delimit Scope py_scope with py.
Notation "x <- m ;; k" := (bind m (fun x => k))
  (at level 100, m at next level, right associativity) : py_scope.
Notation "' p <- m ;; k" := (bind m (fun p => k))
  (at level 100, p pattern, m at next level, right associativity) : py_scope.
Open Scope py_scope.

(* ================================================================== *)
(** ** Fragments *)
(* ================================================================== *)

(** Modelled from the spec: [polypyus.tools.MatchFragment] is not among the
    source files.  A fragment is an ordered sequence of bytes with an
    equal-length sequence of wildcard flags; it exposes its length, a
    wildcard-aware comparison with raw bytes, the longest common prefix
    with another fragment, [split_at] (the fragment keeps the prefix and
    the suffix is returned), [drop_before] and the ratio of wildcards. *)
Record MatchFragment : Type := mkFragment {
  template : list Z;
  fuzziness : list bool
}.

(** [len(fragment)]. *)
Definition frag_len (f : MatchFragment) : nat := length (template f).

(** One position of a fragment against one byte: a wildcard matches any
    byte, a literal only itself. *)
Definition pos_matches (t : Z) (fz : bool) (b : Z) : bool := fz || (t =? b).

Fixpoint all_match (ts : list Z) (fs : list bool) (bs : list Z) : bool :=
  match ts, fs, bs with
  | [], _, [] => true
  | t :: ts', fz :: fs', b :: bs' => pos_matches t fz b && all_match ts' fs' bs'
  | _, _, _ => false
  end.

(** [fragment == against] for raw bytes. *)
Definition frag_eq_bytes (f : MatchFragment) (against : list Z) : bool :=
  all_match (template f) (fuzziness f) against.

(** Two positions agree when both are wildcards or both are the same
    literal byte. *)
Definition pos_agree (t1 : Z) (f1 : bool) (t2 : Z) (f2 : bool) : bool :=
  (f1 && f2) || (negb f1 && negb f2 && (t1 =? t2)).

Fixpoint lcp (t1 : list Z) (f1 : list bool) (t2 : list Z) (f2 : list bool)
  : nat :=
  match t1, f1, t2, f2 with
  | a :: t1', x :: f1', b :: t2', y :: f2' =>
      if pos_agree a x b y then S (lcp t1' f1' t2' f2') else O
  | _, _, _, _ => O
  end.

Definition longest_common_prefix (f against : MatchFragment) : nat :=
  lcp (template f) (fuzziness f) (template against) (fuzziness against).

(** [split_at(n)]: the prefix the fragment becomes, and the returned suffix. *)
Definition split_at (f : MatchFragment) (n : nat)
  : MatchFragment * MatchFragment :=
  (mkFragment (firstn n (template f)) (firstn n (fuzziness f)),
   mkFragment (skipn n (template f)) (skipn n (fuzziness f))).

(** [drop_before(n)]. *)
Definition drop_before (f : MatchFragment) (n : nat) : MatchFragment :=
  mkFragment (skipn n (template f)) (skipn n (fuzziness f)).

(** [fuzz_ratio()]: the fraction of wildcard positions. *)
Definition fuzz_ratio (f : MatchFragment) : num :=
  NFloat (PrimFloat.div
            (Z_to_float (Z.of_nat (length (filter (fun b => b) (fuzziness f)))))
            (Z_to_float (Z.of_nat (frag_len f)))).

(* ================================================================== *)
(** ** Edges *)
(* ================================================================== *)

Inductive PathClassification : Type :=
| DISJUNCT
| EQUAL
| PART
| BRANCH.

Record Edge : Type := mkEdge {
  to : nat;
  path : MatchFragment;
  len : nat;
  match_size : Z;
  weight : num
}.

(** [Edge(to, path, match_size)]. *)
Definition new_edge (to_ : nat) (p : MatchFragment) (ms : option Z) : Edge :=
  let l := frag_len p in
  let m := match ms with None => Z.of_nat l | Some m => m end in
  mkEdge to_ p l m (NInt m).

Definition matches (e : Edge) (against : list Z) : bool :=
  frag_eq_bytes (path e) against.

Definition classify_path (e : Edge) (p : MatchFragment)
  : PathClassification * nat :=
  let lp := frag_len p in
  let longest_prefix := longest_common_prefix (path e) p in
  (if (longest_prefix =? len e)%nat
   then (if (lp =? len e)%nat then EQUAL else PART)
   else if (longest_prefix =? 0)%nat then DISJUNCT
   else BRANCH,
   longest_prefix).

(** The list of a node an edge is stored in: the fuzzy-start list, or the
    bin of its first byte. *)
Inductive bucket : Type :=
| Fuzzy
| Bin (b : Z).

(** An edge object is identified by the place it is stored at: its source
    node, the list there, and its index in that list. *)
Definition loc : Type := (nat * bucket * nat)%type.

(** The first edge of [edges] whose path is not disjunct from [p]: what
    the loop [for edge in edges] of [insert] acts on. *)
Inductive found : Type :=
| Found (i : nat) (e : Edge) (c : PathClassification) (prefix_len : nat)
| NotFound.

Fixpoint first_related (edges : list Edge) (p : MatchFragment) (i : nat)
  : found :=
  match edges with
  | [] => NotFound
  | e :: es =>
      match classify_path e p with
      | (DISJUNCT, _) => first_related es p (S i)
      | (c, n) => Found i e c n
      end
  end.

(* ================================================================== *)
(** ** The graph *)
(* ================================================================== *)

Section Model.

(** What a signature is inserted with.  A Python object passed as [data] is
    [None] or a payload. *)
Variable Payload : Type.

Definition object : Type := option Payload.

Record Graph : Type := mkGraph {
  data : ddict nat object;
  adjacency : list (ddict Z Edge);
  fuzzy_starts : list (list Edge);
  longest_path : Z;
  bin_count : Z;
  nodes : nat;
  finalized : bool
}.

(** [Graph(bin_count)]. *)
Definition Graph_init (bin_count_ : Z) : Graph :=
  mkGraph [] [[]] [[]] 0 bin_count_ 1 false.

Definition set_data (g : Graph) (d : ddict nat object) : Graph :=
  mkGraph d (adjacency g) (fuzzy_starts g) (longest_path g) (bin_count g)
          (nodes g) (finalized g).

Definition set_adjacency (g : Graph) (a : list (ddict Z Edge)) : Graph :=
  mkGraph (data g) a (fuzzy_starts g) (longest_path g) (bin_count g)
          (nodes g) (finalized g).

Definition set_fuzzy_starts (g : Graph) (f : list (list Edge)) : Graph :=
  mkGraph (data g) (adjacency g) f (longest_path g) (bin_count g)
          (nodes g) (finalized g).

Definition set_longest_path (g : Graph) (l : Z) : Graph :=
  mkGraph (data g) (adjacency g) (fuzzy_starts g) l (bin_count g)
          (nodes g) (finalized g).

Definition set_finalized (g : Graph) (b : bool) : Graph :=
  mkGraph (data g) (adjacency g) (fuzzy_starts g) (longest_path g)
          (bin_count g) (nodes g) b.

Definition _to_bin (g : Graph) (byte_ : Z) : outcome Z :=
  mod_ byte_ (bin_count g).

Definition _new_node (g : Graph) (d : object) : Graph :=
  mkGraph
    (match d with
     | Some _ => dd_append Nat.eqb (data g) (nodes g) d
     | None => data g
     end)
    (adjacency g ++ [[]])
    (fuzzy_starts g ++ [[]])
    (longest_path g) (bin_count g) (S (nodes g)) (finalized g).

Definition _add_edge (g : Graph) (from_ to_ : nat) (p : MatchFragment)
           (ms : option Z) : outcome Graph :=
  let edge := new_edge to_ p ms in
  fz <- getitem (fuzziness p) 0 ;;
  if fz : bool then
    fs <- nth_item (fuzzy_starts g) from_ ;;
    Ok (set_fuzzy_starts g (set_nth (fuzzy_starts g) from_ (fs ++ [edge])))
  else
    t0 <- getitem (template p) 0 ;;
    bin_ <- _to_bin g t0 ;;
    dd <- nth_item (adjacency g) from_ ;;
    Ok (set_adjacency g
          (set_nth (adjacency g) from_ (dd_append Z.eqb dd bin_ edge))).

(** The edges stored at a place, without touching the dictionary. *)
Definition get_bucket (g : Graph) (node : nat) (b : bucket)
  : outcome (list Edge) :=
  match b with
  | Fuzzy => nth_item (fuzzy_starts g) node
  | Bin k =>
      dd <- nth_item (adjacency g) node ;;
      Ok (match dd_find Z.eqb dd k with Some es => es | None => [] end)
  end.

Definition set_bucket (g : Graph) (node : nat) (b : bucket) (es : list Edge)
  : Graph :=
  match b with
  | Fuzzy => set_fuzzy_starts g (set_nth (fuzzy_starts g) node es)
  | Bin k =>
      match nth_error (adjacency g) node with
      | Some dd =>
          set_adjacency g (set_nth (adjacency g) node (dd_set Z.eqb dd k es))
      | None => g
      end
  end.

Definition get_edge (g : Graph) (l : loc) : outcome Edge :=
  let '(node, b, i) := l in
  es <- get_bucket g node b ;;
  nth_item es i.

(** A write to the fields of the edge object stored at [l]. *)
Definition set_edge (g : Graph) (l : loc) (e : Edge) : Graph :=
  let '(node, b, i) := l in
  match get_bucket g node b with
  | Ok es => set_bucket g node b (set_nth es i e)
  | _ => g
  end.

(** [_split_edge(edge, at)] for the edge object stored at [l]. *)
Definition _split_edge (g : Graph) (l : loc) (edge : Edge) (at_ : nat)
  : outcome Graph :=
  let (prefix, fragment) := split_at (path edge) at_ in
  let g1 := _new_node g None in
  g2 <- _add_edge g1 (nodes g1 - 1) (to edge) fragment
                   (Some (match_size edge)) ;;
  Ok (set_edge g2 l
        (mkEdge (nodes g2 - 1)%nat prefix at_
                (match_size edge - Z.of_nat at_) (weight edge))).

(** The loop [while len(path) > 0] of [insert].  The result carries what
    [insert] returns: [Some true], [Some false], or [None] when the loop
    ends without a [return]. *)
Fixpoint insert_loop (fuel : nat) (g : Graph) (p : MatchFragment)
         (payload : object) (ms : Z) (next_node : nat)
  : outcome (Graph * option bool) :=
  match fuel with
  | O => OutOfFuel
  | S fuel' =>
      if (0 <? frag_len p)%nat then
        fz <- getitem (fuzziness p) 0 ;;
        '(edges, g1, b) <-
          (if fz : bool then
             fs <- nth_item (fuzzy_starts g) next_node ;;
             Ok (fs, g, Fuzzy)
           else
             t0 <- getitem (template p) 0 ;;
             bin_ <- _to_bin g t0 ;;
             dd <- nth_item (adjacency g) next_node ;;
             let (es, dd') := dd_get Z.eqb dd bin_ in
             Ok (es, set_adjacency g (set_nth (adjacency g) next_node dd'),
                 Bin bin_)) ;;
        match first_related edges p 0 with
        | Found i edge PART prefix_len =>
            insert_loop fuel' g1 (drop_before p prefix_len) payload ms
                        (to edge)
        | Found i edge EQUAL prefix_len =>
            Ok (set_data g1 (dd_append Nat.eqb (data g1) (to edge) payload),
                Some false)
        | Found i edge _ prefix_len =>
            g2 <- _split_edge g1 (next_node, b, i) edge prefix_len ;;
            let p' := drop_before p prefix_len in
            if (0 <? frag_len p')%nat then
              g3 <- _add_edge g2 (nodes g2 - 1) (nodes g2) p' (Some ms) ;;
              Ok (_new_node g3 payload, Some true)
            else
              Ok (set_data g2
                    (dd_append Nat.eqb (data g2) (nodes g2 - 1)%nat payload),
                  Some true)
        | NotFound =>
            g2 <- _add_edge g1 next_node (nodes g1) p (Some ms) ;;
            Ok (_new_node g2 payload, Some true)
        end
      else Ok (g, None)
  end.

(** [insert(path, data)].  Every pass through the loop that goes on
    ([PART]) drops at least one position of the path when no edge of the
    graph has an empty fragment, so [len(path) + 1] passes are enough. *)
Definition insert (g : Graph) (p : MatchFragment) (payload : object)
  : outcome (Graph * option bool) :=
  insert_loop (S (frag_len p)) (set_finalized g false) p payload
              (Z.of_nat (frag_len p)) 0.

(* ------------------------------------------------------------------ *)
(** *** Finalization *)

Definition with_weight (e : Edge) (w : num) : Edge :=
  mkEdge (to e) (path e) (len e) (match_size e) w.

(** [edge.weight = w] for the edge object stored at [l]. *)
Definition set_weight (g : Graph) (l : loc) (w : num) : outcome Graph :=
  e <- get_edge g l ;;
  Ok (set_edge g l (with_weight e w)).

Definition locs_of (node : nat) (b : bucket) (es : list Edge) : list loc :=
  map (fun i => (node, b, i)) (seq 0 (length es)).

(** [edges_at(node)]: the edge objects of a node in the order the
    generator yields them, bins in key insertion order and then the
    fuzzy-start list. *)
Definition edges_at (g : Graph) (node : nat) : outcome (list loc) :=
  dd <- nth_item (adjacency g) node ;;
  fs <- nth_item (fuzzy_starts g) node ;;
  Ok (flat_map (fun kv => locs_of node (Bin (fst kv)) (snd kv)) dd
      ++ locs_of node Fuzzy fs).

(** [_get_max_match_size(node)].  [fuel] bounds the depth of the
    recursion. *)
Fixpoint _get_max_match_size (fuel : nat) (g : Graph) (node : nat)
  : outcome (Graph * Z) :=
  match fuel with
  | O => OutOfFuel
  | S fuel' =>
      locs <- edges_at g node ;;
      foldM (fun (st : Graph * Z) (l : loc) =>
               let (g0, max_match_size) := st in
               edge <- get_edge g0 l ;;
               '(g1, m) <- _get_max_match_size fuel' g0 (to edge) ;;
               let w := Z.max m (match_size edge) in
               g2 <- set_weight g1 l (NInt w) ;;
               Ok (g2, Z.max w max_match_size))
            locs (g, 0)
  end.

Definition sum_Z (l : list Z) : Z := fold_left Z.add l 0.

(** The local function [weighted_mean] of [_get_mean_fuzziness]. *)
Definition weighted_mean (ratios : list num) (counts : list Z) : num * Z :=
  let n := sum_Z counts in
  if n =? 0 then (NInt 0, 0)
  else (num_truediv
          (fold_left num_add
             (map (fun rc => num_mul_int (fst rc) (snd rc))
                  (combine ratios counts))
             (NInt 0))
          n,
        n).

(** [_get_mean_fuzziness(node)]. *)
Fixpoint _get_mean_fuzziness (fuel : nat) (g : Graph) (node : nat)
  : outcome (Graph * (num * Z)) :=
  match fuel with
  | O => OutOfFuel
  | S fuel' =>
      locs <- edges_at g node ;;
      '(g', ratios, counts) <-
        foldM (fun (st : Graph * list num * list Z) (l : loc) =>
                 let '(g0, ratios, counts) := st in
                 edge <- get_edge g0 l ;;
                 '(g1, (t_ratio, t_count)) <-
                   _get_mean_fuzziness fuel' g0 (to edge) ;;
                 let (ratio, count) :=
                   weighted_mean [fuzz_ratio (path edge); t_ratio]
                                 [Z.of_nat (frag_len (path edge)); t_count] in
                 g2 <- set_weight g1 l ratio ;;
                 Ok (g2, ratios ++ [ratio], counts ++ [count]))
              locs (g, [], []) ;;
      Ok (g', weighted_mean ratios counts)
  end.

(** The comparison behind [sorted(edges, key=weight, reverse=reverse)]. *)
Definition weight_lt (reverse : bool) (a b : Edge) : bool :=
  if reverse then num_ltb (weight b) (weight a)
  else num_ltb (weight a) (weight b).

Definition sort_edges (reverse : bool) (es : list Edge) : list Edge :=
  sorted (weight_lt reverse) es.

Definition sort_node (reverse : bool) (g : Graph) (node : nat)
  : outcome Graph :=
  fs <- nth_item (fuzzy_starts g) node ;;
  let g1 :=
    set_fuzzy_starts g (set_nth (fuzzy_starts g) node (sort_edges reverse fs))
  in
  dd <- nth_item (adjacency g1) node ;;
  Ok (set_adjacency g1
        (set_nth (adjacency g1) node
           (map (fun kv => (fst kv, sort_edges reverse (snd kv))) dd))).

Definition _sort_edges_by_weight (g : Graph) (reverse : bool)
  : outcome Graph :=
  foldM (sort_node reverse) (seq 0 (nodes g)) g.

Definition finalize (fuel : nat) (g : Graph) : outcome Graph :=
  if finalized g then Ok g
  else
    '(g1, _) <- _get_mean_fuzziness fuel g 0 ;;
    g2 <- _sort_edges_by_weight g1 true ;;
    '(g3, lp) <- _get_max_match_size fuel g2 0 ;;
    g4 <- _sort_edges_by_weight (set_longest_path g3 lp) false ;;
    Ok (set_finalized g4 true).

(* ------------------------------------------------------------------ *)
(** *** The sequential scan *)

(** What [match] yields: the payloads of the terminus, the match size and
    the end address. *)
Definition MatchRes : Type := (list object * Z * Z)%type.

(** [not data] / [not edges] for a list. *)
Definition nonempty {A : Type} (l : list A) : bool :=
  match l with [] => false | _ :: _ => true end.

(** The edge stack is kept with its top first: [pop()] takes the head and
    [extend(xs)] puts [xs], reversed, in front. *)
Definition push (p : Z) (es : list Edge) (stack : list (Z * Edge))
  : list (Z * Edge) :=
  rev (map (fun e => (p, e)) es) ++ stack.

(** What one pass through the loop [while edge_stack] does after the
    [pop()]: it leaves the loop by [break] with a leaf match and the new
    cursor, or goes on with a stack and an intermediate match. *)
Inductive step_result : Type :=
| StepBreak (res : MatchRes) (pos : Z)
| StepContinue (edge_stack : list (Z * Edge)) (intermediate : option MatchRes).

(** The lines from [try] to [edge_stack.extend]: the successors of the
    edge's end node for the next byte are pushed, unless there is no next
    byte. *)
Definition extend_path (g : Graph) (target : list Z) (p : Z) (edge : Edge)
           (rest : list (Z * Edge)) (intermediate : option MatchRes)
  : outcome (Graph * step_result) :=
  match getitem target (p + Z.of_nat (len edge)) with
  | Raise IndexError => Ok (g, StepContinue rest intermediate)
  | Raise e => Raise e
  | OutOfFuel => OutOfFuel
  | Ok byte_ =>
      bin_id <- _to_bin g byte_ ;;
      let e_l := Z.of_nat (len edge) in
      dd <- nth_item (adjacency g) (to edge) ;;
      let (es, dd') := dd_get Z.eqb dd bin_id in
      let g1 := set_adjacency g (set_nth (adjacency g) (to edge) dd') in
      fs <- nth_item (fuzzy_starts g1) (to edge) ;;
      Ok (g1, StepContinue (push (p + e_l) (es ++ fs) rest) intermediate)
  end.

Definition explore_step (g : Graph) (target : list Z) (offset : Z)
           (p : Z) (edge : Edge) (rest : list (Z * Edge))
           (intermediate : option MatchRes)
  : outcome (Graph * step_result) :=
  if matches edge (slice target p (p + Z.of_nat (len edge))) then
    let (d, data') := dd_get Nat.eqb (data g) (to edge) in
    let g1 := set_data g data' in
    if nonempty d then
      dd <- nth_item (adjacency g1) (to edge) ;;
      has_edges <-
        (if dd_truthy dd then Ok true
         else fs <- nth_item (fuzzy_starts g1) (to edge) ;; Ok (nonempty fs)) ;;
      if negb has_edges then
        Ok (g1, StepBreak (d, match_size edge,
                           p + Z.of_nat (len edge) + offset)
                          (p + Z.of_nat (len edge)))
      else
        let recorded :=
          Some (d, match_size edge, p + Z.of_nat (len edge)) in
        match intermediate with
        | Some (_, old_size, _) =>
            if match_size edge <=? old_size
            then Ok (g1, StepContinue rest intermediate)
            else extend_path g1 target p edge rest recorded
        | None => extend_path g1 target p edge rest recorded
        end
    else extend_path g1 target p edge rest intermediate
  else Ok (g, StepContinue rest intermediate).

(** How the loop [while edge_stack] is left. *)
Inductive explored : Type :=
| Broke (res : MatchRes) (pos : Z)
| Exhausted (intermediate : option MatchRes).

Fixpoint explore (fuel : nat) (g : Graph) (target : list Z) (offset : Z)
         (edge_stack : list (Z * Edge)) (intermediate : option MatchRes)
  : outcome (Graph * explored) :=
  match fuel with
  | O => OutOfFuel
  | S fuel' =>
      match edge_stack with
      | [] => Ok (g, Exhausted intermediate)
      | (p, edge) :: rest =>
          '(g1, r) <- explore_step g target offset p edge rest intermediate ;;
          match r with
          | StepBreak res pos => Ok (g1, Broke res pos)
          | StepContinue stack' intermediate' =>
              explore fuel' g1 target offset stack' intermediate'
          end
      end
  end.

(** One pass through the loop [while pos < end_pos]: the matches it
    yields and the cursor after the realignment. *)
Definition attempt (fuel : nat) (g : Graph) (target : list Z)
           (offset align : Z) (pos : Z)
  : outcome (Graph * list MatchRes * Z) :=
  byte_ <- getitem target pos ;;
  bin_id <- _to_bin g byte_ ;;
  dd <- nth_item (adjacency g) 0 ;;
  let (es, dd') := dd_get Z.eqb dd bin_id in
  let g1 := set_adjacency g (set_nth (adjacency g) 0 dd') in
  fs <- nth_item (fuzzy_starts g1) 0 ;;
  '(g2, r) <- explore fuel g1 target offset (push pos (es ++ fs) []) None ;;
  let '(ys, pos1) :=
    match r with
    | Broke res pos' => ([res], pos')
    | Exhausted (Some (d, ms, p)) => ([(d, ms, p + offset)], p)
    | Exhausted None => ([], pos + 1)
    end in
  r <- mod_ (- pos1 - offset) align ;;
  Ok (g2, ys, pos1 + r).

Fixpoint match_loop (inner fuel : nat) (g : Graph) (target : list Z)
         (offset align : Z) (pos : Z) : outcome (Graph * list MatchRes) :=
  match fuel with
  | O => OutOfFuel
  | S fuel' =>
      if pos <? Z.of_nat (length target) then
        '(g1, ys, pos') <- attempt inner g target offset align pos ;;
        '(g2, zs) <- match_loop inner fuel' g1 target offset align pos' ;;
        Ok (g2, ys ++ zs)
      else Ok (g, [])
  end.

(** [match(target, offset, align)] for a [bytes] target: the graph after
    the scan and the list of everything the generator yields.  [fuel]
    bounds the recursion of [finalize] and the passes of each loop. *)
Definition match_ (fuel : nat) (g : Graph) (target : list Z)
           (offset align : Z) : outcome (Graph * list MatchRes) :=
  g1 <- finalize fuel g ;;
  match_loop fuel fuel g1 target offset align 0.

End Model.

Arguments Graph_init Payload bin_count_ : clear implicits.

(* ================================================================== *)
(** ** The parallel driver *)
(* ================================================================== *)

Section Parallel.

Variable Payload : Type.

(** A job of the job queue: the bounds of the slice, as the external
    [slice_partitions] produced them, and the alignment. *)
Definition Job : Type := (Z * Z * Z)%type.

(** What [yield_matches_to_queue] puts on the queue for one scan: every
    match, then [None]. *)
Definition queue_items (ys : list (MatchRes Payload))
  : list (option (MatchRes Payload)) :=
  map Some ys ++ [None].

(** [yield_matches_to_queue(graph, binary[slice_], done_queue,
    slice_.start, align)], as the list of what it puts. *)
Definition yield_matches_to_queue (fuel : nat) (g : Graph Payload)
           (binary : list Z) (j : Job)
  : outcome (Graph Payload * list (option (MatchRes Payload))) :=
  let '(start, stop, align) := j in
  '(g', ys) <- match_ fuel g (slice binary start stop) start align ;;
  Ok (g', queue_items ys).

(** A worker process: at the head of its loop with its own copy of the
    graph, putting the items of a scan one by one, gone through [break],
    or ended by an exception (which [logger.catch] logs). *)
Inductive wstate : Type :=
| Polling (g : Graph Payload)
| Putting (g : Graph Payload) (pending : list (option (MatchRes Payload)))
| Exited
| Crashed (e : exn).

(** The queues and the processes.  [ret_queue] is everything put on the
    results queue so far, in order, each item with the index of the worker
    that put it. *)
Record sys : Type := mkSys {
  job_queue : list Job;
  ret_queue : list (nat * option (MatchRes Payload));
  procs : list wstate
}.

(** The state after [parallel_prepartioned_graph_match] has filled the job
    queue and started the workers. *)
Definition start (g : Graph Payload) (slices : list (Z * Z)) (align : Z)
           (workers : nat) : sys :=
  mkSys (map (fun s => (fst s, snd s, align)) slices) []
        (repeat (Polling g) workers).

(** One step of one worker. *)
Inductive step (fuel : nat) (binary : list Z) : sys -> sys -> Prop :=
| step_take : forall s i g j js g' items,
    nth_error (procs s) i = Some (Polling g) ->
    job_queue s = j :: js ->
    yield_matches_to_queue fuel g binary j = Ok (g', items) ->
    step fuel binary s
         (mkSys js (ret_queue s) (set_nth (procs s) i (Putting g' items)))
| step_crash : forall s i g j js e,
    nth_error (procs s) i = Some (Polling g) ->
    job_queue s = j :: js ->
    yield_matches_to_queue fuel g binary j = Raise e ->
    step fuel binary s
         (mkSys js (ret_queue s) (set_nth (procs s) i (Crashed e)))
| step_put : forall s i g x xs,
    nth_error (procs s) i = Some (Putting g (x :: xs)) ->
    step fuel binary s
         (mkSys (job_queue s) (ret_queue s ++ [(i, x)])
                (set_nth (procs s) i (Putting g xs)))
| step_next : forall s i g,
    nth_error (procs s) i = Some (Putting g []) ->
    step fuel binary s
         (mkSys (job_queue s) (ret_queue s) (set_nth (procs s) i (Polling g)))
| step_exit : forall s i g,
    nth_error (procs s) i = Some (Polling g) ->
    job_queue s = [] ->
    step fuel binary s
         (mkSys (job_queue s) (ret_queue s) (set_nth (procs s) i Exited)).

Inductive steps (fuel : nat) (binary : list Z) : sys -> sys -> Prop :=
| steps_refl : forall s, steps fuel binary s s
| steps_cons : forall s1 s2 s3,
    step fuel binary s1 s2 -> steps fuel binary s2 s3 ->
    steps fuel binary s1 s3.

(** How the merge loop of the driver stands on a given content of the
    results queue: through with the loop, with what is left on the queue,
    or blocked in [ret_queue.get()]. *)
Inductive merged : Type :=
| Merged (yielded : list (MatchRes Payload))
         (left : list (option (MatchRes Payload)))
| Waiting (yielded : list (MatchRes Payload)).

Definition yield_first (m : MatchRes Payload) (r : merged) : merged :=
  match r with
  | Merged ys l => Merged (m :: ys) l
  | Waiting ys => Waiting (m :: ys)
  end.

(** The loop [while done < work] over the items [q] of the queue. *)
Fixpoint merge_loop (work done : nat) (q : list (option (MatchRes Payload)))
  : merged :=
  if (done <? work)%nat then
    match q with
    | [] => Waiting []
    | None :: q' => merge_loop work (S done) q'
    | Some m :: q' => yield_first m (merge_loop work done q')
    end
  else Merged [] q.

(** The sentinels among the items of a queue, and those of one worker. *)
Definition sentinels (q : list (option (MatchRes Payload))) : nat :=
  length (filter (fun x => match x with None => true | Some _ => false end) q).

Definition sentinels_of (w : nat) (q : list (nat * option (MatchRes Payload)))
  : nat :=
  sentinels (map snd (filter (fun x => (fst x =? w)%nat) q)).

(** The sentinels a worker has still to put for the scan it is in, and
    the scans lost to an exception. *)
Definition in_flight (w : wstate) : nat :=
  match w with
  | Putting _ pending => sentinels pending
  | _ => 0%nat
  end.

Definition lost (w : wstate) : nat :=
  match w with
  | Crashed _ => 1%nat
  | _ => 0%nat
  end.

Definition sum_nat (l : list nat) : nat := fold_right Nat.add 0%nat l.

Definition stopped (w : wstate) : bool :=
  match w with
  | Exited | Crashed _ => true
  | _ => false
  end.

End Parallel.

(* ================================================================== *)
(** ** Concrete signatures and graphs *)
(* ================================================================== *)

Module Examples.

(** A fragment without wildcards. *)
Definition lit (l : list Z) : MatchFragment :=
  mkFragment l (map (fun _ => false) l).

(** A fragment whose first position is a wildcard. *)
Definition wild_first (l : list Z) : MatchFragment :=
  mkFragment (0 :: l) (true :: map (fun _ => false) l).

Definition A : Z := 65.
Definition B : Z := 66.
Definition C : Z := 67.
Definition D : Z := 68.
Definition X : Z := 88.
Definition Y : Z := 89.

(** Signatures are inserted with numbers as payloads. *)
Definition fresh : Graph nat := Graph_init nat 256.

Fixpoint insert_all (g : Graph nat) (sigs : list (MatchFragment * nat))
  : outcome (Graph nat) :=
  match sigs with
  | [] => Ok g
  | (f, d) :: sigs' =>
      '(g', _) <- insert g f (Some d) ;;
      insert_all g' sigs'
  end.

Definition graph_of (sigs : list (MatchFragment * nat)) : Graph nat :=
  match insert_all fresh sigs with
  | Ok g => g
  | _ => fresh
  end.

(** The graph of the single signature [ABCD]. *)
Definition g_abcd : Graph nat := graph_of [(lit [A; B; C; D], 1%nat)].

(** [ABCD], then [ABXY]: the edge of [ABCD] is split at 2. *)
Definition g_branch : Graph nat :=
  graph_of [(lit [A; B; C; D], 1%nat); (lit [A; B; X; Y], 2%nat)].

(** The graph of the single signature [ABC]. *)
Definition g_abc : Graph nat := graph_of [(lit [A; B; C], 1%nat)].

(** Two signatures and an extension of each; [?B] stands for a wildcard
    followed by [B]. *)
Definition g_rival : Graph nat :=
  graph_of [(lit [A; B], 1%nat); (lit [A; B; C; D], 2%nat);
            (wild_first [B], 3%nat); (wild_first [B; X; Y], 4%nat)].

Definition finalized_of (g : Graph nat) : Graph nat :=
  match finalize 16 g with
  | Ok g' => g'
  | _ => g
  end.

(** The scan of [ABCD] over [g_rival], after the pass that pops the
    fuzzy-start edge [?B] of the root: the edge [AB] is on the stack and
    the end node of [?B] is the recorded intermediate match. *)
Definition rival_target : list Z := [A; B; C; D].

Definition edge_or_dummy (g : Graph nat) (l : loc) : Edge :=
  match get_edge g l with
  | Ok e => e
  | _ => new_edge 0 (lit []) None
  end.

Definition rival_ab : Edge :=
  edge_or_dummy (finalized_of g_rival) (0%nat, Bin A, 0%nat).

Definition rival_wb : Edge :=
  edge_or_dummy (finalized_of g_rival) (0%nat, Fuzzy, 0%nat).

(** The bins and the fuzzy-start list of the end node of [AB]. *)
Definition rival_bins : ddict Z Edge :=
  nth (to rival_ab) (adjacency (finalized_of g_rival)) [].

Definition rival_fuzzy : list Edge :=
  nth (to rival_ab) (fuzzy_starts (finalized_of g_rival)) [].

Definition rival_recorded : option (MatchRes nat) :=
  Some ([Some 3%nat], 2, 2).

Definition rival_after_pop : Graph nat :=
  match explore_step (finalized_of g_rival) rival_target 0 0 rival_wb
                     [(0, rival_ab)] None with
  | Ok (g, _) => g
  | _ => fresh
  end.

(** The edge of [g_abcd], and where it is stored. *)
Definition abcd_loc : loc := (0%nat, Bin A, 0%nat).

Definition abcd_edge : Edge := edge_or_dummy g_abcd abcd_loc.

(** [g_abcd] after the split of its edge at 2. *)
Definition abcd_split : Graph nat :=
  match _split_edge g_abcd abcd_loc abcd_edge 2 with
  | Ok g => g
  | _ => fresh
  end.

(** A run of the parallel driver with one worker and two slices of the
    binary [ABCD]: the state once the worker has exited. *)
Definition abcd_match : MatchRes nat := ([Some 1%nat], 4, 4).

Definition run_end : sys nat :=
  mkSys [] [(0%nat, Some abcd_match); (0%nat, None);
            (0%nat, Some abcd_match); (0%nat, None)]
        [Exited nat].

(** Scans used below: the graph each starts from and the graph it
    leaves. *)
Definition graph_after (g : Graph nat) (target : list Z) (offset align : Z)
  : Graph nat :=
  match match_ 16 g target offset align with
  | Ok (g', _) => g'
  | _ => g
  end.

Definition fin_abcd : Graph nat := finalized_of g_abcd.

Definition fin_abc : Graph nat := finalized_of g_abc.

(** [AB], then its extension [ABCD]. *)
Definition g_ab : Graph nat := graph_of [(lit [A; B], 1%nat)].

Definition g_nested : Graph nat :=
  graph_of [(lit [A; B], 1%nat); (lit [A; B; C; D], 2%nat)].

(** [ABCD], then its prefix [AB]: the edge of [ABCD] is split at 2. *)
Definition g_nested_rev : Graph nat :=
  graph_of [(lit [A; B; C; D], 2%nat); (lit [A; B], 1%nat)].

(** A target in which [ABCD] occurs at 2, and the graph the scan has
    when its cursor comes there. *)
Definition nested_target : list Z := [X; Y; A; B; C; D].

Definition nested_at_2 : Graph nat :=
  match attempt 16 (finalized_of g_nested) nested_target 0 2 0 with
  | Ok (g, _, _) => g
  | _ => fresh
  end.

(** [BA], then its extension [BABA], and a target in which [BABA]
    occurs at 0 and at 2. *)
Definition g_baba : Graph nat :=
  graph_of [(lit [B; A], 1%nat); (lit [B; A; B; A], 2%nat)].

Definition baba_target : list Z := [B; A; B; A; B; A].

(** [g_branch] after [AB] has been inserted once, and twice. *)
Definition branch_ab : Graph nat :=
  graph_of [(lit [A; B; C; D], 1%nat); (lit [A; B; X; Y], 2%nat);
            (lit [A; B], 3%nat)].

Definition branch_ab_twice : Graph nat :=
  graph_of [(lit [A; B; C; D], 1%nat); (lit [A; B; X; Y], 2%nat);
            (lit [A; B], 3%nat); (lit [A; B], 4%nat)].

End Examples.

(* ================================================================== *)
(** ** Well-formed fragments *)
(* ================================================================== *)

(** A fragment has one wildcard flag per byte. *)
Definition frag_wf (p : MatchFragment) : Prop :=
  length (fuzziness p) = length (template p).

(** The concatenation of two fragments: [p] followed by [q]. *)
Definition frag_app (p q : MatchFragment) : MatchFragment :=
  mkFragment (template p ++ template q) (fuzziness p ++ fuzziness q).

(* ================================================================== *)
(** ** What the scan reads at the end node of an edge *)
(* ================================================================== *)

Section ScanReads.

Variable Payload : Type.
Implicit Types (g : Graph Payload).

(** The payloads attached to a node. *)
Definition payloads g (node : nat) : list (object Payload) :=
  match dd_find Nat.eqb (data g) node with
  | Some d => d
  | None => []
  end.

(** The edges of the bin [k] of a dictionary. *)
Definition bin_edges (dd : ddict Z Edge) (k : Z) : list Edge :=
  match dd_find Z.eqb dd k with
  | Some es => es
  | None => []
  end.

(** The end node of [edge] is recorded or rejected as an intermediate
    match only when it has payloads and edges of its own; it is rejected
    when its match size is not greater than the recorded one. *)
Definition rejected g (dd : ddict Z Edge) (fs : list Edge) (edge : Edge)
           (intermediate : option (MatchRes Payload)) : bool :=
  nonempty (payloads g (to edge))
  && (dd_truthy dd || nonempty fs)
  && match intermediate with
     | Some (_, old_size, _) => match_size edge <=? old_size
     | None => false
     end.

(** The intermediate match after the end node of [edge] was looked at
    and not rejected. *)
Definition recorded g (p : Z) (edge : Edge)
           (intermediate : option (MatchRes Payload))
  : option (MatchRes Payload) :=
  if nonempty (payloads g (to edge))
  then Some (payloads g (to edge), match_size edge, p + Z.of_nat (len edge))
  else intermediate.

(** The reading of the scan under which a matched edge whose end node has
    edges always has its successors for the next byte pushed: the bin of
    that byte, then the fuzzy-start edges. *)
Definition always_pushes g (target : list Z) (offset p : Z) (edge : Edge)
           (rest : list (Z * Edge)) (intermediate : option (MatchRes Payload))
  : Prop :=
  forall dd fs byte_,
    matches edge (slice target p (p + Z.of_nat (len edge))) = true ->
    getitem target (p + Z.of_nat (len edge)) = Ok byte_ ->
    nth_error (adjacency g) (to edge) = Some dd ->
    nth_error (fuzzy_starts g) (to edge) = Some fs ->
    (dd_truthy dd || nonempty fs) = true ->
    exists g' intermediate',
      explore_step g target offset p edge rest intermediate
      = Ok (g', StepContinue
                  (push (p + Z.of_nat (len edge))
                        (bin_edges dd (byte_ mod bin_count g) ++ fs) rest)
                  intermediate').

End ScanReads.

(* ================================================================== *)
(** ** The cursor of a scan, and what a scan leaves of the graph *)
(* ================================================================== *)

Section ScanRelations.

Variable Payload : Type.
Implicit Types (g : Graph Payload).

(** [cursor_reaches inner target offset align g pos g' pos']: the loop
    [while pos < end_pos], entered with graph [g] and cursor [pos], comes
    to its head with graph [g'] and cursor [pos'] after some passes. *)
Inductive cursor_reaches (inner : nat) (target : list Z) (offset align : Z)
  : Graph Payload -> Z -> Graph Payload -> Z -> Prop :=
| reaches_here : forall g pos,
    cursor_reaches inner target offset align g pos g pos
| reaches_next : forall g pos g1 ys pos1 g2 pos2,
    pos < Z.of_nat (length target) ->
    attempt inner g target offset align pos = Ok (g1, ys, pos1) ->
    cursor_reaches inner target offset align g1 pos1 g2 pos2 ->
    cursor_reaches inner target offset align g pos g2 pos2.

(** A dictionary after some reads of missing keys: the entries it had,
    followed by empty lists under new keys. *)
Definition dd_grown {K V : Type} (d d' : ddict K V) : Prop :=
  exists ks : list K, d' = d ++ map (fun k => (k, [])) ks.

(** What a scan may change of a graph: nothing but such reads, in the
    payload dictionary and in the bins of the nodes. *)
Definition only_reads g g' : Prop :=
  nodes g' = nodes g /\
  fuzzy_starts g' = fuzzy_starts g /\
  longest_path g' = longest_path g /\
  bin_count g' = bin_count g /\
  finalized g' = finalized g /\
  dd_grown (data g) (data g') /\
  Forall2 dd_grown (adjacency g) (adjacency g').

(** The nodes whose bins a scan reads: the root, and the end node of a
    matched edge unless it is a leaf with payloads (where the scan
    yields and leaves the exploration). *)
Definition may_read_bins g (u : nat) : Prop :=
  u = 0%nat \/
  nonempty (payloads g u) = false \/
  exists dd,
    nth_error (adjacency g) u = Some dd /\
    (dd_truthy dd = true \/
     exists fs, nth_error (fuzzy_starts g) u = Some fs /\ nonempty fs = true).

(** [reads g g']: [g'] is [g] after some reads of the payloads of a node
    and of a bin of a node. *)
Inductive reads : Graph Payload -> Graph Payload -> Prop :=
| reads_none : forall g, reads g g
| reads_payloads : forall g n g',
    reads (set_data g (snd (dd_get Nat.eqb (data g) n))) g' ->
    reads g g'
| reads_bin : forall g u dd k g',
    nth_error (adjacency g) u = Some dd ->
    may_read_bins g u ->
    reads (set_adjacency g
             (set_nth (adjacency g) u (snd (dd_get Z.eqb dd k)))) g' ->
    reads g g'.

(** The reading under which a scan leaves a finalized graph as it was. *)
Definition scan_changes_nothing (fuel : nat) g (target : list Z)
           (offset align : Z) : Prop :=
  forall g' ys,
    finalized g = true ->
    match_ fuel g target offset align = Ok (g', ys) ->
    adjacency g' = adjacency g /\
    fuzzy_starts g' = fuzzy_starts g /\
    nodes g' = nodes g /\
    data g' = data g.

(** The reading under which no scan, whatever the target, the base
    offset and the alignment, lets an [IndexError] reach its caller. *)
Definition never_index_error g (target : list Z) (offset align : Z) : Prop :=
  forall fuel, match_ fuel g target offset align <> Raise IndexError.

(** The reading under which every end offset a scan with [align = 4] and
    [offset = 0] yields is a multiple of 4. *)
Definition ends_aligned (fuel : nat) g (target : list Z) : Prop :=
  forall g' ys d ms e,
    match_ fuel g target 0 4 = Ok (g', ys) ->
    In (d, ms, e) ys ->
    e mod 4 = 0.

End ScanRelations.

(* ================================================================== *)
(** ** Readings of the parallel driver *)
(* ================================================================== *)

Section DriverReadings.

Variable Payload : Type.

(** The matches among the items of a queue. *)
Fixpoint somes (q : list (option (MatchRes Payload)))
  : list (MatchRes Payload) :=
  match q with
  | [] => []
  | Some m :: q' => m :: somes q'
  | None :: q' => somes q'
  end.

(** A worker between two scans or in one: what it has still to put is
    nothing, or some matches and then the sentinel of the scan. *)
Definition pending_ok (w : wstate Payload) : Prop :=
  match w with
  | Putting _ pending =>
      pending = [] \/ exists zs, pending = map Some zs ++ [None]
  | _ => True
  end.

(** The sentinels still to come and the scans lost, over all workers. *)
Definition all_in_flight (ws : list (wstate Payload)) : nat :=
  sum_nat (map (@in_flight Payload) ws).

Definition all_lost (ws : list (wstate Payload)) : nat :=
  sum_nat (map (@lost Payload) ws).

(** Every slice is accounted for by one sentinel: put, still to be put by
    the worker that scans it, waiting in the job queue, or lost with the
    worker that took it. *)
Definition accounted (work : nat) (s : sys Payload) : Prop :=
  (sentinels (map snd (ret_queue s)) + all_in_flight (procs s)
   + length (job_queue s) + all_lost (procs s) = work)%nat.

Definition closed_by_sentinel (q : list (option (MatchRes Payload))) : Prop :=
  q = [] \/ exists q0, q = q0 ++ [None].

Definition driver_inv (work : nat) (s : sys Payload) : Prop :=
  accounted work s /\
  Forall pending_ok (procs s) /\
  (sentinels (map snd (ret_queue s)) = work ->
   closed_by_sentinel (map snd (ret_queue s))).

(** The reading under which, once every worker has stopped, each of the
    [workers] workers has put exactly one sentinel. *)
Definition one_sentinel_per_worker (fuel : nat) (binary : list Z)
           (g : Graph Payload) (slices : list (Z * Z)) (align : Z)
           (workers : nat) : Prop :=
  forall s w,
    steps fuel binary (start g slices align workers) s ->
    forallb (@stopped Payload) (procs s) = true ->
    (w < workers)%nat ->
    sentinels_of w (ret_queue s) = 1%nat.

End DriverReadings.

(* ================================================================== *)
(** ** Well-formed graphs *)
(* ================================================================== *)

Section WellFormed.

Variable Payload : Type.
Implicit Types (g : Graph Payload).

(** The edges stored at a place; none where there is no such node. *)
Definition edges_in g (u : nat) (b : bucket) : list Edge :=
  match get_bucket g u b with
  | Ok es => es
  | _ => []
  end.

(** A node that both node lists have. *)
Definition in_range g (u : nat) : Prop :=
  (u < length (adjacency g))%nat /\ (u < length (fuzzy_starts g))%nat.

(** The list a fragment's first position sends an edge to. *)
Definition bucket_of g (p : MatchFragment) : bucket :=
  match fuzziness p, template p with
  | true :: _, _ => Fuzzy
  | _, t0 :: _ => Bin (t0 mod bin_count g)
  | _, [] => Fuzzy
  end.

(** An edge of node [u] in a graph of [n] nodes: it leads to a node of the
    graph, its fragment is well formed and not empty, [len] is the length
    of the fragment, and its end node lies [len] bytes deeper than [u]. *)
Definition edge_ok (n : nat) (depth : nat -> nat) (u : nat) (e : Edge) : Prop :=
  (to e < n)%nat /\
  (1 <= len e)%nat /\
  len e = frag_len (path e) /\
  frag_wf (path e) /\
  depth (to e) = (depth u + len e)%nat.

Definition wf_with (depth : nat -> nat) g : Prop :=
  length (adjacency g) = nodes g /\
  length (fuzzy_starts g) = nodes g /\
  (1 <= nodes g)%nat /\
  (forall u dd, nth_error (adjacency g) u = Some dd -> NoDup (map fst dd)) /\
  (forall u b e, In e (edges_in g u b) -> edge_ok (nodes g) depth u e).

(** The invariant of the graph: the node lists have one entry per node,
    the keys of a bin dictionary are distinct, and the edges form a forest
    measured by the depth in bytes. *)
Definition wf g : Prop := exists depth, wf_with depth g.

(** A bound on the number of edges in any one list. *)
Definition fan_bound (B : nat) g : Prop :=
  forall u b, (length (edges_in g u b) <= B)%nat.

(** Two lists of edges with the same edges up to order and weights. *)
Definition unweighted (e : Edge) : Edge := with_weight e (NInt 0).

Definition bucket_sim (es es' : list Edge) : Prop :=
  length es' = length es /\
  forall e', In e' es' -> exists e, In e es /\ unweighted e' = unweighted e.

(** Two graphs that differ in the weights of their edges and in the order
    of the edges within each list only, and in [longest_path] and
    [finalized]: what [finalize] may change. *)
Definition sim g g' : Prop :=
  nodes g' = nodes g /\
  data g' = data g /\
  bin_count g' = bin_count g /\
  length (adjacency g') = length (adjacency g) /\
  length (fuzzy_starts g') = length (fuzzy_starts g) /\
  (forall u, map fst (nth u (adjacency g') []) = map fst (nth u (adjacency g) [])) /\
  (forall u b, bucket_sim (edges_in g u b) (edges_in g' u b)).

(** The graphs the operations of [Graph] build: from a new graph, by
    insertions of well-formed fragments, finalizations and scans that
    return. *)
Inductive reachable : Graph Payload -> Prop :=
| reach_init : forall bc, reachable (Graph_init Payload bc)
| reach_insert : forall g p d g' r,
    reachable g -> frag_wf p -> insert g p d = Ok (g', r) -> reachable g'
| reach_finalize : forall g fuel g',
    reachable g -> finalize fuel g = Ok g' -> reachable g'
| reach_match : forall g fuel target offset align g' ys,
    reachable g -> match_ fuel g target offset align = Ok (g', ys) ->
    reachable g'.

(** The cost of exploring from a stack entry with [d] bytes of the target
    left, when no node has more than [B] edges in a list. *)
Fixpoint explore_cost (B d : nat) : nat :=
  match d with
  | O => 1
  | S d' => 1 + (2 * B + 1) * explore_cost B d'
  end.

Definition stack_cost (B : nat) (n : Z) (stack : list (Z * Edge)) : nat :=
  fold_right (fun pe acc => explore_cost B (Z.to_nat (n - fst pe)) + acc)%nat
             0%nat stack.

(** Passes enough for the loop [while edge_stack] of any attempt on
    [target]. *)
Definition explore_fuel (B : nat) (target : list Z) : nat :=
  S (2 * B * explore_cost B (length target)).

End WellFormed.

Section Places.

Variable Payload : Type.

(** A place of node [node] that holds an edge. *)
Definition valid_loc (g : Graph Payload) (node : nat) (l : loc) : Prop :=
  exists b i, l = (node, b, i) /\ (i < length (edges_in g node b))%nat.

(** A bound on the depth of the nodes. *)
Definition depth_bound (depth : nat -> nat) (D : nat) (g : Graph Payload)
  : Prop :=
  forall v, (v < nodes g)%nat -> (depth v <= D)%nat.

End Places.

Section ExploreInvariant.

Variable Payload : Type.

(** An edge of the graph. *)
Definition known_edge (g : Graph Payload) (e : Edge) : Prop :=
  exists u b, In e (edges_in g u b).

(** A stack entry of the attempt at cursor [pos0]. *)
Definition entry_ok (g : Graph Payload) (pos0 : Z) (pe : Z * Edge) : Prop :=
  pos0 <= fst pe /\ known_edge g (snd pe).

(** An intermediate match of the attempt at cursor [pos0] ends past it. *)
Definition inter_ok (pos0 : Z) (i : option (MatchRes Payload)) : Prop :=
  match i with
  | Some (_, _, q) => pos0 < q
  | None => True
  end.

End ExploreInvariant.

(* ================================================================== *)
(** ** A signature and an extension of it *)
(* ================================================================== *)

Section TwoSignatures.

Variable Payload : Type.
Implicit Types (g : Graph Payload).

(** Node [u] has the single edge [e], in the list of the fragment [p]. *)
Definition only_edge g (u : nat) (p : MatchFragment) (e : Edge) : Prop :=
  edges_in g u (bucket_of g p) = [e] /\
  (forall b, b <> bucket_of g p -> edges_in g u b = []).

(** Node [u] has no edge and no bin. *)
Definition leaf_node g (u : nat) : Prop :=
  nth_error (adjacency g) u = Some [] /\
  nth_error (fuzzy_starts g) u = Some [].

(** The graph of a signature [short] with payload [ps] and of its
    extension [short ++ ext] with payload [pl]: the root has one edge
    [e1], labelled [short], to the node [n1] that carries [ps]; that node
    has one edge [e2], labelled [ext], to the leaf [n2] that carries
    [pl]. *)
Definition two_level_with g (short ext : MatchFragment) (ps pl : Payload)
           (n1 n2 : nat) (e1 e2 : Edge) : Prop :=
  only_edge g 0 short e1 /\
  to e1 = n1 /\ path e1 = short /\ len e1 = frag_len short /\
  only_edge g n1 ext e2 /\
  to e2 = n2 /\ path e2 = ext /\ len e2 = frag_len ext /\
  match_size e2 = Z.of_nat (frag_len short + frag_len ext) /\
  payloads g n1 = [Some ps] /\
  payloads g n2 = [Some pl] /\
  leaf_node g n2 /\ n2 <> 0%nat /\
  in_range g 0 /\ in_range g n1 /\
  length (adjacency g) = length (fuzzy_starts g).

Definition two_level g (short ext : MatchFragment) (ps pl : Payload)
           (n1 n2 : nat) : Prop :=
  exists e1 e2, two_level_with g short ext ps pl n1 n2 e1 e2.

(** The two orders in which the signatures can have been inserted into a
    new graph. *)
Definition inserted_short_first (bc : Z) (short ext : MatchFragment)
           (ps pl : Payload) g : Prop :=
  exists g1 r1 r2,
    insert (Graph_init Payload bc) short (Some ps) = Ok (g1, r1) /\
    insert g1 (frag_app short ext) (Some pl) = Ok (g, r2).

Definition inserted_long_first (bc : Z) (short ext : MatchFragment)
           (ps pl : Payload) g : Prop :=
  exists g1 r1 r2,
    insert (Graph_init Payload bc) (frag_app short ext) (Some pl)
    = Ok (g1, r1) /\
    insert g1 short (Some ps) = Ok (g, r2).

(** The fragment [p] occurs in [target] at [pos]. *)
Definition occurs_at (p : MatchFragment) (target : list Z) (pos : Z) : Prop :=
  0 <= pos /\
  frag_eq_bytes p (slice target pos (pos + Z.of_nat (frag_len p))) = true.

(** What the scan yields for the signature [p] with payload [pl] found at
    [pos]: the payloads of the end node, the length of the signature and
    the end offset. *)
Definition match_of (pl : Payload) (p : MatchFragment) (pos offset : Z)
  : MatchRes Payload :=
  ([Some pl], Z.of_nat (frag_len p), pos + Z.of_nat (frag_len p) + offset).

(** The reading of the claim on a graph [g] that holds, perhaps among
    others, a signature and its extension [long] with the payload [pl]:
    wherever [long] occurs in the target at a position the realignment
    leaves where it is, the scan yields the match of [long] that starts
    there. *)
Definition longer_yielded_where_it_occurs (fuel : nat) g (target : list Z)
           (offset align : Z) (pl : Payload) (long : MatchFragment) : Prop :=
  forall pos,
    occurs_at long target pos ->
    (- pos - offset) mod align = 0 ->
    exists g' ys,
      match_ fuel g target offset align = Ok (g', ys) /\
      In (match_of pl long pos offset) ys.

End TwoSignatures.

(* ================================================================== *)
(** ** A signature inserted twice *)
(* ================================================================== *)

Section InsertedTwice.

Variable Payload : Type.
Implicit Types (g : Graph Payload).

(** The reading of the claim on duplicates for any graph [g]: the first
    [insert] of [p] returns [True], the second [False], and some node then
    carries exactly the two payloads. *)
Definition true_then_false g (p : MatchFragment) (p1 p2 : Payload) : Prop :=
  exists g1 g2 n,
    insert g p (Some p1) = Ok (g1, Some true) /\
    insert g1 p (Some p2) = Ok (g2, Some false) /\
    payloads g2 n = [Some p1; Some p2].

End InsertedTwice.

(* ================================================================== *)
(** ** Lists, dictionaries and outcomes *)
(* ================================================================== *)

Unset Implicit Arguments.

Section ListFacts.
Context {T : Type}.

Lemma set_nth_length (l : list T) (i : nat) (x : T) :
  length (set_nth l i x) = length l.
Proof.
  revert i; induction l as [|y l IH]; intros [|i]; simpl; auto.
Qed.

Lemma nth_error_set_nth_eq (l : list T) (i : nat) (x : T) :
  (i < length l)%nat -> nth_error (set_nth l i x) i = Some x.
Proof.
  revert i; induction l as [|y l IH]; intros [|i] H; simpl in *;
    try lia; auto.
  apply IH; lia.
Qed.

Lemma nth_error_set_nth_neq (l : list T) (i j : nat) (x : T) :
  i <> j -> nth_error (set_nth l i x) j = nth_error l j.
Proof.
  revert i j; induction l as [|y l IH]; intros [|i] [|j] H; simpl;
    try congruence; auto.
Qed.

Lemma set_nth_same (l : list T) (i : nat) (x : T) :
  nth_error l i = Some x -> set_nth l i x = l.
Proof.
  revert i; induction l as [|y l IH]; intros [|i] H; simpl in *;
    try congruence.
  f_equal; auto.
Qed.

Lemma set_nth_app_last (l : list T) (y x : T) :
  set_nth (l ++ [y]) (length l) x = l ++ [x].
Proof.
  induction l as [|z l IH]; simpl; congruence.
Qed.

Lemma nth_error_app_last (l : list T) (y : T) :
  nth_error (l ++ [y]) (length l) = Some y.
Proof.
  induction l as [|z l IH]; simpl; auto.
Qed.

Lemma nth_error_app_old (l : list T) (y : T) (i : nat) :
  (i < length l)%nat -> nth_error (l ++ [y]) i = nth_error l i.
Proof.
  intros H. apply nth_error_app1. exact H.
Qed.

Lemma nth_item_Ok (l : list T) (i : nat) (x : T) :
  nth_item l i = Ok x <-> nth_error l i = Some x.
Proof.
  unfold nth_item. destruct (nth_error l i); split; congruence.
Qed.

Lemma nth_item_lt (l : list T) (i : nat) (x : T) :
  nth_item l i = Ok x -> (i < length l)%nat.
Proof.
  intros H. apply nth_item_Ok in H. apply nth_error_Some. congruence.
Qed.

End ListFacts.

Lemma bind_Ok {S T : Type} (m : outcome S) (k : S -> outcome T) (b : T) :
  bind m k = Ok b -> exists a, m = Ok a /\ k a = Ok b.
Proof.
  destruct m; simpl; intros H; try discriminate. eauto.
Qed.

(** Take a successful [bind] apart. *)
Ltac inv_bind H :=
  let a := fresh "a" in
  let Ha := fresh "Ha" in
  apply bind_Ok in H; destruct H as (a & Ha & H).

Section DictFacts.
Context {K V : Type}.
Variable eqb : K -> K -> bool.
Hypothesis eqb_eq : forall a b, eqb a b = true <-> a = b.

Lemma eqb_refl_true (k : K) : eqb k k = true.
Proof. apply eqb_eq. reflexivity. Qed.

Lemma dd_find_set_eq (d : ddict K V) (k : K) (v : list V) :
  dd_find eqb (dd_set eqb d k v) k = Some v.
Proof.
  induction d as [|[k' v'] d IH]; simpl.
  - now rewrite eqb_refl_true.
  - destruct (eqb k k') eqn:E; simpl; rewrite E; auto.
Qed.

Lemma dd_find_set_neq (d : ddict K V) (k k2 : K) (v : list V) :
  k2 <> k -> dd_find eqb (dd_set eqb d k v) k2 = dd_find eqb d k2.
Proof.
  intros N. induction d as [|[k' v'] d IH]; simpl.
  - destruct (eqb k2 k) eqn:E; auto. apply eqb_eq in E. contradiction.
  - destruct (eqb k k') eqn:E; simpl.
    + apply eqb_eq in E. subst k'.
      destruct (eqb k2 k) eqn:E2; auto. apply eqb_eq in E2. contradiction.
    + destruct (eqb k2 k'); auto.
Qed.

Lemma dd_find_app_none (d : ddict K V) (k : K) (v : list V) :
  dd_find eqb d k = None ->
  dd_find eqb (d ++ [(k, v)]) k = Some v.
Proof.
  induction d as [|[k' v'] d IH]; simpl; intros H.
  - now rewrite eqb_refl_true.
  - destruct (eqb k k'); try discriminate. auto.
Qed.

Lemma dd_set_app_none (d : ddict K V) (k : K) (v w : list V) :
  dd_find eqb d k = None ->
  dd_set eqb (d ++ [(k, v)]) k w = d ++ [(k, w)].
Proof.
  induction d as [|[k' v'] d IH]; simpl; intros H.
  - now rewrite eqb_refl_true.
  - destruct (eqb k k'); try discriminate. f_equal. auto.
Qed.

End DictFacts.

Lemma Z_eqb_eq (a b : Z) : (a =? b) = true <-> a = b.
Proof. apply Z.eqb_eq. Qed.

Lemma Nat_eqb_eq (a b : nat) : (a =? b)%nat = true <-> a = b.
Proof. apply Nat.eqb_eq. Qed.

(* ================================================================== *)
(** ** Fragments *)
(* ================================================================== *)

Lemma lcp_refl (t : list Z) (f : list bool) :
  length f = length t -> lcp t f t f = length t.
Proof.
  revert f; induction t as [|a t IH]; intros [|x f] H; simpl in *;
    try discriminate; auto.
  unfold pos_agree. rewrite Z.eqb_refl.
  destruct x; simpl; rewrite IH by lia; reflexivity.
Qed.

Lemma lcp_le_l (t1 : list Z) (f1 : list bool) (t2 : list Z) (f2 : list bool) :
  (lcp t1 f1 t2 f2 <= length t1)%nat.
Proof.
  revert f1 t2 f2; induction t1 as [|a t1 IH]; intros [|x f1] [|b t2] [|y f2];
    simpl; try lia.
  destruct (pos_agree a x b y); simpl; try lia.
  specialize (IH f1 t2 f2). lia.
Qed.

Lemma lcp_le_r (t1 : list Z) (f1 : list bool) (t2 : list Z) (f2 : list bool) :
  (lcp t1 f1 t2 f2 <= length t2)%nat.
Proof.
  revert f1 t2 f2; induction t1 as [|a t1 IH]; intros [|x f1] [|b t2] [|y f2];
    simpl; try lia.
  destruct (pos_agree a x b y); simpl; try lia.
  specialize (IH f1 t2 f2). lia.
Qed.

Lemma classify_path_self (p : MatchFragment) (to_ : nat) (ms : option Z) :
  frag_wf p ->
  classify_path (new_edge to_ p ms) p = (EQUAL, frag_len p).
Proof.
  intros W. unfold classify_path, longest_common_prefix, new_edge; simpl.
  rewrite lcp_refl by exact W. unfold frag_len.
  now rewrite Nat.eqb_refl.
Qed.

Section Verification.

Variable Payload : Type.
Implicit Types (g : Graph Payload).

(* ================================================================== *)
(** ** Insertion *)
(* ================================================================== *)


(** C10: for an empty fragment, [insert] falls through its loop: it
    returns [None] (neither [True] nor [False]), the payload is dropped,
    no node, edge or payload entry is created, and the graph differs from
    the one before only in its [finalized] flag, which is false. *)
Theorem insert_empty_fragment g p (payload : object Payload) :
  frag_len p = 0%nat ->
  insert g p payload = Ok (set_finalized g false, None).
Proof.
  intros H. unfold insert. rewrite H. unfold insert_loop.
  rewrite H. reflexivity.
Qed.

(** The first byte of a literal start goes to a bin whenever the bin
    count is not zero. *)
Lemma to_bin_Ok g (b : Z) :
  bin_count g <> 0 -> _to_bin g b = Ok (b mod bin_count g).
Proof.
  intros H. unfold _to_bin, mod_.
  destruct (bin_count g =? 0) eqn:E; auto.
  apply Z.eqb_eq in E. contradiction.
Qed.



(* ================================================================== *)
(** ** Edge objects in their lists *)
(* ================================================================== *)


Lemma get_bucket_lt g node b es :
  length (adjacency g) = length (fuzzy_starts g) ->
  get_bucket g node b = Ok es -> (node < length (adjacency g))%nat.
Proof.
  intros HL H. destruct b; simpl in H.
  - apply nth_item_lt in H. lia.
  - inv_bind H. apply nth_item_lt in Ha. exact Ha.
Qed.

Lemma get_set_bucket_same g node b es es0 :
  get_bucket g node b = Ok es0 ->
  get_bucket (set_bucket g node b es) node b = Ok es.
Proof.
  intros H. destruct b; simpl in *.
  - apply nth_item_lt in H. unfold nth_item.
    now rewrite nth_error_set_nth_eq.
  - inv_bind H. pose proof (nth_item_lt _ _ _ Ha) as L.
    apply nth_item_Ok in Ha. rewrite Ha. simpl.
    unfold nth_item. rewrite nth_error_set_nth_eq by exact L. simpl.
    now rewrite (dd_find_set_eq Z.eqb Z_eqb_eq).
Qed.

Lemma get_set_bucket_other_node g node b es node' b' :
  node' <> node ->
  get_bucket (set_bucket g node b es) node' b' = get_bucket g node' b'.
Proof.
  intros N. destruct b, b'; simpl;
    try (destruct (nth_error (adjacency g) node); simpl);
    unfold nth_item; rewrite ?nth_error_set_nth_neq by congruence;
    reflexivity.
Qed.

(** The places of the other nodes are as before when a node is added and
    then given an edge. *)
Lemma get_bucket_new_node g d node b :
  length (adjacency g) = length (fuzzy_starts g) ->
  (node < length (adjacency g))%nat ->
  get_bucket (_new_node g d) node b = get_bucket g node b.
Proof.
  intros HL L. destruct b; simpl; unfold nth_item;
    rewrite nth_error_app_old by lia; reflexivity.
Qed.

Lemma add_edge_other_node g from_ to_ p ms g' node b :
  _add_edge g from_ to_ p ms = Ok g' ->
  node <> from_ ->
  get_bucket g' node b = get_bucket g node b.
Proof.
  unfold _add_edge. intros H N.
  inv_bind H. destruct a.
  - inv_bind H. inversion H; subst g'; clear H.
    destruct b; simpl; unfold nth_item;
      rewrite ?nth_error_set_nth_neq by congruence; reflexivity.
  - inv_bind H. inv_bind H. inv_bind H. inversion H; subst g'; clear H.
    destruct b; simpl; unfold nth_item;
      rewrite ?nth_error_set_nth_neq by congruence; reflexivity.
Qed.

Lemma add_edge_nodes g from_ to_ p ms g' :
  _add_edge g from_ to_ p ms = Ok g' ->
  nodes g' = nodes g /\ data g' = data g /\ bin_count g' = bin_count g /\
  length (adjacency g') = length (adjacency g) /\
  length (fuzzy_starts g') = length (fuzzy_starts g).
Proof.
  unfold _add_edge. intros H.
  inv_bind H. destruct a.
  - inv_bind H. inversion H; subst g'; simpl.
    rewrite set_nth_length. auto.
  - inv_bind H. inv_bind H. inv_bind H. inversion H; subst g'; simpl.
    rewrite set_nth_length. auto.
Qed.

(** The first edge added to a node without edges is alone in its list. *)
Lemma add_edge_to_empty_node g from_ to_ p ms g' :
  _add_edge g from_ to_ p ms = Ok g' ->
  nth_error (adjacency g) from_ = Some [] ->
  nth_error (fuzzy_starts g) from_ = Some [] ->
  exists b, get_bucket g' from_ b = Ok [new_edge to_ p ms].
Proof.
  unfold _add_edge. intros H HA HF.
  assert (LA : (from_ < length (adjacency g))%nat)
    by (apply nth_error_Some; congruence).
  assert (LF : (from_ < length (fuzzy_starts g))%nat)
    by (apply nth_error_Some; congruence).
  inv_bind H. destruct a.
  - inv_bind H. apply nth_item_Ok in Ha0. rewrite HF in Ha0.
    inversion Ha0; subst a. inversion H; subst g'; clear H.
    exists Fuzzy. simpl. unfold nth_item.
    now rewrite nth_error_set_nth_eq.
  - inv_bind H. inv_bind H. inv_bind H. apply nth_item_Ok in Ha2.
    rewrite HA in Ha2. inversion Ha2; subst a1.
    inversion H; subst g'; clear H.
    exists (Bin a0). simpl. unfold nth_item.
    rewrite nth_error_set_nth_eq by exact LA.
    unfold dd_append, dd_get. simpl.
    rewrite Z.eqb_refl. simpl. rewrite Z.eqb_refl. reflexivity.
Qed.


(* ================================================================== *)
(** ** Splitting an edge *)
(* ================================================================== *)


(** C1, as the code has it: when the edge object stored at [l] is split
    at [at_], the prefix edge (the same object, still at [l]) has length
    [at_] and leads to the new node; the tail edge, the only edge of the
    new node, leads to the old end node with the suffix and carries the
    match size the edge had before the split, unreduced. *)
Theorem split_edge_match_sizes g (l : loc) (edge : Edge) (at_ : nat) g' :
  length (adjacency g) = nodes g ->
  length (fuzzy_starts g) = nodes g ->
  get_edge g l = Ok edge ->
  _split_edge g l edge at_ = Ok g' ->
  exists prefix tail b,
    get_edge g' l = Ok prefix /\
    get_bucket g' (nodes g) b = Ok [tail] /\
    len prefix = at_ /\
    to prefix = nodes g /\
    path prefix = fst (split_at (path edge) at_) /\
    to tail = to edge /\
    path tail = snd (split_at (path edge) at_) /\
    match_size tail = match_size edge.
Proof.
  intros HA HF HE HS.
  destruct l as [[node b] i].
  unfold get_edge in HE. inv_bind HE. rename a into es.
  assert (LN : (node < nodes g)%nat).
  { rewrite <- HA. eapply get_bucket_lt; eauto. congruence. }
  unfold _split_edge in HS. simpl split_at in HS. cbv iota beta in HS.
  inv_bind HS. rename a into g2. rename Ha0 into HADD.
  inversion HS; subst g'; clear HS.
  replace (nodes (_new_node g None) - 1)%nat with (nodes g) in HADD
    by (simpl; lia).
  destruct (add_edge_nodes _ _ _ _ _ _ HADD) as (N2 & _ & _ & LA2 & LF2).
  simpl in N2, LA2, LF2. rewrite N2.
  replace (S (nodes g) - 1)%nat with (nodes g) by lia.
  assert (HB2 : get_bucket g2 node b = Ok es).
  { rewrite (add_edge_other_node _ _ _ _ _ _ node b HADD) by lia.
    rewrite get_bucket_new_node by (try congruence; lia). exact Ha. }
  destruct (add_edge_to_empty_node _ _ _ _ _ _ HADD) as (b' & HT).
  { simpl. rewrite <- HA. apply nth_error_app_last. }
  { simpl. rewrite <- HF. apply nth_error_app_last. }
  eexists. eexists. exists b'.
  split.
  { unfold set_edge, get_edge. rewrite HB2.
    erewrite get_set_bucket_same by exact HB2. simpl.
    unfold nth_item. rewrite nth_error_set_nth_eq by
        (eapply nth_item_lt; eassumption).
    reflexivity. }
  split.
  { unfold set_edge. rewrite HB2.
    rewrite get_set_bucket_other_node by lia. exact HT. }
  simpl. repeat split; reflexivity.
Qed.


(* ================================================================== *)
(** ** One pass of the exploration loop *)
(* ================================================================== *)


Lemma dd_get_value {K V : Type} (eqb : K -> K -> bool) (d : ddict K V) (k : K) :
  fst (dd_get eqb d k)
  = match dd_find eqb d k with Some v => v | None => [] end.
Proof.
  unfold dd_get. destruct (dd_find eqb d k); reflexivity.
Qed.

(** What [extend_path] does when there is a next byte. *)
Lemma extend_path_in_range g target p edge rest intermediate dd fs byte_ :
  getitem target (p + Z.of_nat (len edge)) = Ok byte_ ->
  nth_error (adjacency g) (to edge) = Some dd ->
  nth_error (fuzzy_starts g) (to edge) = Some fs ->
  bin_count g <> 0 ->
  exists g',
    extend_path g target p edge rest intermediate
    = Ok (g', StepContinue
                (push (p + Z.of_nat (len edge))
                      (bin_edges dd (byte_ mod bin_count g) ++ fs) rest)
                intermediate).
Proof.
  intros HB HA HF Hbc. unfold extend_path. rewrite HB.
  rewrite to_bin_Ok by exact Hbc. simpl.
  unfold nth_item at 1. rewrite HA. simpl.
  pose proof (dd_get_value Z.eqb dd (byte_ mod bin_count g)) as HV.
  destruct (dd_get Z.eqb dd (byte_ mod bin_count g)) as [es dd'].
  simpl in HV. subst es.
  unfold nth_item. simpl. rewrite HF. simpl.
  eexists. reflexivity.
Qed.

(** A pass at an edge that matched, whose end node has edges, with a
    next byte in range. *)
Lemma explore_step_inner_node
      g target offset p edge rest intermediate dd fs byte_ :
  matches edge (slice target p (p + Z.of_nat (len edge))) = true ->
  getitem target (p + Z.of_nat (len edge)) = Ok byte_ ->
  nth_error (adjacency g) (to edge) = Some dd ->
  nth_error (fuzzy_starts g) (to edge) = Some fs ->
  (dd_truthy dd || nonempty fs) = true ->
  bin_count g <> 0 ->
  exists g',
    explore_step g target offset p edge rest intermediate
    = Ok (g',
          if rejected g dd fs edge intermediate
          then StepContinue rest intermediate
          else StepContinue
                 (push (p + Z.of_nat (len edge))
                       (bin_edges dd (byte_ mod bin_count g) ++ fs) rest)
                 (recorded g p edge intermediate)).
Proof.
  intros HM HB HA HF HE Hbc.
  unfold explore_step. rewrite HM.
  pose proof (dd_get_value Nat.eqb (data g) (to edge)) as HV.
  destruct (dd_get Nat.eqb (data g) (to edge)) as [d data'].
  simpl in HV. fold (payloads g (to edge)) in HV. subst d.
  unfold rejected, recorded. rewrite HE.
  destruct (nonempty (payloads g (to edge))) eqn:HD; simpl.
  - unfold nth_item at 1. simpl. rewrite HA. simpl.
    assert (HH : (if dd_truthy dd then Ok true
                  else fs0 <- nth_item (fuzzy_starts g) (to edge) ;;
                       Ok (nonempty fs0)) = Ok true).
    { destruct (dd_truthy dd); auto. unfold nth_item. rewrite HF. simpl.
      simpl in HE. now rewrite HE. }
    rewrite HH. simpl.
    destruct intermediate as [[[d0 old_size] e0]|].
    + destruct (match_size edge <=? old_size).
      * eexists. reflexivity.
      * apply (extend_path_in_range (set_data g data')); auto.
    + apply (extend_path_in_range (set_data g data')); auto.
  - apply (extend_path_in_range (set_data g data')); auto.
Qed.

(** C3, as the code has it: after an edge's fragment matched and with a
    next byte in range, the successors of its end node for that byte (the
    bin of the byte, then the fuzzy-start edges) are pushed when the end
    node was not rejected, that is when it has no payload or was recorded
    as the intermediate match; when it was rejected for a match size not
    greater than the recorded one, the pass ends with [continue] and the
    stack and the intermediate match stay as they were. *)
Theorem explore_step_pushes_unless_rejected
        g target offset p edge rest intermediate dd fs byte_ :
  matches edge (slice target p (p + Z.of_nat (len edge))) = true ->
  getitem target (p + Z.of_nat (len edge)) = Ok byte_ ->
  nth_error (adjacency g) (to edge) = Some dd ->
  nth_error (fuzzy_starts g) (to edge) = Some fs ->
  (dd_truthy dd || nonempty fs) = true ->
  bin_count g <> 0 ->
  exists g',
    explore_step g target offset p edge rest intermediate
    = Ok (g',
          if rejected g dd fs edge intermediate
          then StepContinue rest intermediate
          else StepContinue
                 (push (p + Z.of_nat (len edge))
                       (bin_edges dd (byte_ mod bin_count g) ++ fs) rest)
                 (recorded g p edge intermediate)).
Proof.
  apply explore_step_inner_node.
Qed.

(** A pass at an edge that matched and ends in a leaf with payloads: the
    match is yielded and the exploration left. *)
Lemma explore_step_leaf g target offset p edge rest
      (intermediate : option (MatchRes Payload)) :
  matches edge (slice target p (p + Z.of_nat (len edge))) = true ->
  nonempty (payloads g (to edge)) = true ->
  nth_error (adjacency g) (to edge) = Some [] ->
  nth_error (fuzzy_starts g) (to edge) = Some [] ->
  exists g',
    explore_step g target offset p edge rest intermediate
    = Ok (g', StepBreak (payloads g (to edge), match_size edge,
                         p + Z.of_nat (len edge) + offset)
                        (p + Z.of_nat (len edge))).
Proof.
  intros HM HP HA HF. unfold explore_step. rewrite HM.
  pose proof (dd_get_value Nat.eqb (data g) (to edge)) as HV.
  destruct (dd_get Nat.eqb (data g) (to edge)) as [d data'].
  simpl in HV. fold (payloads g (to edge)) in HV. subst d.
  rewrite HP. unfold nth_item. simpl. rewrite HA. simpl. rewrite HF. simpl.
  eexists. reflexivity.
Qed.


(* ================================================================== *)
(** ** The cursor stays aligned *)
(* ================================================================== *)


Lemma realigned (a m : Z) : m <> 0 -> (a + (- a) mod m) mod m = 0.
Proof.
  intros H. rewrite Z.add_mod_idemp_r by exact H.
  replace (a + - a) with 0 by lia. apply Z.mod_0_l. exact H.
Qed.

(** After any pass of the scan loop the cursor is aligned relative to the
    base offset. *)
Lemma attempt_realigns inner g target offset align pos g' ys pos' :
  attempt inner g target offset align pos = Ok (g', ys, pos') ->
  (pos' + offset) mod align = 0.
Proof.
  unfold attempt. intros H.
  inv_bind H. inv_bind H. inv_bind H.
  destruct (dd_get Z.eqb a1 a0) as [es dd'].
  inv_bind H. inv_bind H. destruct a3 as [g2 r].
  set (yp := match r with
             | Broke res pos'0 => ([res], pos'0)
             | Exhausted (Some (d, ms, p)) => ([(d, ms, p + offset)], p)
             | Exhausted None => ([], pos + 1)
             end) in *.
  destruct yp as [ys0 pos1].
  inv_bind H. inversion H; subst; clear H.
  unfold mod_ in Ha4. destruct (align =? 0) eqn:E; [discriminate|].
  apply Z.eqb_neq in E. inversion Ha4; subst a3.
  replace (pos1 + (- pos1 - offset) mod align + offset)
    with ((pos1 + offset) + (- (pos1 + offset)) mod align).
  - apply realigned. exact E.
  - replace (- (pos1 + offset)) with (- pos1 - offset) by lia. lia.
Qed.

Lemma cursor_stays_aligned inner target offset align g pos g' pos' :
  cursor_reaches inner target offset align g pos g' pos' ->
  (pos + offset) mod align = 0 ->
  (pos' + offset) mod align = 0.
Proof.
  induction 1 as [|g pos g1 ys pos1 g2 pos2 HL HA HR IH]; intros H0.
  - exact H0.
  - apply IH. eapply attempt_realigns. exact HA.
Qed.


(** The scan loop is the sequence of attempts [cursor_reaches] follows,
    up to the first cursor at or past the end of the target. *)
Lemma match_loop_reaches inner fuel g target offset align pos g' ys :
  match_loop inner fuel g target offset align pos = Ok (g', ys) ->
  exists pos',
    cursor_reaches inner target offset align g pos g' pos' /\
    Z.of_nat (length target) <= pos'.
Proof.
  revert g pos g' ys.
  induction fuel as [|fuel IH]; intros g pos g' ys H; simpl in H.
  - discriminate.
  - destruct (pos <? Z.of_nat (length target)) eqn:E.
    + inv_bind H. destruct a as [[g1 ys1] pos1].
      inv_bind H. destruct a as [g2 zs]. inversion H; subst; clear H.
      destruct (IH _ _ _ _ Ha0) as (pos' & HR & HE).
      exists pos'. split; auto.
      eapply reaches_next; eauto. apply Z.ltb_lt. exact E.
    + inversion H; subst; clear H. exists pos. split.
      * apply reaches_here.
      * apply Z.ltb_ge. exact E.
Qed.


(* ================================================================== *)
(** ** What a scan leaves of the graph *)
(* ================================================================== *)


Lemma dd_grown_refl {K V : Type} (d : ddict K V) : dd_grown d d.
Proof. exists []. simpl. now rewrite app_nil_r. Qed.

Lemma dd_grown_trans {K V : Type} (d1 d2 d3 : ddict K V) :
  dd_grown d1 d2 -> dd_grown d2 d3 -> dd_grown d1 d3.
Proof.
  intros [k1 H1] [k2 H2]. exists (k1 ++ k2).
  subst. now rewrite map_app, app_assoc.
Qed.

Lemma dd_get_grown {K V : Type} (eqb : K -> K -> bool) (d : ddict K V) (k : K) :
  dd_grown d (snd (dd_get eqb d k)).
Proof.
  unfold dd_get. destruct (dd_find eqb d k); simpl.
  - apply dd_grown_refl.
  - exists [k]. reflexivity.
Qed.

Lemma Forall2_grown_refl {K V : Type} (l : list (ddict K V)) :
  Forall2 dd_grown l l.
Proof.
  induction l; constructor; auto using dd_grown_refl.
Qed.

Lemma Forall2_grown_trans {K V : Type} (l1 l2 l3 : list (ddict K V)) :
  Forall2 dd_grown l1 l2 -> Forall2 dd_grown l2 l3 -> Forall2 dd_grown l1 l3.
Proof.
  intros H. revert l3. induction H; intros l3 H3; inversion H3; subst;
    constructor; eauto using dd_grown_trans.
Qed.

Lemma Forall2_grown_set_nth {K V : Type} (l : list (ddict K V)) i d d' :
  nth_error l i = Some d -> dd_grown d d' ->
  Forall2 dd_grown l (set_nth l i d').
Proof.
  revert i. induction l as [|x l IH]; intros [|i] H G; simpl in *;
    try discriminate.
  - inversion H; subst. constructor; auto using Forall2_grown_refl.
  - constructor; auto using dd_grown_refl.
Qed.

Lemma only_reads_refl g : only_reads g g.
Proof.
  unfold only_reads.
  repeat split; auto using dd_grown_refl, Forall2_grown_refl.
Qed.

Lemma only_reads_trans g1 g2 g3 :
  only_reads g1 g2 -> only_reads g2 g3 -> only_reads g1 g3.
Proof.
  unfold only_reads.
  intros (A1 & A2 & A3 & A4 & A5 & A6 & A7) (B1 & B2 & B3 & B4 & B5 & B6 & B7).
  repeat split; try congruence;
    eauto using dd_grown_trans, Forall2_grown_trans.
Qed.

(** Reading a bin of a node. *)
Lemma only_reads_bin g node dd k :
  nth_error (adjacency g) node = Some dd ->
  only_reads g
    (set_adjacency g (set_nth (adjacency g) node (snd (dd_get Z.eqb dd k)))).
Proof.
  intros H. unfold only_reads. simpl.
  repeat split; auto using dd_grown_refl.
  apply Forall2_grown_set_nth with (d := dd); auto using dd_get_grown.
Qed.

(** Reading the payloads of a node. *)
Lemma only_reads_data g node :
  only_reads g (set_data g (snd (dd_get Nat.eqb (data g) node))).
Proof.
  unfold only_reads. simpl.
  repeat split; auto using dd_get_grown, Forall2_grown_refl.
Qed.

Lemma reads_trans g1 g2 g3 : reads g1 g2 -> reads g2 g3 -> reads g1 g3.
Proof.
  induction 1; intros H3; auto.
  - eapply reads_payloads. eauto.
  - eapply reads_bin; eauto.
Qed.

Lemma reads_only_reads g g' : reads g g' -> only_reads g g'.
Proof.
  induction 1.
  - apply only_reads_refl.
  - eapply only_reads_trans; [apply only_reads_data|eassumption].
  - eapply only_reads_trans; [eapply only_reads_bin; eauto|eassumption].
Qed.

(** A read of a missing key does not change what any key gives. *)
Lemma dd_find_vivify {K V : Type} (eqb : K -> K -> bool) (d : ddict K V)
      (k k' : K) :
  match dd_find eqb (snd (dd_get eqb d k)) k' with Some v => v | None => [] end
  = match dd_find eqb d k' with Some v => v | None => [] end.
Proof.
  unfold dd_get. destruct (dd_find eqb d k) eqn:E; simpl; auto.
  induction d as [|[k0 v0] d IH]; simpl in *.
  - destruct (eqb k' k); reflexivity.
  - destruct (eqb k k0) eqn:E0; [discriminate|].
    destruct (eqb k' k0); auto.
Qed.

Lemma payloads_vivify g n n' :
  payloads (set_data g (snd (dd_get Nat.eqb (data g) n))) n' = payloads g n'.
Proof.
  unfold payloads. simpl. apply dd_find_vivify.
Qed.

Lemma extend_path_reads g target p edge rest intermediate g' r :
  may_read_bins g (to edge) ->
  extend_path g target p edge rest intermediate = Ok (g', r) ->
  reads g g'.
Proof.
  unfold extend_path. intros HM H.
  destruct (getitem target (p + Z.of_nat (len edge))) as [byte_|[]|];
    try discriminate.
  - inv_bind H. inv_bind H. apply nth_item_Ok in Ha0.
    pose proof (@reads_bin Payload g (to edge) a0 a _ Ha0 HM (reads_none _)) as HR.
    destruct (dd_get Z.eqb a0 a) as [es dd']. simpl in HR.
    inv_bind H. inversion H; subst. exact HR.
  - inversion H; subst. apply reads_none.
Qed.

Lemma explore_step_reads g target offset p edge rest intermediate g' r :
  explore_step g target offset p edge rest intermediate = Ok (g', r) ->
  reads g g'.
Proof.
  unfold explore_step. intros H.
  destruct (matches edge _).
  - pose proof (@reads_payloads Payload g (to edge) _ (reads_none _)) as HD.
    pose proof (payloads_vivify g (to edge)) as HP.
    pose proof (dd_get_value Nat.eqb (data g) (to edge)) as HV.
    fold (payloads g (to edge)) in HV.
    destruct (dd_get Nat.eqb (data g) (to edge)) as [d data'].
    simpl in HD, HP, HV. subst d.
    destruct (nonempty (payloads g (to edge))) eqn:EN.
    + inv_bind H. rename a into dd. inv_bind H. rename a into has_edges.
      apply nth_item_Ok in Ha.
      destruct has_edges; simpl in H.
      * assert (HM : may_read_bins (set_data g data') (to edge)).
        { right; right. exists dd. split; [exact Ha|].
          destruct (dd_truthy dd) eqn:ET; [left; reflexivity|].
          right. inv_bind Ha0. inversion Ha0 as [EN0].
          apply nth_item_Ok in Ha1. exists a. auto. }
        destruct intermediate as [[[d0 old_size] e0]|].
        -- destruct (match_size edge <=? old_size).
           ++ inversion H; subst. exact HD.
           ++ eapply reads_trans; [exact HD|].
              eapply extend_path_reads; eauto.
        -- eapply reads_trans; [exact HD|].
           eapply extend_path_reads; eauto.
      * inversion H; subst. exact HD.
    + eapply reads_trans; [exact HD|].
      eapply extend_path_reads; [|eauto].
      right; left. rewrite HP. exact EN.
  - inversion H; subst. apply reads_none.
Qed.

Lemma explore_reads fuel g target offset stack intermediate g' r :
  explore fuel g target offset stack intermediate = Ok (g', r) ->
  reads g g'.
Proof.
  revert g stack intermediate.
  induction fuel as [|fuel IH]; intros g stack intermediate H; simpl in H.
  - discriminate.
  - destruct stack as [|[p edge] rest].
    + inversion H; subst. apply reads_none.
    + inv_bind H. destruct a as [g1 s1].
      apply explore_step_reads in Ha.
      destruct s1.
      * inversion H; subst. exact Ha.
      * eapply reads_trans; [exact Ha|]. eapply IH; eauto.
Qed.

Lemma attempt_reads inner g target offset align pos g' ys pos' :
  attempt inner g target offset align pos = Ok (g', ys, pos') ->
  reads g g'.
Proof.
  unfold attempt. intros H.
  inv_bind H. inv_bind H. inv_bind H. apply nth_item_Ok in Ha1.
  pose proof (@reads_bin Payload g 0%nat a1 a0 _ Ha1 (or_introl eq_refl)
                         (reads_none _)) as HR.
  destruct (dd_get Z.eqb a1 a0) as [es dd']. simpl in HR.
  inv_bind H. inv_bind H. destruct a3 as [g2 r].
  apply explore_reads in Ha3.
  destruct (match r with
            | Broke res pos'0 => ([res], pos'0)
            | Exhausted (Some (d, ms, p)) => ([(d, ms, p + offset)], p)
            | Exhausted None => ([], pos + 1)
            end) as [ys0 pos1].
  inv_bind H. inversion H; subst.
  eapply reads_trans; eauto.
Qed.

Lemma match_loop_reads inner fuel g target offset align pos g' ys :
  match_loop inner fuel g target offset align pos = Ok (g', ys) ->
  reads g g'.
Proof.
  revert g pos ys.
  induction fuel as [|fuel IH]; intros g pos ys H; simpl in H.
  - discriminate.
  - destruct (pos <? Z.of_nat (length target)).
    + inv_bind H. destruct a as [[g1 ys1] pos1].
      inv_bind H. destruct a as [g2 zs]. inversion H; subst.
      eapply reads_trans.
      * eapply attempt_reads; eauto.
      * eapply IH; eauto.
    + inversion H; subst. apply reads_none.
Qed.

Lemma cursor_reaches_reads inner target offset align g pos g' pos' :
  cursor_reaches inner target offset align g pos g' pos' -> reads g g'.
Proof.
  induction 1.
  - apply reads_none.
  - eapply reads_trans; [eapply attempt_reads; eauto|assumption].
Qed.

(** C4, as the code has it: a scan of a finalized graph leaves the node
    count, the fuzzy-start lists, [longest_path], the bin count and the
    flag as they were, and every entry of the bin dictionaries and of the
    payload dictionary in place; the dictionaries may only gain entries
    that hold an empty list, under the keys the scan read and did not
    find. *)
Theorem scan_only_reads fuel g target offset align g' ys :
  finalized g = true ->
  match_ fuel g target offset align = Ok (g', ys) ->
  only_reads g g'.
Proof.
  intros HF H. unfold match_, finalize in H. rewrite HF in H. simpl in H.
  apply reads_only_reads. eapply match_loop_reads; eauto.
Qed.


(* ================================================================== *)
(** ** The parallel driver *)
(* ================================================================== *)


Section DriverFacts.

Implicit Types (q : list (option (MatchRes Payload)))
         (ws : list (wstate Payload)) (s : sys Payload).

Lemma sentinels_app q1 q2 :
  sentinels (q1 ++ q2) = (sentinels q1 + sentinels q2)%nat.
Proof.
  unfold sentinels. now rewrite filter_app, length_app.
Qed.

Lemma sentinels_matches (zs : list (MatchRes Payload)) :
  sentinels (map Some zs) = 0%nat.
Proof.
  induction zs; simpl; auto.
Qed.

Lemma sentinels_nil : sentinels (@nil (option (MatchRes Payload))) = 0%nat.
Proof. reflexivity. Qed.

Lemma sentinels_cons_some (m : MatchRes Payload) q :
  sentinels (Some m :: q) = sentinels q.
Proof. reflexivity. Qed.

Lemma sentinels_cons_none q :
  sentinels (None :: q) = S (sentinels q).
Proof. reflexivity. Qed.

(** One scan puts exactly one sentinel. *)
Lemma sentinels_queue_items (ys : list (MatchRes Payload)) :
  sentinels (queue_items ys) = 1%nat.
Proof.
  unfold queue_items. rewrite sentinels_app, sentinels_matches. reflexivity.
Qed.

Lemma yield_matches_items fuel (g : Graph Payload) binary j g' items :
  yield_matches_to_queue fuel g binary j = Ok (g', items) ->
  exists ys, items = queue_items ys.
Proof.
  unfold yield_matches_to_queue. destruct j as [[a b] al]. intros H.
  inv_bind H. destruct a0 as [g1 ys]. inversion H; subst. eauto.
Qed.

Lemma sum_set_nth (f : wstate Payload -> nat) ws i old x :
  nth_error ws i = Some old ->
  (sum_nat (map f (set_nth ws i x)) + f old
   = sum_nat (map f ws) + f x)%nat.
Proof.
  revert i. induction ws as [|y ws IH]; intros [|i] H; simpl in *;
    try discriminate.
  - inversion H; subst. lia.
  - specialize (IH i H). lia.
Qed.

Lemma sum_ge_nth (f : wstate Payload -> nat) ws i old :
  nth_error ws i = Some old -> (f old <= sum_nat (map f ws))%nat.
Proof.
  revert i. induction ws as [|y ws IH]; intros [|i] H; simpl in *;
    try discriminate.
  - inversion H; subst. lia.
  - specialize (IH i H). lia.
Qed.

Lemma Forall_set_nth {T : Type} (P : T -> Prop) (l : list T) i x :
  Forall P l -> P x -> Forall P (set_nth l i x).
Proof.
  intros H. revert i. induction H; intros [|i] Hx; simpl; auto.
Qed.

Lemma Forall_nth_error {T : Type} (P : T -> Prop) (l : list T) i x :
  Forall P l -> nth_error l i = Some x -> P x.
Proof.
  intros H E. rewrite Forall_forall in H. apply H.
  eapply nth_error_In; eauto.
Qed.

Lemma driver_inv_start (g : Graph Payload) slices align workers :
  driver_inv (length slices) (start g slices align workers).
Proof.
  unfold driver_inv, accounted, start, all_in_flight, all_lost; simpl.
  rewrite length_map.
  assert (Z0 : forall f : wstate Payload -> nat,
             f (Polling g) = 0%nat ->
             sum_nat (map f (repeat (Polling g) workers)) = 0%nat).
  { intros f Hf. induction workers; simpl; auto. rewrite Hf, IHworkers.
    reflexivity. }
  rewrite !Z0 by reflexivity.
  split; [lia|]. split.
  - apply Forall_forall. intros x Hx. apply repeat_spec in Hx. subst.
    exact I.
  - intros _. left. reflexivity.
Qed.

Lemma driver_inv_step fuel binary work s s' :
  driver_inv work s -> step fuel binary s s' -> driver_inv work s'.
Proof.
  unfold driver_inv, accounted, all_in_flight, all_lost.
  intros (HC & HP & HL) HS.
  destruct HS as [s i g j js g' items Hi Hj Hy
                 | s i g j js e Hi Hj Hy
                 | s i g x xs Hi
                 | s i g Hi
                 | s i g Hi Hj]; simpl.
  - (* a worker takes a slice and scans it *)
    destruct (yield_matches_items _ _ _ _ _ _ Hy) as (ys & ->).
    pose proof (sum_set_nth (@in_flight Payload) _ _ _
                  (Putting g' (queue_items ys)) Hi) as E1.
    pose proof (sum_set_nth (@lost Payload) _ _ _
                  (Putting g' (queue_items ys)) Hi) as E2.
    simpl in E1, E2. rewrite sentinels_queue_items in E1.
    rewrite Hj in HC. simpl in HC.
    split; [lia|]. split.
    + apply Forall_set_nth; auto. simpl. right. exists ys. reflexivity.
    + intros E. exfalso. lia.
  - (* a worker takes a slice and the scan raises *)
    pose proof (sum_set_nth (@in_flight Payload) _ _ _ (Crashed Payload e) Hi) as E1.
    pose proof (sum_set_nth (@lost Payload) _ _ _ (Crashed Payload e) Hi) as E2.
    simpl in E1, E2. rewrite Hj in HC. simpl in HC.
    split; [lia|]. split.
    + apply Forall_set_nth; simpl; auto.
    + intros E. exfalso. lia.
  - (* a worker puts an item *)
    pose proof (sum_set_nth (@in_flight Payload) _ _ _ (Putting g xs) Hi)
      as E1.
    pose proof (sum_set_nth (@lost Payload) _ _ _ (Putting g xs) Hi) as E2.
    pose proof (Forall_nth_error _ _ _ _ HP Hi) as HK. simpl in HK.
    simpl in E1, E2. rewrite map_app, sentinels_app. simpl.
    destruct HK as [HK|(zs & HK)]; [discriminate|].
    destruct x as [m|].
    + (* a match: the sentinel of the scan is still to come *)
      assert (HX : exists zs', xs = map Some zs' ++ [None]).
      { destruct zs as [|z zs]; simpl in HK; [discriminate|].
        inversion HK. eauto. }
      destruct HX as (zs' & ->).
      rewrite sentinels_cons_some in E1.
      rewrite sentinels_cons_some, sentinels_nil.
      split; [lia|]. split.
      * apply Forall_set_nth; auto. simpl. right. eauto.
      * intros E. exfalso.
        pose proof (sum_ge_nth (@in_flight Payload) _ _ _ Hi) as G.
        simpl in G.
        rewrite sentinels_cons_some, sentinels_app, sentinels_matches in G.
        rewrite sentinels_cons_none, sentinels_nil in G. lia.
    + (* the sentinel: nothing is left of the scan *)
      assert (HX : xs = []).
      { destruct zs as [|z zs]; simpl in HK; [|discriminate].
        inversion HK. reflexivity. }
      subst xs.
      rewrite sentinels_cons_none, sentinels_nil in E1.
      rewrite sentinels_cons_none, sentinels_nil.
      split; [lia|]. split.
      * apply Forall_set_nth; auto. simpl. left. reflexivity.
      * intros _. right. eexists. reflexivity.
  - (* a worker goes back to the head of its loop *)
    pose proof (sum_set_nth (@in_flight Payload) _ _ _ (Polling g) Hi) as E1.
    pose proof (sum_set_nth (@lost Payload) _ _ _ (Polling g) Hi) as E2.
    simpl in E1, E2. rewrite sentinels_nil in E1.
    split; [lia|]. split.
    + apply Forall_set_nth; simpl; auto.
    + exact HL.
  - (* a worker finds the job queue empty *)
    pose proof (sum_set_nth (@in_flight Payload) _ _ _ (Exited Payload) Hi)
      as E1.
    pose proof (sum_set_nth (@lost Payload) _ _ _ (Exited Payload) Hi) as E2.
    simpl in E1, E2.
    split; [lia|]. split.
    + apply Forall_set_nth; simpl; auto.
    + exact HL.
Qed.

Lemma driver_inv_steps fuel binary work s s' :
  steps fuel binary s s' -> driver_inv work s -> driver_inv work s'.
Proof.
  induction 1; intros HI; auto.
  apply IHsteps. eapply driver_inv_step; eauto.
Qed.

(** The merge loop blocks while sentinels are missing. *)
Lemma merge_loop_waits work done q :
  (sentinels q + done < work)%nat ->
  exists ys, merge_loop work done q = Waiting ys.
Proof.
  revert done. induction q as [|[m|] q IH]; intros done H; simpl.
  - unfold sentinels in H. simpl in H.
    destruct (done <? work)%nat eqn:E; [eauto|].
    apply Nat.ltb_ge in E. lia.
  - change (sentinels (Some m :: q)) with (sentinels q) in H.
    destruct (done <? work)%nat eqn:E.
    + destruct (IH done H) as (ys & ->). simpl. eauto.
    + apply Nat.ltb_ge in E. lia.
  - change (sentinels (None :: q)) with (S (sentinels q)) in H.
    destruct (done <? work)%nat eqn:E.
    + apply IH. lia.
    + apply Nat.ltb_ge in E. lia.
Qed.

(** It ends with the last sentinel it waits for. *)
Lemma merge_loop_ends work done q :
  (sentinels q + done = work)%nat ->
  closed_by_sentinel q ->
  merge_loop work done q = Merged (somes q) [].
Proof.
  revert done. induction q as [|[m|] q IH]; intros done H HC; simpl.
  - unfold sentinels in H. simpl in H.
    replace (done <? work)%nat with false; auto.
    symmetry. apply Nat.ltb_ge. lia.
  - change (sentinels (Some m :: q)) with (sentinels q) in H.
    assert (HC' : closed_by_sentinel q).
    { destruct HC as [HC|(q0 & HC)]; [discriminate|].
      destruct q0 as [|x q0]; simpl in HC; inversion HC; subst.
      right. eauto. }
    assert (HS : (0 < sentinels q)%nat).
    { destruct HC' as [->|(q0 & ->)].
      - destruct HC as [HC|(q0 & HC)]; [discriminate|].
        destruct q0 as [|x [|y q0]]; simpl in HC; inversion HC.
      - rewrite sentinels_app. unfold sentinels at 2. simpl. lia. }
    replace (done <? work)%nat with true
      by (symmetry; apply Nat.ltb_lt; lia).
    rewrite (IH done H HC'). reflexivity.
  - change (sentinels (None :: q)) with (S (sentinels q)) in H.
    replace (done <? work)%nat with true
      by (symmetry; apply Nat.ltb_lt; lia).
    apply IH; [lia|].
    destruct HC as [HC|(q0 & HC)]; [discriminate|].
    destruct q0 as [|x q0]; simpl in HC; inversion HC; subst.
    + left. reflexivity.
    + right. eauto.
Qed.

(** C2, as the code has it: one sentinel is put per scanned slice, not
    per worker.  At every moment of a run each slice is accounted for by
    exactly one sentinel, already put, still to be put by the worker
    scanning the slice, to come from a slice waiting in the job queue, or
    lost with a worker that an exception ended; and the merge loop waits
    as long as fewer sentinels than slices have been put, and ends, with
    every match yielded and nothing left on the queue, exactly when it
    has received one sentinel per slice. *)
Theorem driver_counts_slices fuel binary (g : Graph Payload) slices align
        workers s :
  steps fuel binary (start g slices align workers) s ->
  (sentinels (map snd (ret_queue s)) + all_in_flight (procs s)
   + length (job_queue s) + all_lost (procs s) = length slices)%nat /\
  ((sentinels (map snd (ret_queue s)) < length slices)%nat ->
   exists ys,
     merge_loop (length slices) 0 (map snd (ret_queue s)) = Waiting ys) /\
  (sentinels (map snd (ret_queue s)) = length slices ->
   merge_loop (length slices) 0 (map snd (ret_queue s))
   = Merged (somes (map snd (ret_queue s))) []).
Proof.
  intros HS.
  destruct (driver_inv_steps _ _ _ _ _ HS (driver_inv_start g slices align workers))
    as (HC & HP & HL).
  split; [exact HC|]. split.
  - intros H. apply merge_loop_waits. lia.
  - intros H. apply merge_loop_ends; [lia|]. apply HL. exact H.
Qed.

End DriverFacts.

(* ================================================================== *)
(** ** More on dictionaries *)
(* ================================================================== *)

Section DictFacts2.
Context {K V : Type}.
Variable eqb : K -> K -> bool.
Hypothesis eqb_eq : forall a b, eqb a b = true <-> a = b.

Lemma eqb_neq_false (a b : K) : a <> b -> eqb a b = false.
Proof.
  intros N. destruct (eqb a b) eqn:E; auto. apply eqb_eq in E. contradiction.
Qed.

Lemma dd_find_none_notin (d : ddict K V) (k : K) :
  dd_find eqb d k = None <-> ~ In k (map fst d).
Proof.
  induction d as [|[k' v'] d IH]; simpl.
  - split; auto.
  - destruct (eqb k k') eqn:E.
    + apply eqb_eq in E. subst. split; [discriminate|]. intros H.
      exfalso. apply H. auto.
    + rewrite IH. split.
      * intros H [H1|H1]; auto. subst.
        rewrite (eqb_refl_true eqb eqb_eq) in E. discriminate.
      * intros H H1. apply H. auto.
Qed.

Lemma dd_find_some_in (d : ddict K V) (k : K) (v : list V) :
  dd_find eqb d k = Some v -> In (k, v) d.
Proof.
  induction d as [|[k' v'] d IH]; simpl; [discriminate|].
  destruct (eqb k k') eqn:E.
  - apply eqb_eq in E. subst. intros H. inversion H. auto.
  - auto.
Qed.

Lemma dd_find_in_nodup (d : ddict K V) (k : K) (v : list V) :
  NoDup (map fst d) -> In (k, v) d -> dd_find eqb d k = Some v.
Proof.
  induction d as [|[k' v'] d IH]; simpl; intros ND H; [contradiction|].
  inversion ND as [|x l NI ND']; subst.
  destruct H as [H|H].
  - inversion H; subst. now rewrite (eqb_refl_true eqb eqb_eq).
  - destruct (eqb k k') eqn:E.
    + apply eqb_eq in E. subst. exfalso. apply NI.
      apply (in_map fst) in H. exact H.
    + auto.
Qed.

Lemma dd_set_missing (d : ddict K V) (k : K) (v : list V) :
  dd_find eqb d k = None -> dd_set eqb d k v = d ++ [(k, v)].
Proof.
  induction d as [|[k' v'] d IH]; simpl; auto.
  destruct (eqb k k'); [discriminate|]. intros H. f_equal. auto.
Qed.

Lemma dd_set_same (d : ddict K V) (k : K) (v : list V) :
  dd_find eqb d k = Some v -> dd_set eqb d k v = d.
Proof.
  induction d as [|[k' v'] d IH]; simpl; [discriminate|].
  destruct (eqb k k') eqn:E.
  - intros H. inversion H. reflexivity.
  - intros H. f_equal. auto.
Qed.

Lemma dd_set_keys_found (d : ddict K V) (k : K) (v w : list V) :
  dd_find eqb d k = Some w -> map fst (dd_set eqb d k v) = map fst d.
Proof.
  induction d as [|[k' v'] d IH]; simpl; [discriminate|].
  destruct (eqb k k') eqn:E; simpl; auto.
  intros H. f_equal. auto.
Qed.

Lemma dd_set_nodup (d : ddict K V) (k : K) (v : list V) :
  NoDup (map fst d) -> NoDup (map fst (dd_set eqb d k v)).
Proof.
  intros ND. destruct (dd_find eqb d k) eqn:E.
  - now rewrite (dd_set_keys_found _ _ _ _ E).
  - rewrite dd_set_missing by exact E. rewrite map_app. simpl.
    apply NoDup_app; [exact ND| |].
    + constructor; auto. constructor.
    + intros x Hx [Hk|[]]. subst.
      apply dd_find_none_notin in E. contradiction.
Qed.

Lemma dd_get_as_set (d : ddict K V) (k : K) :
  snd (dd_get eqb d k)
  = dd_set eqb d k (match dd_find eqb d k with Some v => v | None => [] end).
Proof.
  unfold dd_get. destruct (dd_find eqb d k) eqn:E; simpl.
  - symmetry. apply dd_set_same. exact E.
  - symmetry. apply dd_set_missing. exact E.
Qed.

Lemma dd_append_as_set (d : ddict K V) (k : K) (x : V) :
  dd_append eqb d k x
  = dd_set eqb d k
      (match dd_find eqb d k with Some v => v | None => [] end ++ [x]).
Proof.
  unfold dd_append, dd_get. destruct (dd_find eqb d k) eqn:E.
  - reflexivity.
  - rewrite (dd_set_app_none eqb eqb_eq) by exact E.
    symmetry. apply dd_set_missing. exact E.
Qed.

Lemma dd_set_truthy (d : ddict K V) (k : K) (v : list V) :
  dd_truthy (dd_set eqb d k v) = true.
Proof.
  destruct d as [|[k' v'] d]; simpl; auto.
  destruct (eqb k k'); reflexivity.
Qed.

End DictFacts2.

(* ================================================================== *)
(** ** The edges of a graph under its mutations *)
(* ================================================================== *)


Lemma get_bucket_in_range g u b :
  in_range g u -> get_bucket g u b = Ok (edges_in g u b).
Proof.
  intros [HA HF]. unfold edges_in.
  destruct b; simpl; unfold nth_item.
  - destruct (nth_error (fuzzy_starts g) u) eqn:E; auto.
    apply nth_error_None in E. lia.
  - destruct (nth_error (adjacency g) u) eqn:E; auto.
    apply nth_error_None in E. lia.
Qed.

Lemma edges_in_out_of_range g u b :
  length (adjacency g) = length (fuzzy_starts g) ->
  (length (adjacency g) <= u)%nat -> edges_in g u b = [].
Proof.
  intros HL H. unfold edges_in. destruct b; simpl; unfold nth_item.
  - destruct (nth_error (fuzzy_starts g) u) eqn:E; auto.
    assert (u < length (fuzzy_starts g))%nat
      by (apply nth_error_Some; congruence). lia.
  - destruct (nth_error (adjacency g) u) eqn:E; auto.
    assert (u < length (adjacency g))%nat
      by (apply nth_error_Some; congruence). lia.
Qed.

Lemma edges_in_fuzzy g u fs :
  nth_error (fuzzy_starts g) u = Some fs -> edges_in g u Fuzzy = fs.
Proof.
  intros H. unfold edges_in. simpl. unfold nth_item. now rewrite H.
Qed.

Lemma edges_in_bin g u dd k :
  nth_error (adjacency g) u = Some dd -> edges_in g u (Bin k) = bin_edges dd k.
Proof.
  intros H. unfold edges_in. simpl. unfold nth_item. now rewrite H.
Qed.

Lemma edges_in_set_bucket_same g u b es :
  in_range g u -> edges_in (set_bucket g u b es) u b = es.
Proof.
  intros HR. unfold edges_in.
  erewrite get_set_bucket_same; eauto using get_bucket_in_range.
Qed.

Lemma edges_in_set_bucket_other g u b es u' b' :
  (u', b') <> (u, b) ->
  edges_in (set_bucket g u b es) u' b' = edges_in g u' b'.
Proof.
  intros N. unfold edges_in.
  destruct (Nat.eq_dec u' u) as [->|NU].
  - destruct b, b'; simpl; try congruence.
    + destruct (nth_error (adjacency g) u); reflexivity.
    + destruct (nth_error (adjacency g) u) eqn:E; simpl; auto.
      unfold nth_item.
      destruct (Nat.lt_ge_cases u (length (adjacency g))) as [L|L].
      * rewrite nth_error_set_nth_eq by exact L. rewrite E. simpl.
        rewrite (dd_find_set_neq Z.eqb Z_eqb_eq); auto. congruence.
      * apply nth_error_None in L. congruence.
  - now rewrite get_set_bucket_other_node.
Qed.

Lemma set_bucket_fields g u b es :
  nodes (set_bucket g u b es) = nodes g /\
  data (set_bucket g u b es) = data g /\
  bin_count (set_bucket g u b es) = bin_count g /\
  longest_path (set_bucket g u b es) = longest_path g /\
  finalized (set_bucket g u b es) = finalized g /\
  length (adjacency (set_bucket g u b es)) = length (adjacency g) /\
  length (fuzzy_starts (set_bucket g u b es)) = length (fuzzy_starts g).
Proof.
  destruct b; simpl.
  - rewrite set_nth_length. auto 10.
  - destruct (nth_error (adjacency g) u); simpl;
      rewrite ?set_nth_length; auto 10.
Qed.

Lemma set_bucket_in_range g u b es u' :
  in_range (set_bucket g u b es) u' <-> in_range g u'.
Proof.
  unfold in_range.
  destruct (set_bucket_fields g u b es) as (_ & _ & _ & _ & _ & -> & ->).
  reflexivity.
Qed.

Lemma set_bucket_nodup g u b es :
  (forall v dd, nth_error (adjacency g) v = Some dd -> NoDup (map fst dd)) ->
  forall v dd, nth_error (adjacency (set_bucket g u b es)) v = Some dd ->
               NoDup (map fst dd).
Proof.
  intros H v dd. destruct b; simpl; [apply H|].
  destruct (nth_error (adjacency g) u) eqn:E; simpl; [|apply H].
  destruct (Nat.eq_dec v u) as [->|N].
  - rewrite nth_error_set_nth_eq
      by (apply nth_error_Some; congruence).
    intros HH. inversion HH; subst.
    apply (dd_set_nodup Z.eqb Z_eqb_eq). eapply H; eauto.
  - rewrite nth_error_set_nth_neq by congruence. apply H.
Qed.

(** Reading a bin that may be missing is a write of what it holds. *)
Lemma vivify_as_set_bucket g u dd k :
  nth_error (adjacency g) u = Some dd ->
  set_adjacency g (set_nth (adjacency g) u (snd (dd_get Z.eqb dd k)))
  = set_bucket g u (Bin k) (edges_in g u (Bin k)).
Proof.
  intros H. simpl. rewrite H.
  rewrite (edges_in_bin _ _ _ _ H). unfold bin_edges.
  now rewrite dd_get_as_set.
Qed.

Lemma getitem_0 {T : Type} (l : list T) (x : T) :
  getitem l 0 = Ok x -> exists l', l = x :: l'.
Proof.
  unfold getitem. simpl. unfold nth_item.
  destruct l as [|y l]; simpl; [discriminate|].
  intros H. inversion H. eauto.
Qed.

Lemma to_bin_value g (t k : Z) :
  _to_bin g t = Ok k -> k = t mod bin_count g /\ bin_count g <> 0.
Proof.
  unfold _to_bin, mod_. destruct (bin_count g =? 0) eqn:E; [discriminate|].
  intros H. inversion H. split; auto. apply Z.eqb_neq. exact E.
Qed.

(** Adding an edge is a write of its list with the edge at the end. *)
Lemma add_edge_as_set_bucket g from_ to_ p ms g' :
  _add_edge g from_ to_ p ms = Ok g' ->
  g' = set_bucket g from_ (bucket_of g p)
                  (edges_in g from_ (bucket_of g p) ++ [new_edge to_ p ms]).
Proof.
  unfold _add_edge. intros H.
  inv_bind H. rename a into fz. rename Ha into HZ.
  apply getitem_0 in HZ. destruct HZ as (f' & HZ).
  destruct fz.
  - inv_bind H. inversion H; subst g'; clear H.
    assert (HB : bucket_of g p = Fuzzy).
    { unfold bucket_of. rewrite HZ. reflexivity. }
    rewrite HB. simpl. apply nth_item_Ok in Ha.
    now rewrite (edges_in_fuzzy _ _ _ Ha).
  - inv_bind H. inv_bind H. inv_bind H. inversion H; subst g'; clear H.
    apply getitem_0 in Ha. destruct Ha as (t' & HT).
    apply to_bin_value in Ha0. destruct Ha0 as (-> & _).
    assert (HB : bucket_of g p = Bin (a mod bin_count g)).
    { unfold bucket_of. rewrite HZ, HT. reflexivity. }
    rewrite HB. simpl. apply nth_item_Ok in Ha1. rewrite Ha1.
    rewrite (edges_in_bin _ _ _ _ Ha1). unfold bin_edges.
    now rewrite (dd_append_as_set Z.eqb Z_eqb_eq).
Qed.

Lemma add_edge_source g from_ to_ p ms g' :
  length (adjacency g) = length (fuzzy_starts g) ->
  _add_edge g from_ to_ p ms = Ok g' -> in_range g from_.
Proof.
  unfold _add_edge, in_range. intros HL H.
  inv_bind H. destruct a.
  - inv_bind H. apply nth_item_lt in Ha0. lia.
  - inv_bind H. inv_bind H. inv_bind H. apply nth_item_lt in Ha2. lia.
Qed.


(* ================================================================== *)
(** ** The invariant under the mutations of a graph *)
(* ================================================================== *)


Lemma edge_ok_more_nodes n m depth u e :
  (n <= m)%nat -> edge_ok n depth u e -> edge_ok m depth u e.
Proof.
  unfold edge_ok. intros L (H1 & H2). split; [lia|exact H2].
Qed.

Lemma wf_init bc : wf_with (fun _ => 0%nat) (Graph_init Payload bc).
Proof.
  unfold wf_with. simpl.
  split; [reflexivity|]. split; [reflexivity|]. split; [lia|]. split.
  - intros [|[|u]] dd H; simpl in H; inversion H; constructor.
  - intros [|[|u]] [|k] e H; simpl in H; contradiction.
Qed.

Lemma wf_in_range depth g u :
  wf_with depth g -> (u < nodes g)%nat -> in_range g u.
Proof.
  intros (H1 & H2 & _) L. unfold in_range. lia.
Qed.

Lemma wf_edge_source depth g u b e :
  wf_with depth g -> In e (edges_in g u b) -> (u < nodes g)%nat.
Proof.
  intros (H1 & H2 & _) HI.
  destruct (Nat.lt_ge_cases u (nodes g)) as [L|L]; auto.
  rewrite edges_in_out_of_range in HI by lia. contradiction.
Qed.

Lemma wf_with_same_lists depth g g' :
  adjacency g' = adjacency g ->
  fuzzy_starts g' = fuzzy_starts g ->
  nodes g' = nodes g ->
  wf_with depth g -> wf_with depth g'.
Proof.
  unfold wf_with, edges_in, get_bucket. intros -> -> ->. auto.
Qed.

Lemma wf_depth_ext depth depth' g :
  wf_with depth g ->
  (forall v, (v < nodes g)%nat -> depth' v = depth v) ->
  wf_with depth' g.
Proof.
  intros W E. pose proof W as (H1 & H2 & H3 & H4 & H5).
  unfold wf_with.
  split; [exact H1|]. split; [exact H2|]. split; [exact H3|].
  split; [exact H4|].
  intros u b e H.
  destruct (H5 u b e H) as (A1 & A2 & A3 & A4 & A5).
  unfold edge_ok. rewrite !E; auto. eapply wf_edge_source; eauto.
Qed.

Lemma wf_set_bucket depth g u b es :
  wf_with depth g ->
  (u < nodes g)%nat ->
  (forall e, In e es -> edge_ok (nodes g) depth u e) ->
  wf_with depth (set_bucket g u b es).
Proof.
  intros W L HE. pose proof W as (H1 & H2 & H3 & H4 & H5).
  destruct (set_bucket_fields g u b es) as (F1 & _ & _ & _ & _ & F6 & F7).
  unfold wf_with. rewrite F1, F6, F7.
  split; [exact H1|]. split; [exact H2|]. split; [exact H3|]. split.
  - apply set_bucket_nodup. exact H4.
  - intros u' b' e HI.
    assert (D : {(u', b') = (u, b)} + {(u', b') <> (u, b)}).
    { destruct (Nat.eq_dec u' u); [|right; congruence].
      destruct b as [|k], b' as [|k'];
        [left; congruence | right; congruence | right; congruence |].
      destruct (Z.eq_dec k' k); [left|right]; congruence. }
    destruct D as [D|D].
    + inversion D; subst.
      rewrite edges_in_set_bucket_same in HI
        by (eapply wf_in_range; eauto).
      auto.
    + rewrite edges_in_set_bucket_other in HI by exact D. eauto.
Qed.

(** A read of a bin leaves the invariant. *)
Lemma wf_vivify depth g u dd k :
  wf_with depth g ->
  nth_error (adjacency g) u = Some dd ->
  wf_with depth
    (set_adjacency g (set_nth (adjacency g) u (snd (dd_get Z.eqb dd k)))).
Proof.
  intros W H. rewrite (vivify_as_set_bucket _ _ _ k H).
  pose proof W as (H1 & _).
  apply wf_set_bucket; auto.
  - rewrite <- H1. apply nth_error_Some. congruence.
  - intros e HI. destruct W as (_ & _ & _ & _ & H5). eauto.
Qed.

Lemma edges_in_new_node g (x : object Payload) u b :
  length (adjacency g) = length (fuzzy_starts g) ->
  edges_in (_new_node g x) u b = edges_in g u b.
Proof.
  intros HL.
  destruct (Nat.lt_ge_cases u (length (adjacency g))) as [L|L].
  - unfold edges_in. now rewrite get_bucket_new_node.
  - rewrite (edges_in_out_of_range g) by assumption.
    destruct (Nat.eq_dec u (length (adjacency g))) as [->|N].
    + unfold edges_in. destruct b; simpl; unfold nth_item.
      * rewrite HL, nth_error_app_last. reflexivity.
      * rewrite nth_error_app_last. reflexivity.
    + apply edges_in_out_of_range; simpl; rewrite !length_app; simpl; lia.
Qed.

Lemma wf_new_node depth g (x : object Payload) :
  wf_with depth g -> wf_with depth (_new_node g x).
Proof.
  intros (H1 & H2 & H3 & H4 & H5). unfold wf_with. simpl.
  rewrite !length_app. simpl.
  split; [lia|]. split; [lia|]. split; [lia|]. split.
  - intros u dd H.
    destruct (Nat.lt_ge_cases u (length (adjacency g))) as [L|L].
    + rewrite nth_error_app_old in H by exact L. eauto.
    + destruct (Nat.eq_dec u (length (adjacency g))) as [->|N].
      * rewrite nth_error_app_last in H. inversion H. constructor.
      * assert (nth_error (adjacency g ++ [[]]) u = None).
        { apply nth_error_None. rewrite length_app. simpl. lia. }
        congruence.
  - intros u b e HI.
    change (In e (edges_in (_new_node g x) u b)) in HI.
    rewrite edges_in_new_node in HI by congruence.
    eapply edge_ok_more_nodes; [|eauto]. lia.
Qed.

(** A node can be added before or after a write to an older node. *)
Lemma set_nth_app_l {T : Type} (l m : list T) i (x : T) :
  (i < length l)%nat -> set_nth (l ++ m) i x = set_nth l i x ++ m.
Proof.
  revert i. induction l as [|y l IH]; intros [|i] H; simpl in *;
    try lia; auto.
  f_equal. apply IH. lia.
Qed.

Lemma new_node_set_bucket g u b es (x : object Payload) :
  in_range g u ->
  _new_node (set_bucket g u b es) x = set_bucket (_new_node g x) u b es.
Proof.
  intros [HA HF]. destruct b; simpl.
  - unfold _new_node, set_fuzzy_starts; simpl.
    now rewrite set_nth_app_l.
  - rewrite nth_error_app_old by exact HA.
    destruct (nth_error (adjacency g) u) eqn:E.
    + unfold _new_node, set_adjacency; simpl.
      now rewrite set_nth_app_l.
    + reflexivity.
Qed.


(* ================================================================== *)
(** ** Insertion keeps the invariant *)
(* ================================================================== *)

Lemma In_set_nth {T : Type} (l : list T) i (x y : T) :
  In y (set_nth l i x) -> y = x \/ In y l.
Proof.
  revert i. induction l as [|z l IH]; intros [|i] H; simpl in *; auto.
  - destruct H; auto.
  - destruct H as [H|H]; auto. destruct (IH _ H); auto.
Qed.

Lemma nth_item_In {T : Type} (l : list T) i (x : T) :
  nth_item l i = Ok x -> In x l.
Proof.
  intros H. apply nth_item_Ok in H. eapply nth_error_In; eauto.
Qed.

Lemma frag_wf_drop p n : frag_wf p -> frag_wf (drop_before p n).
Proof.
  unfold frag_wf, drop_before. simpl. intros H.
  rewrite !length_skipn. lia.
Qed.

Lemma frag_wf_split p n :
  frag_wf p -> frag_wf (fst (split_at p n)) /\ frag_wf (snd (split_at p n)).
Proof.
  unfold frag_wf, split_at. simpl. intros H.
  rewrite !length_firstn, !length_skipn. lia.
Qed.

Lemma first_related_spec edges p i0 i e c n :
  first_related edges p i0 = Found i e c n ->
  nth_error edges (i - i0) = Some e /\ (i0 <= i)%nat /\
  classify_path e p = (c, n) /\ c <> DISJUNCT.
Proof.
  revert i0. induction edges as [|x edges IH]; intros i0 H.
  - discriminate.
  - cbn [first_related] in H.
    destruct (classify_path x p) as [c' n'] eqn:E.
    destruct c'.
    + apply IH in H. destruct H as (H1 & H2 & H3 & H4).
      replace (i - i0)%nat with (S (i - S i0)) by lia. simpl. auto with arith.
    + inversion H; subst. rewrite Nat.sub_diag. simpl.
      repeat split; auto; discriminate.
    + inversion H; subst. rewrite Nat.sub_diag. simpl.
      repeat split; auto; discriminate.
    + inversion H; subst. rewrite Nat.sub_diag. simpl.
      repeat split; auto; discriminate.
Qed.

(** What the classes say of the common prefix. *)
Lemma classify_path_cases e p c n :
  classify_path e p = (c, n) ->
  len e = frag_len (path e) ->
  (n <= len e)%nat /\ (n <= frag_len p)%nat /\
  match c with
  | EQUAL => n = len e /\ frag_len p = len e
  | PART => n = len e /\ frag_len p <> len e
  | DISJUNCT => n = 0%nat /\ n <> len e
  | BRANCH => n <> 0%nat /\ n <> len e
  end.
Proof.
  unfold classify_path, longest_common_prefix. intros H HL.
  pose proof (lcp_le_l (template (path e)) (fuzziness (path e))
                       (template p) (fuzziness p)) as L1.
  pose proof (lcp_le_r (template (path e)) (fuzziness (path e))
                       (template p) (fuzziness p)) as L2.
  fold (frag_len (path e)) in L1. fold (frag_len p) in L2.
  set (k := lcp _ _ _ _) in *.
  destruct (k =? len e)%nat eqn:E1.
  - apply Nat.eqb_eq in E1.
    destruct (frag_len p =? len e)%nat eqn:E2; inversion H; subst.
    + apply Nat.eqb_eq in E2. repeat split; auto; lia.
    + apply Nat.eqb_neq in E2. repeat split; auto; lia.
  - apply Nat.eqb_neq in E1.
    destruct (k =? 0)%nat eqn:E3; inversion H; subst.
    + apply Nat.eqb_eq in E3. repeat split; auto; lia.
    + apply Nat.eqb_neq in E3. repeat split; auto; lia.
Qed.

(** A new terminus below node [u]. *)
Lemma wf_add_leaf depth g u p ms g2 (payload : object Payload) :
  wf_with depth g ->
  (u < nodes g)%nat ->
  frag_wf p ->
  (1 <= frag_len p)%nat ->
  _add_edge g u (nodes g) p ms = Ok g2 ->
  exists depth',
    wf_with depth' (_new_node g2 payload) /\
    nodes (_new_node g2 payload) = S (nodes g).
Proof.
  intros W L WP LP HADD.
  apply add_edge_as_set_bucket in HADD. subst g2.
  rewrite new_node_set_bucket by (eapply wf_in_range; eauto).
  set (depth' := fun v => if (v =? nodes g)%nat
                          then (depth u + frag_len p)%nat else depth v).
  assert (W' : wf_with depth' g).
  { apply wf_depth_ext with (depth := depth); auto.
    intros v Lv. unfold depth'.
    destruct (v =? nodes g)%nat eqn:E; auto.
    apply Nat.eqb_eq in E. lia. }
  apply (wf_new_node depth' g payload) in W'.
  exists depth'. split.
  - apply wf_set_bucket; [exact W' | simpl; lia | ].
    + intros e HI. apply in_app_or in HI. destruct HI as [HI|[<-|[]]].
      * destruct W' as (_ & _ & _ & _ & H5). apply (H5 u (bucket_of g p)).
        rewrite edges_in_new_node; auto.
        destruct W as (H1 & H2 & _). congruence.
      * unfold edge_ok, new_edge. simpl.
        split; [lia|]. split; [lia|]. split; [reflexivity|].
        split; [exact WP|].
        unfold depth'. rewrite Nat.eqb_refl.
        destruct (u =? nodes g)%nat eqn:E; auto.
        apply Nat.eqb_eq in E. lia.
  - destruct (set_bucket_fields (_new_node g payload) u (bucket_of g p)
                (edges_in g u (bucket_of g p) ++ [new_edge (nodes g) p ms]))
      as (F1 & _).
    rewrite F1. reflexivity.
Qed.

(** The split of an edge strictly inside its fragment. *)
Lemma wf_split depth g u b i e at_ g' :
  wf_with depth g ->
  get_edge g (u, b, i) = Ok e ->
  (0 < at_ < len e)%nat ->
  _split_edge g (u, b, i) e at_ = Ok g' ->
  exists depth', wf_with depth' g' /\ nodes g' = S (nodes g).
Proof.
  intros W HE LA HS.
  pose proof W as (H1 & H2 & H3 & H4 & H5).
  unfold get_edge in HE. inv_bind HE. rename a into es.
  assert (Lu : (u < nodes g)%nat).
  { rewrite <- H1. eapply get_bucket_lt; eauto. congruence. }
  assert (HES : edges_in g u b = es) by (unfold edges_in; now rewrite Ha).
  assert (OK : edge_ok (nodes g) depth u e).
  { apply (H5 u b). rewrite HES. eapply nth_item_In; eauto. }
  destruct OK as (O1 & O2 & O3 & O4 & O5).
  unfold _split_edge in HS.
  pose proof (frag_wf_split (path e) at_ O4) as (WPre & WSuf).
  destruct (split_at (path e) at_) as [prefix fragment] eqn:ES.
  simpl in WPre, WSuf.
  assert (LPre : frag_len prefix = at_).
  { unfold split_at in ES. inversion ES. unfold frag_len. simpl.
    rewrite length_firstn. unfold frag_len in O3. lia. }
  assert (LSuf : frag_len fragment = (len e - at_)%nat).
  { unfold split_at in ES. inversion ES. unfold frag_len. simpl.
    rewrite length_skipn. unfold frag_len in O3. lia. }
  inv_bind HS. rename a into g2. rename Ha0 into HADD.
  inversion HS; subst g'; clear HS.
  replace (nodes (_new_node g None) - 1)%nat with (nodes g) in HADD
    by (simpl; lia).
  apply add_edge_as_set_bucket in HADD.
  set (g1 := _new_node g None) in *.
  set (b0 := bucket_of g1 fragment) in *.
  set (depth' := fun v => if (v =? nodes g)%nat
                          then (depth u + at_)%nat else depth v).
  assert (W0 : wf_with depth' g).
  { apply wf_depth_ext with (depth := depth); auto.
    intros v Lv. unfold depth'.
    destruct (v =? nodes g)%nat eqn:E; auto.
    apply Nat.eqb_eq in E. lia. }
  assert (W1 : wf_with depth' g1) by (apply wf_new_node; exact W0).
  assert (DU : depth' u = depth u).
  { unfold depth'. destruct (u =? nodes g)%nat eqn:E; auto.
    apply Nat.eqb_eq in E. lia. }
  assert (DT : depth' (to e) = depth (to e)).
  { unfold depth'. destruct (to e =? nodes g)%nat eqn:E; auto.
    apply Nat.eqb_eq in E. lia. }
  assert (DN : depth' (nodes g) = (depth u + at_)%nat).
  { unfold depth'. now rewrite Nat.eqb_refl. }
  assert (N1 : nodes g1 = S (nodes g)) by reflexivity.
  assert (W2 : wf_with depth' g2).
  { subst g2. apply wf_set_bucket; [exact W1 | lia | ].
    intros x HI. apply in_app_or in HI. destruct HI as [HI|[<-|[]]].
    - destruct W1 as (_ & _ & _ & _ & K5). eauto.
    - unfold edge_ok, new_edge. simpl.
      split; [lia|]. split; [lia|]. split; [reflexivity|].
      split; [exact WSuf|]. rewrite DT, DN, O5. lia. }
  assert (N2 : nodes g2 = S (nodes g)).
  { subst g2. destruct (set_bucket_fields g1 (nodes g) b0
       (edges_in g1 (nodes g) b0 ++ [new_edge (to e) fragment (Some (match_size e))]))
      as (F1 & _). rewrite F1. reflexivity. }
  assert (R2 : in_range g2 u) by (eapply wf_in_range; eauto; lia).
  unfold set_edge. rewrite (get_bucket_in_range _ _ b R2).
  exists depth'. split.
  - apply wf_set_bucket; [exact W2 | lia | ].
    intros x HI. apply In_set_nth in HI. destruct HI as [->|HI].
    + unfold edge_ok. simpl.
      split; [lia|]. split; [lia|]. split; [lia|].
      split; [exact WPre|]. rewrite N2.
      replace (S (nodes g) - 1)%nat with (nodes g) by lia.
      rewrite DN, DU. reflexivity.
    + destruct W2 as (_ & _ & _ & _ & K5). eauto.
  - destruct (set_bucket_fields g2 u b
                (set_nth (edges_in g2 u b) i
                   (mkEdge (nodes g2 - 1) prefix at_
                           (match_size e - Z.of_nat at_) (weight e))))
      as (F1 & _).
    rewrite F1. exact N2.
Qed.

(** The edges [insert] looks at, at node [next_node]. *)
Lemma select_edges_spec depth g p next_node (fz : bool) edges g1 b :
  wf_with depth g ->
  (if fz then
     fs <- nth_item (fuzzy_starts g) next_node ;;
     Ok (fs, g, Fuzzy)
   else
     t0 <- getitem (template p) 0 ;;
     bin_ <- _to_bin g t0 ;;
     dd <- nth_item (adjacency g) next_node ;;
     let (es, dd') := dd_get Z.eqb dd bin_ in
     Ok (es, set_adjacency g (set_nth (adjacency g) next_node dd'),
         Bin bin_)) = Ok (edges, g1, b) ->
  wf_with depth g1 /\ nodes g1 = nodes g /\ data g1 = data g /\
  (next_node < nodes g)%nat /\ get_bucket g1 next_node b = Ok edges.
Proof.
  intros W H. pose proof W as (H1 & H2 & _).
  destruct fz.
  - inv_bind H. inversion H; subst; clear H.
    pose proof (nth_item_lt _ _ _ Ha) as L.
    split; [exact W|]. split; [reflexivity|]. split; [reflexivity|].
    split; [lia|]. exact Ha.
  - inv_bind H. inv_bind H. inv_bind H.
    pose proof (nth_item_lt _ _ _ Ha1) as L.
    apply nth_item_Ok in Ha1.
    pose proof (wf_vivify depth g next_node a1 a0 W Ha1) as WV.
    pose proof (vivify_as_set_bucket g next_node a1 a0 Ha1) as EV.
    pose proof (dd_get_value Z.eqb a1 a0) as HV.
    destruct (dd_get Z.eqb a1 a0) as [es dd'].
    cbn [fst snd] in HV, WV, EV.
    inversion H; subst; clear H.
    split; [exact WV|]. split; [reflexivity|]. split; [reflexivity|].
    split; [lia|].
    rewrite EV.
    assert (R : in_range g next_node) by (unfold in_range; lia).
    rewrite (get_set_bucket_same g next_node (Bin a0) _ _
               (get_bucket_in_range g next_node (Bin a0) R)).
    rewrite (edges_in_bin _ _ _ a0 Ha1). reflexivity.
Qed.

Lemma wf_set_data depth g d :
  wf_with depth g -> wf_with depth (set_data g d).
Proof.
  apply wf_with_same_lists; reflexivity.
Qed.

Lemma insert_loop_wf fuel :
  forall g p (payload : object Payload) ms next_node g' r depth,
    wf_with depth g ->
    frag_wf p ->
    insert_loop fuel g p payload ms next_node = Ok (g', r) ->
    wf g'.
Proof.
  induction fuel as [|fuel IH]; intros g p payload ms next_node g' r depth
                                       W WP H; simpl in H.
  - discriminate.
  - destruct (0 <? frag_len p)%nat eqn:EL.
    2:{ inversion H; subst. exists depth. exact W. }
    apply Nat.ltb_lt in EL.
    inv_bind H. rename a into fz.
    inv_bind H. destruct a as [[edges g1] b].
    destruct (select_edges_spec _ _ _ _ _ _ _ _ W Ha0)
      as (W1 & N1 & D1 & LN & HB).
    destruct (first_related edges p 0) as [i e c n|] eqn:EF.
    + apply first_related_spec in EF.
      destruct EF as (HN & _ & HC & ND). rewrite Nat.sub_0_r in HN.
      assert (HE : get_edge g1 (next_node, b, i) = Ok e).
      { unfold get_edge. rewrite HB. simpl. now apply nth_item_Ok. }
      assert (OK : edge_ok (nodes g1) depth next_node e).
      { destruct W1 as (_ & _ & _ & _ & K5). apply (K5 next_node b).
        unfold edges_in. rewrite HB. eapply nth_error_In; eauto. }
      destruct OK as (O1 & O2 & O3 & O4 & O5).
      destruct (classify_path_cases _ _ _ _ HC O3) as (C1 & C2 & C3).
      destruct c.
      * congruence.
      * inversion H; subst. exists depth. apply wf_set_data. exact W1.
      * eapply IH; [exact W1| |exact H]. apply frag_wf_drop. exact WP.
      * inv_bind H. rename a into g2.
        destruct (wf_split depth g1 next_node b i e n g2 W1 HE) as
            (depth2 & W2 & N2); [lia|exact Ha1|].
        destruct (0 <? frag_len (drop_before p n))%nat eqn:EL2.
        -- apply Nat.ltb_lt in EL2. inv_bind H. inversion H; subst.
           replace (nodes g2 - 1)%nat with (nodes g1) in Ha2 by lia.
           rewrite N2 in Ha2.
           assert (Ha3 : _add_edge g2 (nodes g1) (nodes g2)
                                   (drop_before p n) (Some ms) = Ok a)
             by (rewrite N2; exact Ha2).
           destruct (wf_add_leaf depth2 g2 (nodes g1) (drop_before p n)
                       (Some ms) a payload W2) as (d3 & W3 & _);
             auto; try lia.
           ++ apply frag_wf_drop. exact WP.
           ++ exists d3. exact W3.
        -- inversion H; subst. exists depth2. apply wf_set_data. exact W2.
    + inv_bind H. inversion H; subst.
      rewrite <- N1 in LN.
      destruct (wf_add_leaf depth g1 next_node p (Some ms) a payload W1)
        as (d3 & W3 & _); auto; try lia.
      exists d3. exact W3.
Qed.

Lemma wf_set_finalized depth g f :
  wf_with depth g -> wf_with depth (set_finalized g f).
Proof.
  apply wf_with_same_lists; reflexivity.
Qed.

Lemma wf_set_longest_path depth g l :
  wf_with depth g -> wf_with depth (set_longest_path g l).
Proof.
  apply wf_with_same_lists; reflexivity.
Qed.

Lemma insert_wf g p (payload : object Payload) g' r :
  wf g -> frag_wf p -> insert g p payload = Ok (g', r) -> wf g'.
Proof.
  intros (depth & W) WP H. unfold insert in H.
  eapply insert_loop_wf; [|exact WP|exact H].
  apply wf_set_finalized. exact W.
Qed.

(* ================================================================== *)
(** ** Graphs up to the weights and the order of their edges *)
(* ================================================================== *)

Lemma ins_length {T : Type} (lt : T -> T -> bool) (x : T) (l : list T) :
  length (ins lt x l) = S (length l).
Proof.
  induction l as [|y l IH]; simpl; auto.
  destruct (lt y x); simpl; auto.
Qed.

Lemma sorted_length {T : Type} (lt : T -> T -> bool) (l : list T) :
  length (sorted lt l) = length l.
Proof.
  induction l as [|y l IH]; simpl; auto.
  rewrite ins_length. auto.
Qed.

Lemma ins_In {T : Type} (lt : T -> T -> bool) (x y : T) (l : list T) :
  In y (ins lt x l) -> y = x \/ In y l.
Proof.
  induction l as [|z l IH]; simpl.
  - intros [H|[]]; auto.
  - destruct (lt z x); simpl; intros [H|H]; auto.
    destruct (IH H); auto.
Qed.

Lemma sorted_In {T : Type} (lt : T -> T -> bool) (y : T) (l : list T) :
  In y (sorted lt l) -> In y l.
Proof.
  induction l as [|z l IH]; simpl; auto.
  intros H. apply ins_In in H. destruct H; auto.
Qed.

Lemma bucket_sim_refl es : bucket_sim es es.
Proof.
  split; auto. intros e' H. eauto.
Qed.

Lemma bucket_sim_trans es1 es2 es3 :
  bucket_sim es1 es2 -> bucket_sim es2 es3 -> bucket_sim es1 es3.
Proof.
  intros [L1 H1] [L2 H2]. split; [congruence|].
  intros e3 HI. destruct (H2 _ HI) as (e2 & HI2 & E2).
  destruct (H1 _ HI2) as (e1 & HI1 & E1). exists e1. split; congruence.
Qed.

Lemma bucket_sim_sorted r es : bucket_sim es (sort_edges r es).
Proof.
  unfold sort_edges. split.
  - apply sorted_length.
  - intros e' H. apply sorted_In in H. eauto.
Qed.

Lemma bucket_sim_set_weight es i e w :
  nth_error es i = Some e ->
  bucket_sim es (set_nth es i (with_weight e w)).
Proof.
  intros H. split.
  - apply set_nth_length.
  - intros e' HI. apply In_set_nth in HI. destruct HI as [->|HI].
    + exists e. split; [eapply nth_error_In; eauto|reflexivity].
    + eauto.
Qed.

Lemma sim_refl g : sim g g.
Proof.
  unfold sim. repeat split; auto using bucket_sim_refl.
  intros e' H. eauto.
Qed.

Lemma sim_trans g1 g2 g3 : sim g1 g2 -> sim g2 g3 -> sim g1 g3.
Proof.
  unfold sim.
  intros (A1 & A2 & A3 & A4 & A5 & A6 & A7) (B1 & B2 & B3 & B4 & B5 & B6 & B7).
  split; [congruence|]. split; [congruence|]. split; [congruence|].
  split; [congruence|]. split; [congruence|]. split.
  - intros u. rewrite B6. apply A6.
  - intros u b. eapply bucket_sim_trans; eauto.
Qed.

(** The fields [finalize] sets are not looked at. *)
Lemma sim_same_lists g g' :
  adjacency g' = adjacency g ->
  fuzzy_starts g' = fuzzy_starts g ->
  nodes g' = nodes g ->
  data g' = data g ->
  bin_count g' = bin_count g ->
  sim g g'.
Proof.
  intros E1 E2 E3 E4 E5. unfold sim, edges_in, get_bucket.
  rewrite E1, E2, E3, E4, E5.
  split; [reflexivity|]. split; [reflexivity|]. split; [reflexivity|].
  split; [reflexivity|]. split; [reflexivity|]. split; [reflexivity|].
  intros u b. apply bucket_sim_refl.
Qed.

Lemma sim_set_longest_path g l : sim g (set_longest_path g l).
Proof. apply sim_same_lists; reflexivity. Qed.

Lemma sim_set_finalized g f : sim g (set_finalized g f).
Proof. apply sim_same_lists; reflexivity. Qed.

Lemma nth_set_nth_eq {T : Type} (l : list T) i (x d : T) :
  (i < length l)%nat -> nth i (set_nth l i x) d = x.
Proof.
  intros L. apply nth_error_nth. now apply nth_error_set_nth_eq.
Qed.

Lemma nth_set_nth_neq {T : Type} (l : list T) i j (x d : T) :
  i <> j -> nth j (set_nth l i x) d = nth j l d.
Proof.
  revert i j. induction l as [|y l IH]; intros [|i] [|j] N; simpl;
    try congruence; auto.
Qed.

(** A write of a similar list to a place that exists. *)
Lemma sim_set_bucket g u b es :
  length (adjacency g) = length (fuzzy_starts g) ->
  (u < length (adjacency g))%nat ->
  (match b with
   | Fuzzy => True
   | Bin k => exists dd v, nth_error (adjacency g) u = Some dd /\
                           dd_find Z.eqb dd k = Some v
   end) ->
  bucket_sim (edges_in g u b) es ->
  sim g (set_bucket g u b es).
Proof.
  intros HL L HK HS.
  destruct (set_bucket_fields g u b es) as (F1 & F2 & F3 & _ & _ & F6 & F7).
  unfold sim. rewrite F1, F2, F3, F6, F7.
  split; [reflexivity|]. split; [reflexivity|]. split; [reflexivity|].
  split; [reflexivity|]. split; [reflexivity|]. split.
  - intros v. destruct b as [|k]; simpl; [reflexivity|].
    destruct HK as (dd & w & HN & HD). rewrite HN. simpl.
    destruct (Nat.eq_dec v u) as [->|N].
    + rewrite nth_set_nth_eq by exact L.
      rewrite (nth_error_nth _ _ _ HN).
      eapply dd_set_keys_found; eauto.
    + now rewrite nth_set_nth_neq by congruence.
  - intros u' b'.
    assert (D : {(u', b') = (u, b)} + {(u', b') <> (u, b)}).
    { destruct (Nat.eq_dec u' u); [|right; congruence].
      destruct b as [|k], b' as [|k'];
        [left; congruence | right; congruence | right; congruence |].
      destruct (Z.eq_dec k' k); [left|right]; congruence. }
    destruct D as [D|D].
    + inversion D; subst.
      rewrite edges_in_set_bucket_same by (unfold in_range; lia).
      exact HS.
    + rewrite edges_in_set_bucket_other by exact D. apply bucket_sim_refl.
Qed.

(** Setting the weight of an edge. *)
Lemma set_weight_sim g l w g' :
  length (adjacency g) = length (fuzzy_starts g) ->
  set_weight g l w = Ok g' -> sim g g'.
Proof.
  intros HL H. destruct l as [[u b] i]. unfold set_weight in H.
  inv_bind H. rename a into e. inversion H; subst g'; clear H.
  unfold get_edge in Ha. inv_bind Ha. rename a into es.
  assert (L : (u < length (adjacency g))%nat)
    by (eapply get_bucket_lt; eauto).
  assert (HES : edges_in g u b = es) by (unfold edges_in; now rewrite Ha0).
  unfold set_edge. rewrite Ha0.
  apply nth_item_Ok in Ha.
  apply sim_set_bucket; auto.
  - destruct b as [|k]; auto.
    simpl in Ha0. inv_bind Ha0. apply nth_item_Ok in Ha1.
    destruct (dd_find Z.eqb a k) eqn:E.
    + eauto.
    + inversion Ha0 as [E0]. rewrite <- E0 in Ha.
      destruct i; simpl in Ha; discriminate.
  - rewrite HES. apply bucket_sim_set_weight. exact Ha.
Qed.

Lemma dd_find_map_sorted r (dd : ddict Z Edge) k :
  dd_find Z.eqb (map (fun kv => (fst kv, sort_edges r (snd kv))) dd) k
  = option_map (sort_edges r) (dd_find Z.eqb dd k).
Proof.
  induction dd as [|[k' v'] dd IH]; simpl; auto.
  destruct (k =? k'); auto.
Qed.

(** Sorting the lists of one node. *)
Lemma sort_node_sim r g u g' :
  length (adjacency g) = length (fuzzy_starts g) ->
  sort_node r g u = Ok g' -> sim g g'.
Proof.
  intros HL H. unfold sort_node in H.
  inv_bind H. rename a into fs. inv_bind H. rename a into dd.
  inversion H; subst g'; clear H. simpl in Ha0.
  pose proof (nth_item_lt _ _ _ Ha) as LF.
  pose proof (nth_item_lt _ _ _ Ha0) as LA.
  apply nth_item_Ok in Ha, Ha0.
  unfold sim. simpl. rewrite !set_nth_length.
  split; [reflexivity|]. split; [reflexivity|]. split; [reflexivity|].
  split; [reflexivity|]. split; [reflexivity|]. split.
  - intros v. destruct (Nat.eq_dec v u) as [->|N].
    + rewrite nth_set_nth_eq by exact LA.
      rewrite (nth_error_nth _ _ _ Ha0). rewrite map_map. reflexivity.
    + now rewrite nth_set_nth_neq by congruence.
  - intros v b. unfold edges_in.
    destruct (Nat.eq_dec v u) as [->|N].
    + destruct b as [|k]; simpl; unfold nth_item.
      * rewrite nth_error_set_nth_eq by exact LF. rewrite Ha.
        apply bucket_sim_sorted.
      * rewrite nth_error_set_nth_eq by exact LA. rewrite Ha0. simpl.
        rewrite dd_find_map_sorted.
        destruct (dd_find Z.eqb dd k); simpl.
        -- apply bucket_sim_sorted.
        -- apply bucket_sim_refl.
    + destruct b as [|k]; simpl; unfold nth_item;
        rewrite nth_error_set_nth_neq by congruence;
        apply bucket_sim_refl.
Qed.

Lemma sim_lists_agree g g' :
  sim g g' ->
  length (adjacency g) = length (fuzzy_starts g) ->
  length (adjacency g') = length (fuzzy_starts g').
Proof.
  intros (_ & _ & _ & A4 & A5 & _) H. congruence.
Qed.

Lemma sort_nodes_sim r us :
  forall g g',
    length (adjacency g) = length (fuzzy_starts g) ->
    foldM (sort_node r) us g = Ok g' -> sim g g'.
Proof.
  induction us as [|u us IH]; intros g g' HL H; simpl in H.
  - inversion H. apply sim_refl.
  - inv_bind H. pose proof (sort_node_sim _ _ _ _ HL Ha) as S1.
    eapply sim_trans; [exact S1|]. eapply IH; eauto.
    eapply sim_lists_agree; eauto.
Qed.

Lemma sort_edges_by_weight_sim g r g' :
  length (adjacency g) = length (fuzzy_starts g) ->
  _sort_edges_by_weight g r = Ok g' -> sim g g'.
Proof.
  unfold _sort_edges_by_weight. intros HL H. eapply sort_nodes_sim; eauto.
Qed.

(** Sorting succeeds when the node lists have one entry per node. *)
Lemma sort_nodes_Ok r us :
  forall g,
    length (adjacency g) = length (fuzzy_starts g) ->
    (forall u, In u us -> (u < length (adjacency g))%nat) ->
    exists g', foldM (sort_node r) us g = Ok g'.
Proof.
  induction us as [|u us IH]; intros g HL HU; simpl.
  - eauto.
  - assert (L : (u < length (adjacency g))%nat) by (apply HU; simpl; auto).
    assert (E : exists g1, sort_node r g u = Ok g1).
    { unfold sort_node, nth_item.
      destruct (nth_error (fuzzy_starts g) u) eqn:E1.
      2:{ apply nth_error_None in E1. lia. }
      simpl.
      destruct (nth_error (adjacency g) u) eqn:E2.
      2:{ apply nth_error_None in E2. lia. }
      simpl. eauto. }
    destruct E as (g1 & E). rewrite E. simpl.
    pose proof (sort_node_sim _ _ _ _ HL E) as S1.
    apply IH.
    + eapply sim_lists_agree; eauto.
    + intros v Hv. destruct S1 as (_ & _ & _ & A4 & _). rewrite A4.
      apply HU. simpl. auto.
Qed.

(** The invariant does not look at weights or at the order in a list. *)
Lemma wf_sim depth g g' : wf_with depth g -> sim g g' -> wf_with depth g'.
Proof.
  intros (H1 & H2 & H3 & H4 & H5) (A1 & A2 & A3 & A4 & A5 & A6 & A7).
  unfold wf_with. rewrite A1, A4, A5.
  split; [exact H1|]. split; [exact H2|]. split; [exact H3|]. split.
  - intros u dd HN.
    assert (L : (u < length (adjacency g))%nat).
    { rewrite <- A4. apply nth_error_Some. congruence. }
    specialize (A6 u). rewrite (nth_error_nth _ _ _ HN) in A6.
    rewrite A6.
    destruct (nth_error (adjacency g) u) as [dd0|] eqn:E.
    + rewrite (nth_error_nth _ _ _ E). eauto.
    + apply nth_error_None in E. lia.
  - intros u b e' HI.
    destruct (A7 u b) as (_ & HS). destruct (HS _ HI) as (e & HI0 & EU).
    destruct (H5 _ _ _ HI0) as (O1 & O2 & O3 & O4 & O5).
    unfold unweighted, with_weight in EU. inversion EU as [[E1 E2 E3 E4]].
    unfold edge_ok. rewrite E1, E2, E3. auto.
Qed.

Lemma fan_bound_sim B g g' : fan_bound B g -> sim g g' -> fan_bound B g'.
Proof.
  intros H (_ & _ & _ & _ & _ & _ & A7) u b.
  destruct (A7 u b) as (L & _). rewrite L. apply H.
Qed.

(* ================================================================== *)
(** ** The two passes of [finalize] over the edges *)
(* ================================================================== *)

Lemma locs_of_valid g node b es :
  edges_in g node b = es ->
  Forall (valid_loc g node) (locs_of node b es).
Proof.
  intros H. unfold locs_of. apply Forall_forall. intros l HI.
  apply in_map_iff in HI. destruct HI as (i & <- & HI).
  apply in_seq in HI. exists b, i. split; auto. rewrite H. lia.
Qed.

Lemma edges_at_valid depth g node locs :
  wf_with depth g ->
  edges_at g node = Ok locs ->
  Forall (valid_loc g node) locs.
Proof.
  intros (H1 & H2 & H3 & H4 & H5) H. unfold edges_at in H.
  inv_bind H. rename a into dd. inv_bind H. rename a into fs.
  inversion H; subst locs; clear H.
  apply nth_item_Ok in Ha, Ha0.
  apply Forall_app. split.
  - apply Forall_forall. intros l HI.
    apply in_flat_map in HI. destruct HI as ([k es] & HI1 & HI2).
    simpl in HI2.
    assert (E : edges_in g node (Bin k) = es).
    { rewrite (edges_in_bin _ _ _ k Ha). unfold bin_edges.
      rewrite (dd_find_in_nodup Z.eqb Z_eqb_eq dd k es); eauto. }
    pose proof (locs_of_valid g node (Bin k) es E) as F.
    rewrite Forall_forall in F. auto.
  - apply locs_of_valid. apply edges_in_fuzzy. exact Ha0.
Qed.

Lemma edges_at_Ok g node :
  in_range g node -> exists locs, edges_at g node = Ok locs.
Proof.
  intros [HA HF]. unfold edges_at, nth_item.
  destruct (nth_error (adjacency g) node) eqn:E1.
  2:{ apply nth_error_None in E1. lia. }
  destruct (nth_error (fuzzy_starts g) node) eqn:E2.
  2:{ apply nth_error_None in E2. lia. }
  simpl. eauto.
Qed.

(** The edge at a valid place of a similar graph. *)
Lemma get_edge_sim depth g g0 node l :
  wf_with depth g ->
  sim g g0 ->
  (node < nodes g)%nat ->
  valid_loc g node l ->
  exists e, get_edge g0 l = Ok e /\ edge_ok (nodes g) depth node e.
Proof.
  intros W S L (b & i & -> & Hi).
  pose proof (wf_sim _ _ _ W S) as W0.
  pose proof S as (A1 & _ & _ & _ & _ & _ & A7).
  destruct (A7 node b) as (LE & _).
  assert (R : in_range g0 node) by (eapply wf_in_range; eauto; lia).
  unfold get_edge. rewrite (get_bucket_in_range _ _ b R). simpl.
  unfold nth_item.
  destruct (nth_error (edges_in g0 node b) i) as [e|] eqn:E.
  - exists e. split; auto.
    destruct W0 as (_ & _ & _ & _ & K5). rewrite <- A1.
    apply (K5 node b). eapply nth_error_In; eauto.
  - apply nth_error_None in E. lia.
Qed.

Lemma set_weight_Ok depth g g0 node l w :
  wf_with depth g ->
  sim g g0 ->
  (node < nodes g)%nat ->
  valid_loc g node l ->
  exists g1, set_weight g0 l w = Ok g1 /\ sim g g1.
Proof.
  intros W S L V.
  destruct (get_edge_sim _ _ _ _ _ W S L V) as (e & HE & _).
  unfold set_weight. rewrite HE. simpl. eexists. split; [reflexivity|].
  eapply sim_trans; [exact S|].
  apply (set_weight_sim g0 l w).
  - pose proof (wf_sim _ _ _ W S) as (K1 & K2 & _). congruence.
  - unfold set_weight. rewrite HE. reflexivity.
Qed.

(** A loop over the places of a node whose every pass succeeds and leaves
    a similar graph. *)
Lemma foldM_sim {S : Type} (gr : S -> Graph Payload)
      (F : S -> loc -> outcome S) g (locs : list loc) :
  (forall st l, In l locs -> sim g (gr st) ->
                exists st', F st l = Ok st' /\ sim g (gr st')) ->
  forall st, sim g (gr st) ->
             exists st', foldM F locs st = Ok st' /\ sim g (gr st').
Proof.
  induction locs as [|l locs IH]; intros HF st HS; simpl.
  - eauto.
  - destruct (HF st l (or_introl eq_refl) HS) as (st1 & E1 & S1).
    rewrite E1. simpl. apply IH; auto.
    intros st2 l2 HI. apply HF. right. exact HI.
Qed.

Lemma get_max_match_size_total fuel :
  forall depth D g node,
    wf_with depth g ->
    depth_bound depth D g ->
    (node < nodes g)%nat ->
    (D - depth node < fuel)%nat ->
    exists g' m, _get_max_match_size fuel g node = Ok (g', m) /\ sim g g'.
Proof.
  induction fuel as [|fuel IH]; intros depth D g node W HD L HF.
  - lia.
  - simpl.
    destruct (edges_at_Ok g node (wf_in_range _ _ _ W L)) as (locs & EL).
    rewrite EL. simpl.
    pose proof (edges_at_valid _ _ _ _ W EL) as V.
    rewrite Forall_forall in V.
    match goal with
    | |- exists g' m, foldM ?F locs (g, 0) = _ /\ _ =>
        destruct (foldM_sim (@fst (Graph Payload) Z) F g locs) with (st := (g, 0))
          as ([g' m] & E & S)
    end.
    + intros [g0 mx] l HI S0. simpl in S0.
      destruct (get_edge_sim _ _ _ _ _ W S0 L (V _ HI)) as (e & HE & OK).
      rewrite HE. simpl.
      destruct OK as (O1 & O2 & _ & _ & O5).
      pose proof (wf_sim _ _ _ W S0) as W0.
      pose proof S0 as (A1 & _).
      destruct (IH depth D g0 (to e) W0) as (g1 & m1 & E1 & S1).
      * intros v Hv. apply HD. congruence.
      * congruence.
      * specialize (HD (to e) O1). lia.
      * rewrite E1. simpl.
        destruct (set_weight_Ok depth g g1 node l
                    (NInt (Z.max m1 (match_size e))) W) as (g2 & E2 & S2);
          auto.
        { eapply sim_trans; eauto. }
        rewrite E2. simpl. eexists. split; [reflexivity|]. exact S2.
    + simpl. apply sim_refl.
    + exists g', m. split; auto.
Qed.

Lemma get_mean_fuzziness_total fuel :
  forall depth D g node,
    wf_with depth g ->
    depth_bound depth D g ->
    (node < nodes g)%nat ->
    (D - depth node < fuel)%nat ->
    exists g' r, _get_mean_fuzziness fuel g node = Ok (g', r) /\ sim g g'.
Proof.
  induction fuel as [|fuel IH]; intros depth D g node W HD L HF.
  - lia.
  - simpl.
    destruct (edges_at_Ok g node (wf_in_range _ _ _ W L)) as (locs & EL).
    rewrite EL. simpl.
    pose proof (edges_at_valid _ _ _ _ W EL) as V.
    rewrite Forall_forall in V.
    match goal with
    | |- exists g' r, bind (foldM ?F locs (g, [], [])) _ = _ /\ _ =>
        destruct (foldM_sim
                    (fun st : Graph Payload * list num * list Z => fst (fst st))
                    F g locs) with (st := (g, @nil num, @nil Z))
          as ([[g' rs] cs] & E & S)
    end.
    + intros [[g0 rs] cs] l HI S0. simpl in S0.
      destruct (get_edge_sim _ _ _ _ _ W S0 L (V _ HI)) as (e & HE & OK).
      rewrite HE. simpl.
      destruct OK as (O1 & O2 & _ & _ & O5).
      pose proof (wf_sim _ _ _ W S0) as W0.
      pose proof S0 as (A1 & _).
      destruct (IH depth D g0 (to e) W0) as (g1 & [tr tc] & E1 & S1).
      * intros v Hv. apply HD. congruence.
      * congruence.
      * specialize (HD (to e) O1). lia.
      * rewrite E1. simpl.
        destruct (weighted_mean [fuzz_ratio (path e); tr]
                                [Z.of_nat (frag_len (path e)); tc])
          as [ratio count].
        destruct (set_weight_Ok depth g g1 node l ratio W)
          as (g2 & E2 & S2); auto.
        { eapply sim_trans; eauto. }
        rewrite E2. simpl. eexists. split; [reflexivity|]. exact S2.
    + simpl. apply sim_refl.
    + rewrite E. simpl. eexists. eexists. split; [reflexivity|]. exact S.
Qed.

(** Every graph has a bound on the depth of its nodes. *)
Lemma depth_bound_exists depth g : exists D, depth_bound depth D g.
Proof.
  unfold depth_bound. induction (nodes g) as [|n IH].
  - exists 0%nat. intros v Hv. lia.
  - destruct IH as (D & HD). exists (Nat.max D (depth n)).
    intros v Hv. destruct (Nat.eq_dec v n) as [->|N].
    + lia.
    + specialize (HD v). lia.
Qed.

Lemma depth_bound_sim depth D g g' :
  depth_bound depth D g -> sim g g' -> depth_bound depth D g'.
Proof.
  intros H (A1 & _) v Hv. apply H. congruence.
Qed.

(** [finalize] returns on a well-formed graph, given fuel for the depth
    of the graph, and changes weights, orders and its two fields only. *)
Lemma finalize_total depth D g fuel :
  wf_with depth g ->
  depth_bound depth D g ->
  (D < fuel)%nat ->
  exists g', finalize fuel g = Ok g' /\ sim g g' /\ finalized g' = true.
Proof.
  intros W HD HF. unfold finalize.
  destruct (finalized g) eqn:EF.
  - exists g. split; [reflexivity|]. split; [apply sim_refl|exact EF].
  - pose proof W as (H1 & H2 & H3 & _).
    destruct (get_mean_fuzziness_total fuel depth D g 0%nat W HD)
      as (g1 & r1 & E1 & S1); [lia|lia|].
    rewrite E1. simpl. destruct r1 as [x y].
    pose proof (wf_sim _ _ _ W S1) as W1.
    pose proof W1 as (K1 & K2 & _).
    destruct (sort_nodes_Ok true (seq 0 (nodes g1)) g1) as (g2 & E2).
    { congruence. }
    { intros u Hu. apply in_seq in Hu. lia. }
    unfold _sort_edges_by_weight. rewrite E2. simpl.
    assert (S2 : sim g1 g2) by (eapply sort_nodes_sim; eauto; congruence).
    pose proof (wf_sim _ _ _ W1 S2) as W2.
    destruct (get_max_match_size_total fuel depth D g2 0%nat W2)
      as (g3 & lp & E3 & S3).
    { eapply depth_bound_sim; [|exact S2].
      eapply depth_bound_sim; eauto. }
    { destruct W2 as (_ & _ & L2 & _). lia. }
    { lia. }
    rewrite E3. simpl.
    pose proof (wf_sim _ _ _ W2 S3) as W3.
    pose proof (wf_set_longest_path _ _ lp W3) as W4.
    pose proof W4 as (M1 & M2 & _).
    destruct (sort_nodes_Ok false (seq 0 (nodes (set_longest_path g3 lp)))
                            (set_longest_path g3 lp)) as (g5 & E5).
    { congruence. }
    { intros u Hu. apply in_seq in Hu. lia. }
    change (nodes (set_longest_path g3 lp)) with (nodes g3) in E5.
    rewrite E5. simpl.
    assert (S5 : sim (set_longest_path g3 lp) g5)
      by (eapply sort_nodes_sim; eauto; congruence).
    eexists. split; [reflexivity|]. split; [|reflexivity].
    eapply sim_trans; [exact S1|].
    eapply sim_trans; [exact S2|].
    eapply sim_trans; [exact S3|].
    eapply sim_trans; [apply sim_set_longest_path|].
    eapply sim_trans; [exact S5|].
    apply sim_set_finalized.
Qed.

(** The same of any run of the passes that returns, whatever the fuel. *)
Lemma foldM_sim_cond {S : Type} (gr : S -> Graph Payload)
      (F : S -> loc -> outcome S) (locs : list loc) :
  (forall st l st',
      length (adjacency (gr st)) = length (fuzzy_starts (gr st)) ->
      F st l = Ok st' -> sim (gr st) (gr st')) ->
  forall st st',
    length (adjacency (gr st)) = length (fuzzy_starts (gr st)) ->
    foldM F locs st = Ok st' -> sim (gr st) (gr st').
Proof.
  intros HF. induction locs as [|l locs IH]; intros st st' HL H; simpl in H.
  - inversion H. apply sim_refl.
  - inv_bind H. pose proof (HF _ _ _ HL Ha) as S1.
    eapply sim_trans; [exact S1|]. apply IH; auto.
    eapply sim_lists_agree; eauto.
Qed.

Lemma get_max_match_size_sim fuel :
  forall g node g' m,
    length (adjacency g) = length (fuzzy_starts g) ->
    _get_max_match_size fuel g node = Ok (g', m) -> sim g g'.
Proof.
  induction fuel as [|fuel IH]; intros g node g' m HL H; simpl in H.
  - discriminate.
  - inv_bind H. rename a into locs.
    apply (foldM_sim_cond (@fst (Graph Payload) Z)) in H; auto.
    intros [g0 mx] l [g2 mx2] HL0 HS. simpl in *.
    inv_bind HS. rename a into e. inv_bind HS. destruct a as [g1 m1].
    inv_bind HS. inversion HS; subst; clear HS.
    pose proof (IH _ _ _ _ HL0 Ha1) as S1.
    eapply sim_trans; [exact S1|].
    eapply set_weight_sim; eauto. eapply sim_lists_agree; eauto.
Qed.

Lemma get_mean_fuzziness_sim fuel :
  forall g node g' r,
    length (adjacency g) = length (fuzzy_starts g) ->
    _get_mean_fuzziness fuel g node = Ok (g', r) -> sim g g'.
Proof.
  induction fuel as [|fuel IH]; intros g node g' r HL H; simpl in H.
  - discriminate.
  - inv_bind H. rename a into locs.
    inv_bind H. destruct a as [[g1 rs] cs]. inversion H; subst; clear H.
    apply (foldM_sim_cond
             (fun st : Graph Payload * list num * list Z => fst (fst st)))
      in Ha0; auto.
    intros [[g0 rs0] cs0] l [[g2 rs2] cs2] HL0 HS. simpl in *.
    inv_bind HS. rename a into e. inv_bind HS. destruct a as [g3 [tr tc]].
    destruct (weighted_mean [fuzz_ratio (path e); tr]
                            [Z.of_nat (frag_len (path e)); tc])
      as [ratio count].
    inv_bind HS. inversion HS; subst; clear HS.
    pose proof (IH _ _ _ _ HL0 Ha2) as S1.
    eapply sim_trans; [exact S1|].
    eapply set_weight_sim; eauto. eapply sim_lists_agree; eauto.
Qed.

Lemma finalize_sim g fuel g' :
  length (adjacency g) = length (fuzzy_starts g) ->
  finalize fuel g = Ok g' ->
  sim g g' /\ finalized g' = true.
Proof.
  intros HL H. unfold finalize in H.
  destruct (finalized g) eqn:EF.
  - inversion H; subst. split; [apply sim_refl|exact EF].
  - inv_bind H. destruct a as [g1 r1].
    inv_bind H. rename a into g2.
    inv_bind H. destruct a as [g3 lp].
    inv_bind H. rename a into g5. inversion H; subst g'; clear H.
    split; [|reflexivity].
    pose proof (get_mean_fuzziness_sim _ _ _ _ _ HL Ha) as S1.
    pose proof (sim_lists_agree _ _ S1 HL) as HL1.
    pose proof (sort_edges_by_weight_sim _ _ _ HL1 Ha0) as S2.
    pose proof (sim_lists_agree _ _ S2 HL1) as HL2.
    pose proof (get_max_match_size_sim _ _ _ _ _ HL2 Ha1) as S3.
    pose proof (sim_lists_agree _ _ S3 HL2) as HL3.
    pose proof (sort_edges_by_weight_sim (set_longest_path g3 lp) _ _ HL3 Ha2)
      as S5.
    eapply sim_trans; [exact S1|].
    eapply sim_trans; [exact S2|].
    eapply sim_trans; [exact S3|].
    eapply sim_trans; [apply sim_set_longest_path|].
    eapply sim_trans; [exact S5|].
    apply sim_set_finalized.
Qed.

(** The first call of [finalize] returns, given fuel for the depth of
    the graph, and a call on the graph it returns changes nothing. *)
Lemma finalize_twice g :
  wf g ->
  (exists N, forall fuel, (N <= fuel)%nat ->
     exists g', finalize fuel g = Ok g') /\
  (forall fuel g' fuel',
      finalize fuel g = Ok g' -> finalize fuel' g' = Ok g').
Proof.
  intros (depth & W). split.
  - destruct (depth_bound_exists depth g) as (D & HD).
    exists (S D). intros fuel HF.
    destruct (finalize_total depth D g fuel W HD) as (g' & E & _);
      [lia|].
    exists g'. exact E.
  - intros fuel g' fuel' E. pose proof W as (H1 & H2 & _).
    destruct (finalize_sim g fuel g') as (_ & F); [congruence|exact E|].
    unfold finalize. rewrite F. reflexivity.
Qed.

(* ================================================================== *)
(** ** Reads leave the edges, the payloads and the invariant *)
(* ================================================================== *)

Lemma reads_wf depth g g' :
  reads g g' -> wf_with depth g -> wf_with depth g'.
Proof.
  induction 1; intros W.
  - exact W.
  - apply IHreads. apply wf_set_data. exact W.
  - apply IHreads. apply wf_vivify; auto.
Qed.

Lemma edges_in_vivify g u dd k u' b :
  nth_error (adjacency g) u = Some dd ->
  edges_in (set_adjacency g
              (set_nth (adjacency g) u (snd (dd_get Z.eqb dd k)))) u' b
  = edges_in g u' b.
Proof.
  intros H. unfold edges_in. destruct b as [|k']; simpl; auto.
  unfold nth_item.
  destruct (Nat.eq_dec u' u) as [->|N].
  - rewrite nth_error_set_nth_eq by (apply nth_error_Some; congruence).
    rewrite H. simpl. apply dd_find_vivify.
  - now rewrite nth_error_set_nth_neq by congruence.
Qed.

Lemma reads_edges_in g g' :
  reads g g' -> forall u b, edges_in g' u b = edges_in g u b.
Proof.
  induction 1; intros u' b.
  - reflexivity.
  - rewrite IHreads. reflexivity.
  - rewrite IHreads. apply edges_in_vivify. exact H.
Qed.

Lemma reads_payloads_same g g' :
  reads g g' -> forall n, payloads g' n = payloads g n.
Proof.
  induction 1; intros n'.
  - reflexivity.
  - rewrite IHreads. apply payloads_vivify.
  - rewrite IHreads. reflexivity.
Qed.

Lemma reads_fields g g' :
  reads g g' ->
  nodes g' = nodes g /\ fuzzy_starts g' = fuzzy_starts g /\
  bin_count g' = bin_count g /\
  length (adjacency g') = length (adjacency g).
Proof.
  intros H. apply reads_only_reads in H.
  destruct H as (A1 & A2 & _ & A4 & _ & _ & A7).
  repeat split; auto. symmetry. eapply Forall2_length; eauto.
Qed.

Lemma fan_bound_reads B g g' : fan_bound B g -> reads g g' -> fan_bound B g'.
Proof.
  intros H R u b. rewrite (reads_edges_in _ _ R). apply H.
Qed.

(** The graphs built by the operations of [Graph] are well formed. *)
Lemma match_wf fuel g target offset align g' ys :
  wf g -> match_ fuel g target offset align = Ok (g', ys) -> wf g'.
Proof.
  intros (depth & W) H. unfold match_ in H. inv_bind H.
  pose proof W as (H1 & H2 & _).
  destruct (finalize_sim g fuel a) as (S & _); auto; [congruence|].
  exists depth. eapply reads_wf; [eapply match_loop_reads; eauto|].
  eapply wf_sim; eauto.
Qed.

Lemma reachable_wf g : reachable g -> wf g.
Proof.
  induction 1 as [bc|g p d g' r HR IH WP HI|g fuel g' HR IH HF
                 |g fuel target offset align g' ys HR IH HM].
  - exists (fun _ => 0%nat). apply wf_init.
  - eapply insert_wf; eauto.
  - destruct IH as (depth & W). pose proof W as (H1 & H2 & _).
    destruct (finalize_sim g fuel g') as (S & _); auto; [congruence|].
    exists depth. eapply wf_sim; eauto.
  - eapply match_wf; eauto.
Qed.

(** C8: [finalize] is idempotent.  On a graph built by the operations of
    [Graph], the first call returns (given fuel for the depth of the
    recursion), and a second call, with no insertion in between, returns
    the very graph the first call left: the same order of the edges in
    every bin and every fuzzy-start list, and the same [longest_path]. *)
Theorem finalize_idempotent g :
  reachable g ->
  (exists N, forall fuel, (N <= fuel)%nat ->
     exists g', finalize fuel g = Ok g') /\
  (forall fuel g' fuel',
      finalize fuel g = Ok g' -> finalize fuel' g' = Ok g').
Proof.
  intros R. apply finalize_twice. apply reachable_wf. exact R.
Qed.

(** Every graph has a bound on the length of its lists of edges. *)
Lemma le_list_max {T : Type} (f : T -> nat) (l : list T) (x : T) :
  In x l -> (f x <= list_max (map f l))%nat.
Proof.
  intros H. assert (F : Forall (fun k => (k <= list_max (map f l))%nat) (map f l)).
  { apply list_max_le. lia. }
  rewrite Forall_forall in F. apply F. apply in_map. exact H.
Qed.

Lemma fan_bound_exists g : exists B, fan_bound B g.
Proof.
  exists (Nat.max
            (list_max (map (@length Edge) (fuzzy_starts g)))
            (list_max (map (fun dd : ddict Z Edge =>
                              list_max (map (fun kv => length (snd kv)) dd))
                           (adjacency g)))).
  intros u b. unfold edges_in. destruct b as [|k]; simpl; unfold nth_item.
  - destruct (nth_error (fuzzy_starts g) u) as [fs|] eqn:E; simpl; [|lia].
    apply nth_error_In in E.
    pose proof (le_list_max (@length Edge) _ _ E). lia.
  - destruct (nth_error (adjacency g) u) as [dd|] eqn:E; simpl; [|lia].
    apply nth_error_In in E.
    pose proof (le_list_max
                  (fun dd : ddict Z Edge =>
                     list_max (map (fun kv => length (snd kv)) dd)) _ _ E)
      as L1.
    destruct (dd_find Z.eqb dd k) as [es|] eqn:EF; simpl; [|lia].
    apply (dd_find_some_in Z.eqb Z_eqb_eq) in EF.
    pose proof (le_list_max (fun kv : Z * list Edge => length (snd kv)) _ _ EF)
      as L2.
    simpl in *. lia.
Qed.

(* ================================================================== *)
(** ** Slices of the target *)
(* ================================================================== *)

Lemma all_match_length ts fs bs :
  all_match ts fs bs = true -> length bs = length ts.
Proof.
  revert fs bs. induction ts as [|t ts IH]; intros fs bs H.
  - destruct bs; simpl in H; [reflexivity|discriminate].
  - destruct fs as [|f fs]; [discriminate|].
    destruct bs as [|b bs]; [discriminate|]. simpl in H.
    apply andb_true_iff in H. destruct H as (_ & H).
    simpl. f_equal. eauto.
Qed.

Lemma clamp_nonneg n i : 0 <= i -> clamp n i = Z.to_nat (Z.min i (Z.of_nat n)).
Proof.
  intros H. unfold clamp.
  destruct (i <? 0) eqn:E; [apply Z.ltb_lt in E; lia|].
  f_equal. lia.
Qed.

Lemma slice_length_nonneg {T : Type} (l : list T) lo hi :
  0 <= lo -> lo <= hi ->
  Z.of_nat (length (slice l lo hi))
  = Z.min hi (Z.of_nat (length l)) - Z.min lo (Z.of_nat (length l)).
Proof.
  intros H1 H2. unfold slice.
  rewrite !clamp_nonneg by lia.
  rewrite length_firstn, length_skipn. lia.
Qed.

(** A match of a non-empty fragment at a non-negative position lies
    within the target. *)
Lemma matched_in_target e (target : list Z) p :
  matches e (slice target p (p + Z.of_nat (len e))) = true ->
  0 <= p ->
  len e = frag_len (path e) ->
  (1 <= len e)%nat ->
  p + Z.of_nat (len e) <= Z.of_nat (length target).
Proof.
  unfold matches, frag_eq_bytes. intros H HP HL H1.
  apply all_match_length in H. fold (frag_len (path e)) in H.
  pose proof (slice_length_nonneg target p (p + Z.of_nat (len e)) HP) as S.
  rewrite H, <- HL in S. lia.
Qed.

Lemma getitem_cases {T : Type} (l : list T) i :
  (exists x, getitem l i = Ok x) \/ getitem l i = Raise IndexError.
Proof.
  unfold getitem, nth_item.
  destruct (0 <=? i).
  - destruct (nth_error l (Z.to_nat i)); eauto.
  - destruct (0 <=? Z.of_nat (length l) + i); auto.
    destruct (nth_error l (Z.to_nat (Z.of_nat (length l) + i))); eauto.
Qed.

Lemma getitem_Ok_lt {T : Type} (l : list T) i x :
  getitem l i = Ok x -> 0 <= i -> i < Z.of_nat (length l).
Proof.
  unfold getitem. intros H HI.
  destruct (0 <=? i) eqn:E; [|apply Z.leb_gt in E; lia].
  apply nth_item_lt in H. lia.
Qed.

Lemma getitem_in_range {T : Type} (l : list T) i :
  0 <= i < Z.of_nat (length l) -> exists x, getitem l i = Ok x.
Proof.
  intros H. unfold getitem, nth_item.
  destruct (0 <=? i) eqn:E; [|apply Z.leb_gt in E; lia].
  destruct (nth_error l (Z.to_nat i)) eqn:EN; eauto.
  apply nth_error_None in EN. lia.
Qed.

(* ================================================================== *)
(** ** The cost of an exploration *)
(* ================================================================== *)

Lemma explore_cost_pos B d : (1 <= explore_cost B d)%nat.
Proof. destruct d; simpl; lia. Qed.

Lemma explore_cost_mono B d d' :
  (d <= d')%nat -> (explore_cost B d <= explore_cost B d')%nat.
Proof.
  intros H. induction H as [|d' H IH]; auto.
  cbn [explore_cost]. nia.
Qed.

Lemma stack_cost_app B n (k1 k2 : list (Z * Edge)) :
  stack_cost B n (k1 ++ k2) = (stack_cost B n k1 + stack_cost B n k2)%nat.
Proof.
  unfold stack_cost. induction k1 as [|pe k1 IH]; simpl; auto.
  rewrite IH. lia.
Qed.

Lemma stack_cost_entries B n q (xs : list Edge) :
  stack_cost B n (rev (map (fun e => (q, e)) xs))
  = (length xs * explore_cost B (Z.to_nat (n - q)))%nat.
Proof.
  induction xs as [|x xs IH]; simpl; auto.
  rewrite stack_cost_app, IH. unfold stack_cost. simpl. lia.
Qed.

Lemma stack_cost_push B n q xs rest :
  stack_cost B n (push q xs rest)
  = (length xs * explore_cost B (Z.to_nat (n - q)) + stack_cost B n rest)%nat.
Proof.
  unfold push. now rewrite stack_cost_app, stack_cost_entries.
Qed.

Lemma stack_cost_cons B n p e rest :
  stack_cost B n ((p, e) :: rest)
  = (explore_cost B (Z.to_nat (n - p)) + stack_cost B n rest)%nat.
Proof. reflexivity. Qed.

(** Pushing at most [2 * B] entries that start further in the target
    costs less than the entry they replace. *)
Lemma push_cost_decreases B n p q k :
  p < q -> q <= n -> (k <= 2 * B)%nat ->
  (k * explore_cost B (Z.to_nat (n - q)) + 1
   <= explore_cost B (Z.to_nat (n - p)))%nat.
Proof.
  intros H1 H2 HK.
  replace (Z.to_nat (n - p)) with (S (Z.to_nat (n - p - 1))) by lia.
  cbn [explore_cost].
  assert (M : (explore_cost B (Z.to_nat (n - q))
               <= explore_cost B (Z.to_nat (n - p - 1)))%nat)
    by (apply explore_cost_mono; lia).
  assert (M2 : (k * explore_cost B (Z.to_nat (n - q))
                <= (2 * B) * explore_cost B (Z.to_nat (n - p - 1)))%nat)
    by (apply Nat.mul_le_mono; assumption).
  nia.
Qed.

(* ================================================================== *)
(** ** The exploration loop returns *)
(* ================================================================== *)

Lemma Forall_push g0 pos0 q (xs : list Edge) rest :
  pos0 <= q ->
  (forall x, In x xs -> known_edge g0 x) ->
  Forall (entry_ok g0 pos0) rest ->
  Forall (entry_ok g0 pos0) (push q xs rest).
Proof.
  intros HQ HX HR. unfold push. apply Forall_app. split; [|exact HR].
  apply Forall_forall. intros [q' x] HI.
  apply in_rev in HI. apply in_map_iff in HI.
  destruct HI as (x0 & E & HI). inversion E; subst.
  split; simpl; auto.
Qed.

(** Reading past the end of the target ends the extension of a path. *)
Lemma extend_path_past_end g (target : list Z) p edge rest
      (intermediate : option (MatchRes Payload)) :
  getitem target (p + Z.of_nat (len edge)) = Raise IndexError ->
  extend_path g target p edge rest intermediate
  = Ok (g, StepContinue rest intermediate).
Proof.
  intros H. unfold extend_path. rewrite H. reflexivity.
Qed.

Section ExploreTotal.

Variables (g0 : Graph Payload) (depth : nat -> nat) (B : nat).
Variables (target : list Z) (offset : Z).
Hypothesis W0 : wf_with depth g0.
Hypothesis HB : fan_bound B g0.
Hypothesis Hbc : bin_count g0 <> 0.

Let N : Z := Z.of_nat (length target).

Lemma known_edge_ok e :
  known_edge g0 e -> (to e < nodes g0)%nat /\ (1 <= len e)%nat /\
                     len e = frag_len (path e).
Proof.
  intros (u & b & HI). destruct W0 as (_ & _ & _ & _ & H5).
  destruct (H5 _ _ _ HI) as (O1 & O2 & O3 & _). auto.
Qed.

Lemma reads_node_lists g u :
  reads g0 g -> (u < nodes g0)%nat ->
  exists dd, nth_error (adjacency g) u = Some dd /\
             nth_error (fuzzy_starts g) u = Some (edges_in g0 u Fuzzy) /\
             forall k, bin_edges dd k = edges_in g0 u (Bin k).
Proof.
  intros R L.
  pose proof (reads_wf depth _ _ R W0) as (H1 & H2 & _).
  destruct (reads_fields _ _ R) as (F1 & F2 & F3 & F4).
  destruct (nth_error (adjacency g) u) as [dd|] eqn:E.
  2:{ apply nth_error_None in E. lia. }
  exists dd. split; [reflexivity|]. split.
  - destruct (nth_error (fuzzy_starts g) u) as [fs|] eqn:EF.
    + rewrite <- (reads_edges_in _ _ R).
      now rewrite (edges_in_fuzzy _ _ _ EF).
    + apply nth_error_None in EF. lia.
  - intros k. rewrite <- (reads_edges_in _ _ R).
    now rewrite (edges_in_bin _ _ _ k E).
Qed.

Lemma extend_path_total g p e rest (intermediate : option (MatchRes Payload))
      pos0 :
  reads g0 g ->
  known_edge g0 e ->
  pos0 <= p -> 0 <= p ->
  p + Z.of_nat (len e) <= N ->
  Forall (entry_ok g0 pos0) rest ->
  exists g1 st',
    extend_path g target p e rest intermediate
    = Ok (g1, StepContinue st' intermediate) /\
    Forall (entry_ok g0 pos0) st' /\
    (stack_cost B N st' + 1 <= stack_cost B N ((p, e) :: rest))%nat.
Proof.
  intros R HK HP0 HP HN HR.
  destruct (known_edge_ok e HK) as (O1 & O2 & O3).
  destruct (reads_fields _ _ R) as (F1 & F2 & F3 & F4).
  destruct (getitem_cases target (p + Z.of_nat (len e))) as [(byte_ & E)|E].
  - pose proof (getitem_Ok_lt _ _ _ E) as LT.
    unfold extend_path. rewrite E.
    rewrite to_bin_Ok by congruence. simpl.
    destruct (reads_node_lists g (to e) R O1) as (dd & HA & HF & HE).
    unfold nth_item at 1. rewrite HA. simpl.
    pose proof (dd_get_value Z.eqb dd (byte_ mod bin_count g)) as HV.
    destruct (dd_get Z.eqb dd (byte_ mod bin_count g)) as [es dd'].
    simpl in HV. fold (bin_edges dd (byte_ mod bin_count g)) in HV.
    rewrite HE in HV. subst es.
    unfold nth_item. simpl. rewrite HF. simpl.
    eexists. eexists. split; [reflexivity|]. split.
    + apply Forall_push; auto; [lia|].
      intros x HI. apply in_app_or in HI. destruct HI as [HI|HI];
        eexists; eexists; exact HI.
    + rewrite stack_cost_push, ?stack_cost_cons.
      pose proof (push_cost_decreases B N p (p + Z.of_nat (len e))
                    (length (edges_in g0 (to e) (Bin (byte_ mod bin_count g))
                             ++ edges_in g0 (to e) Fuzzy))) as PC.
      assert (LK : (length (edges_in g0 (to e) (Bin (byte_ mod bin_count g))
                            ++ edges_in g0 (to e) Fuzzy) <= 2 * B)%nat).
      { rewrite length_app.
        pose proof (HB (to e) (Bin (byte_ mod bin_count g))).
        pose proof (HB (to e) Fuzzy). lia. }
      specialize (PC ltac:(lia) ltac:(unfold N in *; lia) LK). lia.
  - rewrite extend_path_past_end by exact E.
    eexists. eexists. split; [reflexivity|]. split; [exact HR|].
    rewrite ?stack_cost_cons.
    pose proof (explore_cost_pos B (Z.to_nat (N - p))). lia.
Qed.

Lemma explore_step_total g p e rest (intermediate : option (MatchRes Payload))
      pos0 :
  reads g0 g ->
  known_edge g0 e ->
  pos0 <= p -> 0 <= p ->
  Forall (entry_ok g0 pos0) rest ->
  inter_ok pos0 intermediate ->
  exists g1 r1,
    explore_step g target offset p e rest intermediate = Ok (g1, r1) /\
    match r1 with
    | StepBreak _ q => pos0 < q
    | StepContinue st' i' =>
        Forall (entry_ok g0 pos0) st' /\ inter_ok pos0 i' /\
        (stack_cost B N st' + 1 <= stack_cost B N ((p, e) :: rest))%nat
    end.
Proof.
  intros R HK HP0 HP HR HI.
  destruct (known_edge_ok e HK) as (O1 & O2 & O3).
  unfold explore_step.
  destruct (matches e (slice target p (p + Z.of_nat (len e)))) eqn:EM.
  2:{ eexists. eexists. split; [reflexivity|].
      split; [exact HR|]. split; [exact HI|].
      rewrite ?stack_cost_cons.
      pose proof (explore_cost_pos B (Z.to_nat (N - p))). lia. }
  pose proof (matched_in_target e target p EM HP O3 O2) as HN.
  pose proof (@reads_payloads Payload g (to e) _ (reads_none _)) as HD.
  destruct (dd_get Nat.eqb (data g) (to e)) as [d data']. simpl in HD.
  assert (R1 : reads g0 (set_data g data')) by (eapply reads_trans; eauto).
  destruct (nonempty d) eqn:EN.
  - destruct (reads_node_lists _ (to e) R1 O1) as (dd & HA & HF & HE).
    unfold nth_item at 1. rewrite HA. simpl.
    simpl in HF.
    match goal with
    | |- exists _ _, bind ?X _ = _ /\ _ =>
        assert (EH : exists h, X = Ok h)
    end.
    { destruct (dd_truthy dd); [eauto|].
      unfold nth_item. rewrite HF. simpl. eauto. }
    destruct EH as (h & EH). rewrite EH. simpl.
    destruct h; simpl.
    + destruct intermediate as [[[d0 old_size] e0]|].
      * destruct (match_size e <=? old_size).
        -- eexists. eexists. split; [reflexivity|].
           split; [exact HR|]. split; [exact HI|].
           rewrite ?stack_cost_cons.
           pose proof (explore_cost_pos B (Z.to_nat (N - p))). lia.
        -- destruct (extend_path_total (set_data g data') p e rest
                       (Some (d, match_size e, p + Z.of_nat (len e))) pos0)
             as (g1 & st' & E1 & F1 & C1); auto.
           rewrite E1. eexists. eexists. split; [reflexivity|].
           split; [exact F1|]. split; [simpl; lia|exact C1].
      * destruct (extend_path_total (set_data g data') p e rest
                    (Some (d, match_size e, p + Z.of_nat (len e))) pos0)
          as (g1 & st' & E1 & F1 & C1); auto.
        rewrite E1. eexists. eexists. split; [reflexivity|].
        split; [exact F1|]. split; [simpl; lia|exact C1].
    + eexists. eexists. split; [reflexivity|]. simpl. lia.
  - destruct (extend_path_total (set_data g data') p e rest intermediate pos0)
      as (g1 & st' & E1 & F1 & C1); auto.
    rewrite E1. eexists. eexists. split; [reflexivity|].
    split; [exact F1|]. split; [exact HI|exact C1].
Qed.

Lemma explore_total fuel :
  forall g stack (intermediate : option (MatchRes Payload)) pos0,
    reads g0 g ->
    0 <= pos0 ->
    Forall (entry_ok g0 pos0) stack ->
    inter_ok pos0 intermediate ->
    (stack_cost B N stack < fuel)%nat ->
    exists g' r,
      explore fuel g target offset stack intermediate = Ok (g', r) /\
      match r with
      | Broke _ q => pos0 < q
      | Exhausted i => inter_ok pos0 i
      end.
Proof.
  induction fuel as [|fuel IH]; intros g stack intermediate pos0 R HP HS HI HC.
  - lia.
  - simpl. destruct stack as [|[p e] rest].
    + eexists. eexists. split; [reflexivity|]. exact HI.
    + inversion HS as [|x l [HP0 HK] HR]; subst. simpl in HP0, HK.
      destruct (explore_step_total g p e rest intermediate pos0)
        as (g1 & r1 & E1 & P1); auto; [lia|].
      rewrite E1. simpl.
      destruct r1 as [res q|st' i'].
      * eexists. eexists. split; [reflexivity|]. exact P1.
      * destruct P1 as (F1 & I1 & C1).
        apply IH; auto; [|lia].
        eapply reads_trans; [exact R|].
        eapply explore_step_reads; eauto.
Qed.

Lemma attempt_total inner g align pos :
  reads g0 g ->
  0 <= pos < N ->
  0 < align ->
  (explore_fuel B target <= inner)%nat ->
  exists g' ys pos',
    attempt inner g target offset align pos = Ok (g', ys, pos') /\
    pos < pos'.
Proof.
  intros R HP HA HF. unfold attempt.
  destruct (getitem_in_range target pos HP) as (byte_ & E). rewrite E.
  destruct (reads_fields _ _ R) as (F1 & F2 & F3 & F4).
  cbn [bind]. rewrite to_bin_Ok by congruence. simpl.
  assert (L0 : (0 < nodes g0)%nat) by (destruct W0 as (_ & _ & L & _); lia).
  destruct (reads_node_lists g 0%nat R L0) as (dd & HAD & HFZ & HE).
  unfold nth_item at 1. rewrite HAD. simpl.
  pose proof (@reads_bin Payload g 0%nat dd (byte_ mod bin_count g) _ HAD
                         (or_introl eq_refl) (reads_none _)) as R1.
  pose proof (dd_get_value Z.eqb dd (byte_ mod bin_count g)) as HV.
  destruct (dd_get Z.eqb dd (byte_ mod bin_count g)) as [es dd'].
  simpl in HV, R1. fold (bin_edges dd (byte_ mod bin_count g)) in HV.
  rewrite HE in HV. subst es.
  unfold nth_item. rewrite HFZ. cbn [bind].
  destruct (explore_total inner
              (set_adjacency g (set_nth (adjacency g) 0 dd'))
              (push pos (edges_in g0 0 (Bin (byte_ mod bin_count g))
                         ++ edges_in g0 0 Fuzzy) [])
              None pos) as (g2 & r & E2 & P2).
  - eapply reads_trans; eauto.
  - lia.
  - apply Forall_push; auto; [lia|].
    intros x HI. apply in_app_or in HI. destruct HI as [HI|HI];
      eexists; eexists; exact HI.
  - exact I.
  - rewrite stack_cost_push. unfold stack_cost at 1. simpl fold_right.
    assert (LK : (length (edges_in g0 0 (Bin (byte_ mod bin_count g))
                          ++ edges_in g0 0 Fuzzy) <= 2 * B)%nat).
    { rewrite length_app.
      pose proof (HB 0%nat (Bin (byte_ mod bin_count g))).
      pose proof (HB 0%nat Fuzzy). lia. }
    assert (M : (explore_cost B (Z.to_nat (N - pos))
                 <= explore_cost B (length target))%nat)
      by (apply explore_cost_mono; unfold N; lia).
    unfold explore_fuel in HF.
    assert (M2 : (length (edges_in g0 0 (Bin (byte_ mod bin_count g))
                          ++ edges_in g0 0 Fuzzy)
                  * explore_cost B (Z.to_nat (N - pos))
                  <= 2 * B * explore_cost B (length target))%nat)
      by (apply Nat.mul_le_mono; assumption).
    lia.
  - rewrite E2. simpl.
    assert (EP : exists ys pos1,
               match r with
               | Broke res pos'0 => ([res], pos'0)
               | Exhausted (Some (d, ms, p)) => ([(d, ms, p + offset)], p)
               | Exhausted None => ([], pos + 1)
               end = (ys, pos1) /\ pos < pos1).
    { destruct r as [res q|[[[d ms] q]|]]; simpl in P2;
        eexists; eexists; (split; [reflexivity|lia]). }
    destruct EP as (ys & pos1 & EP & HP1). rewrite EP.
    unfold mod_. destruct (align =? 0) eqn:EA; [apply Z.eqb_eq in EA; lia|].
    simpl. eexists. eexists. eexists. split; [reflexivity|].
    pose proof (Z.mod_pos_bound (- pos1 - offset) align HA). lia.
Qed.

Lemma match_loop_total inner fuel align :
  forall g pos,
    reads g0 g ->
    0 <= pos ->
    0 < align ->
    (explore_fuel B target <= inner)%nat ->
    (Z.to_nat (N - pos) < fuel)%nat ->
    exists g' ys, match_loop inner fuel g target offset align pos = Ok (g', ys).
Proof.
  induction fuel as [|fuel IH]; intros g pos R HP HA HI HF.
  - lia.
  - simpl. fold N.
    destruct (pos <? N) eqn:E.
    + apply Z.ltb_lt in E.
      destruct (attempt_total inner g align pos R) as (g1 & ys & pos' & E1 & P1);
        auto.
      rewrite E1. simpl.
      destruct (IH g1 pos') as (g2 & zs & E2); auto; try lia.
      * eapply reads_trans; [exact R|]. eapply attempt_reads; eauto.
      * rewrite E2. simpl. eauto.
    + eauto.
Qed.

End ExploreTotal.

(** C9, as the code has it: the scan of any target, with any base offset
    and any positive alignment, over a graph built by the operations of
    [Graph] (with a non-zero bin count) returns: no exception, and so no
    [IndexError], reaches its caller.  The read of the byte past the end
    of the target, while a path is extended, ends that extension and the
    exploration goes on with the stack as it was.  (The read at the head
    of the loop is guarded by [pos < end_pos] alone, which a cursor that
    a negative alignment has moved below [-len(target)] passes.) *)
Theorem scan_returns g (target : list Z) (offset align : Z) :
  reachable g ->
  bin_count g <> 0 ->
  0 < align ->
  (forall p edge rest (intermediate : option (MatchRes Payload)),
      getitem target (p + Z.of_nat (len edge)) = Raise IndexError ->
      extend_path g target p edge rest intermediate
      = Ok (g, StepContinue rest intermediate)) /\
  exists N, forall fuel, (N <= fuel)%nat ->
    exists g' ys, match_ fuel g target offset align = Ok (g', ys).
Proof.
  intros HR Hbc HA. split.
  - intros p edge rest intermediate H. apply extend_path_past_end. exact H.
  - destruct (reachable_wf g HR) as (depth & W).
    destruct (depth_bound_exists depth g) as (D & HD).
    destruct (fan_bound_exists g) as (B & HB).
    exists (S D + explore_fuel B target + S (length target))%nat.
    intros fuel HF. unfold match_.
    destruct (finalize_total depth D g fuel W HD) as (gf & E & S & _);
      [lia|].
    rewrite E. simpl.
    pose proof (wf_sim _ _ _ W S) as Wf.
    pose proof (fan_bound_sim _ _ _ HB S) as HBf.
    assert (Hbcf : bin_count gf <> 0).
    { destruct S as (_ & _ & A3 & _). congruence. }
    apply (match_loop_total gf depth B target offset Wf HBf Hbcf
                            fuel fuel align gf 0);
      auto; try lia.
    apply reads_none.
Qed.

(* ================================================================== *)
(** ** A signature and an extension of it *)
(* ================================================================== *)

Lemma bucket_sim_singleton e es :
  bucket_sim [e] es -> exists e', es = [e'] /\ unweighted e' = unweighted e.
Proof.
  intros [L H]. destruct es as [|e' [|x es]]; simpl in L; try discriminate.
  exists e'. split; auto.
  destruct (H e' (or_introl eq_refl)) as (e0 & [<-|[]] & E). exact E.
Qed.

Lemma bucket_sim_nil es : bucket_sim [] es -> es = [].
Proof.
  intros [L _]. destruct es; simpl in L; [reflexivity|discriminate].
Qed.

Lemma unweighted_fields e e' :
  unweighted e' = unweighted e ->
  to e' = to e /\ path e' = path e /\ len e' = len e /\
  match_size e' = match_size e.
Proof.
  unfold unweighted, with_weight. intros H. inversion H. auto.
Qed.

Lemma bucket_of_same_bin_count g g' p :
  bin_count g' = bin_count g -> bucket_of g' p = bucket_of g p.
Proof.
  unfold bucket_of. intros ->. reflexivity.
Qed.

Lemma only_edge_sim g g' u p e :
  sim g g' -> only_edge g u p e ->
  exists e', only_edge g' u p e' /\ unweighted e' = unweighted e.
Proof.
  intros S (H1 & H2). pose proof S as (_ & _ & A3 & _ & _ & _ & A7).
  pose proof (A7 u (bucket_of g p)) as B1. rewrite H1 in B1.
  apply bucket_sim_singleton in B1. destruct B1 as (e' & E1 & E2).
  exists e'. split; [|exact E2]. unfold only_edge.
  rewrite (bucket_of_same_bin_count g g' p A3). split; [exact E1|].
  intros b Hb. pose proof (A7 u b) as B2. rewrite (H2 b Hb) in B2.
  apply bucket_sim_nil. exact B2.
Qed.

Lemma only_edge_reads g g' u p e :
  reads g g' -> only_edge g u p e -> only_edge g' u p e.
Proof.
  intros R (H1 & H2). destruct (reads_fields _ _ R) as (_ & _ & F3 & _).
  unfold only_edge. rewrite (bucket_of_same_bin_count g g' p F3).
  rewrite !(reads_edges_in _ _ R). split; [exact H1|].
  intros b Hb. rewrite (reads_edges_in _ _ R). auto.
Qed.

Lemma payloads_sim g g' n : sim g g' -> payloads g' n = payloads g n.
Proof.
  intros (_ & A2 & _). unfold payloads. now rewrite A2.
Qed.

Lemma in_range_sim g g' u : sim g g' -> in_range g u -> in_range g' u.
Proof.
  intros (_ & _ & _ & A4 & A5 & _) [H1 H2]. unfold in_range. lia.
Qed.

Lemma in_range_reads g g' u : reads g g' -> in_range g u -> in_range g' u.
Proof.
  intros R [H1 H2]. destruct (reads_fields _ _ R) as (_ & F2 & _ & F4).
  unfold in_range. rewrite F2, F4. auto.
Qed.

Lemma leaf_node_sim g g' u : sim g g' -> leaf_node g u -> leaf_node g' u.
Proof.
  intros S (H1 & H2). pose proof S as (_ & _ & _ & A4 & A5 & A6 & A7).
  assert (L1 : (u < length (adjacency g))%nat)
    by (apply nth_error_Some; congruence).
  assert (L2 : (u < length (fuzzy_starts g))%nat)
    by (apply nth_error_Some; congruence).
  split.
  - destruct (nth_error (adjacency g') u) as [dd|] eqn:E.
    + pose proof (A6 u) as K.
      rewrite (nth_error_nth _ _ _ E), (nth_error_nth _ _ _ H1) in K.
      destruct dd; [reflexivity|discriminate].
    + apply nth_error_None in E. lia.
  - destruct (nth_error (fuzzy_starts g') u) as [fs|] eqn:E.
    + pose proof (A7 u Fuzzy) as K.
      rewrite (edges_in_fuzzy _ _ _ E), (edges_in_fuzzy _ _ _ H2) in K.
      apply bucket_sim_nil in K. now subst.
    + apply nth_error_None in E. lia.
Qed.

(** A leaf that carries payloads keeps no bin: the scan yields there and
    never reads its bins. *)
Lemma leaf_node_reads g g' u :
  reads g g' ->
  leaf_node g u -> nonempty (payloads g u) = true -> u <> 0%nat ->
  leaf_node g' u.
Proof.
  induction 1 as [g|g n g' R IH|g u' dd k g' HN HM R IH];
    intros (H1 & H2) HP HU.
  - split; assumption.
  - apply IH; auto.
    + split; assumption.
    + now rewrite payloads_vivify.
  - apply IH; auto. split; [|exact H2]. simpl.
    destruct (Nat.eq_dec u' u) as [->|N].
    + exfalso. destruct HM as [HM|[HM|(dd0 & HA & HM)]].
      * contradiction.
      * congruence.
      * rewrite H1 in HA. inversion HA; subst dd0.
        destruct HM as [HM|(fs & HF & HM)]; [discriminate|].
        rewrite H2 in HF. inversion HF; subst fs. discriminate.
    + now rewrite nth_error_set_nth_neq by congruence.
Qed.

Lemma two_level_sim g g' short ext (ps pl : Payload) n1 n2 :
  sim g g' -> two_level g short ext ps pl n1 n2 ->
  two_level g' short ext ps pl n1 n2.
Proof.
  intros S (e1 & e2 & A1 & A2 & A3 & A4 & B1 & B2 & B3 & B4 & B5 &
            P1 & P2 & LF & NZ & R0 & R1 & HL).
  destruct (only_edge_sim _ _ _ _ _ S A1) as (e1' & A1' & U1).
  destruct (only_edge_sim _ _ _ _ _ S B1) as (e2' & B1' & U2).
  destruct (unweighted_fields _ _ U1) as (T1 & T2 & T3 & T4).
  destruct (unweighted_fields _ _ U2) as (V1 & V2 & V3 & V4).
  exists e1', e2'. unfold two_level_with.
  rewrite T1, T2, T3, V1, V2, V3, V4, !(payloads_sim _ _ _ S).
  repeat (split; [assumption|]).
  split; [eapply leaf_node_sim; eauto|]. split; [assumption|].
  split; [eapply in_range_sim; eauto|].
  split; [eapply in_range_sim; eauto|].
  eapply sim_lists_agree; eauto.
Qed.

Lemma two_level_reads g g' short ext (ps pl : Payload) n1 n2 e1 e2 :
  reads g g' -> two_level_with g short ext ps pl n1 n2 e1 e2 ->
  two_level_with g' short ext ps pl n1 n2 e1 e2.
Proof.
  intros R (A1 & A2 & A3 & A4 & B1 & B2 & B3 & B4 & B5 &
            P1 & P2 & LF & NZ & R0 & R1 & HL).
  unfold two_level_with. rewrite !(reads_payloads_same _ _ R).
  split; [eapply only_edge_reads; eauto|].
  repeat (split; [assumption|]).
  split; [eapply only_edge_reads; eauto|].
  repeat (split; [assumption|]).
  split; [eapply leaf_node_reads; eauto; rewrite P2; reflexivity|].
  split; [assumption|].
  split; [eapply in_range_reads; eauto|].
  split; [eapply in_range_reads; eauto|].
  destruct (reads_fields _ _ R) as (_ & F2 & _ & F4). congruence.
Qed.

(* ------------------------------------------------------------------ *)
(** *** An occurrence of the extension in the target *)

Lemma firstn_add {T : Type} (a b : nat) (m : list T) :
  firstn (a + b) m = firstn a m ++ firstn b (skipn a m).
Proof.
  revert m. induction a as [|a IH]; intros m; simpl; auto.
  destruct m as [|x m]; simpl.
  - now rewrite firstn_nil.
  - f_equal. apply IH.
Qed.

Lemma slice_within {T : Type} (l : list T) lo hi :
  0 <= lo -> lo <= hi -> hi <= Z.of_nat (length l) ->
  slice l lo hi = firstn (Z.to_nat (hi - lo)) (skipn (Z.to_nat lo) l).
Proof.
  intros H1 H2 H3. unfold slice. rewrite !clamp_nonneg by lia.
  f_equal; [lia|]. f_equal. lia.
Qed.

Lemma slice_app {T : Type} (l : list T) p (a b : nat) :
  0 <= p -> p + Z.of_nat (a + b) <= Z.of_nat (length l) ->
  slice l p (p + Z.of_nat (a + b))
  = slice l p (p + Z.of_nat a)
    ++ slice l (p + Z.of_nat a) (p + Z.of_nat a + Z.of_nat b).
Proof.
  intros H1 H2. rewrite !slice_within by lia.
  replace (Z.to_nat (p + Z.of_nat (a + b) - p)) with (a + b)%nat by lia.
  replace (Z.to_nat (p + Z.of_nat a - p)) with a by lia.
  replace (Z.to_nat (p + Z.of_nat a + Z.of_nat b - (p + Z.of_nat a)))
    with b by lia.
  rewrite firstn_add. f_equal. f_equal.
  rewrite skipn_skipn. f_equal. lia.
Qed.

Lemma all_match_app t1 f1 b1 t2 f2 b2 :
  length f1 = length t1 -> length b1 = length t1 ->
  all_match (t1 ++ t2) (f1 ++ f2) (b1 ++ b2)
  = all_match t1 f1 b1 && all_match t2 f2 b2.
Proof.
  revert f1 b1. induction t1 as [|t t1 IH]; intros [|f f1] [|b b1] H1 H2;
    simpl in *; try discriminate.
  - destruct t2, f2, b2; reflexivity.
  - rewrite IH by lia. now rewrite andb_assoc.
Qed.

(** An occurrence of [short ++ ext] at [pos] is an occurrence of [short]
    at [pos] followed by one of [ext]. *)
Lemma occurrence_split short ext (target : list Z) pos :
  frag_wf short -> (1 <= frag_len short)%nat -> 0 <= pos ->
  frag_eq_bytes (frag_app short ext)
    (slice target pos (pos + Z.of_nat (frag_len short + frag_len ext))) = true ->
  pos + Z.of_nat (frag_len short + frag_len ext) <= Z.of_nat (length target) /\
  frag_eq_bytes short (slice target pos (pos + Z.of_nat (frag_len short)))
  = true /\
  frag_eq_bytes ext
    (slice target (pos + Z.of_nat (frag_len short))
           (pos + Z.of_nat (frag_len short) + Z.of_nat (frag_len ext))) = true.
Proof.
  intros WS LS HP H. unfold frag_eq_bytes, frag_app in *. simpl in H.
  pose proof (all_match_length _ _ _ H) as L.
  rewrite length_app in L. fold (frag_len short) (frag_len ext) in L.
  assert (HN : pos + Z.of_nat (frag_len short + frag_len ext)
               <= Z.of_nat (length target)).
  { pose proof (slice_length_nonneg target pos
                  (pos + Z.of_nat (frag_len short + frag_len ext)) HP) as S.
    rewrite L in S. lia. }
  split; [exact HN|].
  rewrite slice_app in H by lia.
  rewrite all_match_app in H.
  - apply andb_true_iff in H. exact H.
  - exact WS.
  - fold (frag_len short).
    pose proof (slice_length_nonneg target pos
                  (pos + Z.of_nat (frag_len short)) HP) as S.
    lia.
Qed.

Lemma skipn_nth_error {T : Type} (l : list T) n x :
  nth_error l n = Some x -> skipn n l = x :: skipn (S n) l.
Proof.
  revert n. induction l as [|y l IH]; intros [|n] H; simpl in *;
    try discriminate.
  - inversion H. reflexivity.
  - rewrite (IH n H). reflexivity.
Qed.

(** Where a fragment occurs, the byte there selects the list of the
    fragment: the fuzzy-start list, or the bin of that byte. *)
Lemma occurrence_first_byte g p (target : list Z) q :
  (1 <= frag_len p)%nat -> 0 <= q ->
  frag_eq_bytes p (slice target q (q + Z.of_nat (frag_len p))) = true ->
  exists b0,
    getitem target q = Ok b0 /\
    (bucket_of g p = Fuzzy \/ bucket_of g p = Bin (b0 mod bin_count g)).
Proof.
  intros L HQ H. unfold frag_eq_bytes in H.
  pose proof (all_match_length _ _ _ H) as LB. fold (frag_len p) in LB.
  pose proof (slice_length_nonneg target q (q + Z.of_nat (frag_len p)) HQ) as S.
  rewrite LB in S.
  assert (HN : q + Z.of_nat (frag_len p) <= Z.of_nat (length target)) by lia.
  destruct (getitem_in_range target q) as (b0 & E); [lia|].
  exists b0. split; [exact E|].
  rewrite slice_within in H by lia.
  unfold getitem in E. destruct (0 <=? q) eqn:EQ; [|apply Z.leb_gt in EQ; lia].
  apply nth_item_Ok in E. rewrite (skipn_nth_error _ _ _ E) in H.
  replace (Z.to_nat (q + Z.of_nat (frag_len p) - q)) with (frag_len p) in H
    by lia.
  unfold bucket_of. unfold frag_len in *.
  destruct (template p) as [|t0 ts]; [simpl in L; lia|].
  destruct (fuzziness p) as [|f0 fs]; [discriminate|].
  simpl in H. apply andb_true_iff in H. destruct H as (H & _).
  unfold pos_matches in H. destruct f0; [left; reflexivity|].
  simpl in H. apply Z.eqb_eq in H. subst. right. reflexivity.
Qed.

(** What the scan pushes at a node with a single edge. *)
Lemma only_edge_pushed g u p e k :
  only_edge g u p e ->
  bucket_of g p = Fuzzy \/ bucket_of g p = Bin k ->
  edges_in g u (Bin k) ++ edges_in g u Fuzzy = [e].
Proof.
  intros (H1 & H2) [E|E]; rewrite E in *.
  - rewrite H1, H2 by discriminate. reflexivity.
  - rewrite H1, H2 by discriminate. reflexivity.
Qed.

Lemma only_edge_has_edges g u p e dd fs :
  only_edge g u p e ->
  nth_error (adjacency g) u = Some dd ->
  nth_error (fuzzy_starts g) u = Some fs ->
  (dd_truthy dd || nonempty fs) = true.
Proof.
  intros (H1 & _) HA HF.
  destruct (bucket_of g p) as [|k].
  - rewrite (edges_in_fuzzy _ _ _ HF) in H1. subst fs.
    apply orb_true_r.
  - rewrite (edges_in_bin _ _ _ k HA) in H1. unfold bin_edges in H1.
    destruct dd; [discriminate|]. reflexivity.
Qed.

Lemma in_range_nth g u :
  in_range g u ->
  exists dd fs, nth_error (adjacency g) u = Some dd /\
                nth_error (fuzzy_starts g) u = Some fs.
Proof.
  intros [H1 H2].
  destruct (nth_error (adjacency g) u) as [dd|] eqn:E1.
  2:{ apply nth_error_None in E1. lia. }
  destruct (nth_error (fuzzy_starts g) u) as [fs|] eqn:E2.
  2:{ apply nth_error_None in E2. lia. }
  eauto.
Qed.

Section Occurrence.

Variables (short ext : MatchFragment) (ps pl : Payload) (n1 n2 : nat).
Variables (target : list Z) (offset : Z) (pos : Z).
Hypothesis WS : frag_wf short.
Hypothesis LS : (1 <= frag_len short)%nat.
Hypothesis LX : (1 <= frag_len ext)%nat.
Hypothesis HP : 0 <= pos.
Hypothesis HOCC :
  frag_eq_bytes (frag_app short ext)
    (slice target pos (pos + Z.of_nat (frag_len short + frag_len ext))) = true.

(** The exploration from the edge of the shorter signature, at an
    occurrence of the longer one: it records the end node of that edge,
    goes on to the edge of the extension, and leaves with the match of
    the longer signature. *)
Lemma explore_two_level fuel g e1 e2 :
  two_level_with g short ext ps pl n1 n2 e1 e2 ->
  bin_count g <> 0 ->
  exists g',
    explore (S (S fuel)) g target offset [(pos, e1)] None
    = Ok (g', Broke ([Some pl], Z.of_nat (frag_len short + frag_len ext),
                     pos + Z.of_nat (frag_len short + frag_len ext) + offset)
                    (pos + Z.of_nat (frag_len short + frag_len ext))).
Proof.
  intros T Hbc. pose proof T as
      (A1 & A2 & A3 & A4 & B1 & B2 & B3 & B4 & B5 &
       P1 & P2 & LF & NZ & R0 & R1 & HL).
  destruct (occurrence_split short ext target pos WS LS HP HOCC)
    as (HN & M1 & M2).
  destruct (occurrence_first_byte g ext target
              (pos + Z.of_nat (frag_len short)) LX ltac:(lia) M2)
    as (b1 & G1 & K1).
  destruct (in_range_nth g n1 R1) as (dd1 & fs1 & HA1 & HF1).
  (* the pass at the edge of the shorter signature *)
  destruct (explore_step_inner_node g target offset pos e1 [] None
              dd1 fs1 b1) as (g1 & E1).
  { unfold matches. rewrite A3, A4. exact M1. }
  { rewrite A4. exact G1. }
  { rewrite A2. exact HA1. }
  { rewrite A2. exact HF1. }
  { eapply only_edge_has_edges; eauto. }
  { exact Hbc. }
  assert (ER : rejected g dd1 fs1 e1 None = false).
  { unfold rejected. apply andb_false_r. }
  rewrite ER in E1.
  assert (EP : bin_edges dd1 (b1 mod bin_count g) ++ fs1 = [e2]).
  { rewrite <- (edges_in_bin _ _ _ (b1 mod bin_count g) HA1).
    rewrite <- (edges_in_fuzzy _ _ _ HF1).
    eapply only_edge_pushed; eauto. }
  rewrite EP, A4 in E1.
  pose proof (explore_step_reads _ _ _ _ _ _ _ _ _ E1) as RD.
  pose proof (two_level_reads _ _ _ _ _ _ _ _ _ _ RD T) as
      (_ & _ & _ & _ & _ & _ & _ & _ & _ & _ & P2' & (LA & LB) & _).
  (* the pass at the edge of the extension *)
  destruct (explore_step_leaf g1 target offset
              (pos + Z.of_nat (frag_len short)) e2 []
              (recorded g pos e1 None)) as (g2 & E2).
  { unfold matches. rewrite B3, B4. exact M2. }
  { rewrite B2, P2'. reflexivity. }
  { rewrite B2. exact LA. }
  { rewrite B2. exact LB. }
  rewrite B2, P2', B4, B5 in E2.
  exists g2. cbn [explore]. rewrite E1. cbn [bind push rev map app].
  rewrite E2. cbn [bind].
  rewrite Nat2Z.inj_add, !Z.add_assoc. reflexivity.
Qed.

(** The attempt of the scan at that occurrence yields the match of the
    longer signature and nothing else. *)
Lemma attempt_two_level fuel g e1 e2 align :
  two_level_with g short ext ps pl n1 n2 e1 e2 ->
  bin_count g <> 0 ->
  align <> 0 ->
  exists g' pos',
    attempt (S (S fuel)) g target offset align pos
    = Ok (g', [([Some pl], Z.of_nat (frag_len short + frag_len ext),
                pos + Z.of_nat (frag_len short + frag_len ext) + offset)],
          pos').
Proof.
  intros T Hbc HA. pose proof T as
      (A1 & A2 & A3 & A4 & B1 & B2 & B3 & B4 & B5 &
       P1 & P2 & LF & NZ & R0 & R1 & HL).
  destruct (occurrence_split short ext target pos WS LS HP HOCC)
    as (HN & M1 & M2).
  destruct (occurrence_first_byte g short target pos LS HP M1)
    as (b0 & G0 & K0).
  destruct (in_range_nth g 0%nat R0) as (dd0 & fs0 & HA0 & HF0).
  unfold attempt. rewrite G0. cbn [bind].
  rewrite to_bin_Ok by exact Hbc. cbn [bind].
  unfold nth_item at 1. rewrite HA0. cbn [bind].
  pose proof (@reads_bin Payload g 0%nat dd0 (b0 mod bin_count g) _ HA0
                         (or_introl eq_refl) (reads_none _)) as RD.
  pose proof (dd_get_value Z.eqb dd0 (b0 mod bin_count g)) as HV.
  destruct (dd_get Z.eqb dd0 (b0 mod bin_count g)) as [es dd'].
  cbn [fst snd] in HV, RD. fold (bin_edges dd0 (b0 mod bin_count g)) in HV.
  subst es.
  unfold nth_item. cbn [fuzzy_starts set_adjacency]. rewrite HF0. cbn [bind].
  assert (EP : bin_edges dd0 (b0 mod bin_count g) ++ fs0 = [e1]).
  { rewrite <- (edges_in_bin _ _ _ (b0 mod bin_count g) HA0).
    rewrite <- (edges_in_fuzzy _ _ _ HF0).
    eapply only_edge_pushed; eauto. }
  rewrite EP. cbn [push rev map app].
  destruct (explore_two_level fuel _ e1 e2
              (two_level_reads _ _ _ _ _ _ _ _ _ _ RD T))
    as (g2 & E2).
  { exact Hbc. }
  rewrite E2. cbn [bind].
  unfold mod_. destruct (align =? 0) eqn:EA; [apply Z.eqb_eq in EA; lia|].
  cbn [bind]. eexists. eexists. reflexivity.
Qed.

End Occurrence.

(** *** The graph of the two signatures *)

Lemma lcp_app_l (t : list Z) (f : list bool) t' f' :
  length f = length t -> lcp t f (t ++ t') (f ++ f') = length t.
Proof.
  revert f; induction t as [|a t IH]; intros [|x f] H; simpl in *;
    try discriminate; auto.
  unfold pos_agree. rewrite Z.eqb_refl.
  destruct x; simpl; rewrite IH by lia; reflexivity.
Qed.

Lemma lcp_app_r (t : list Z) (f : list bool) t' f' :
  length f = length t -> lcp (t ++ t') (f ++ f') t f = length t.
Proof.
  revert f; induction t as [|a t IH]; intros [|x f] H; simpl in *;
    try discriminate; auto.
  - destruct t', f'; reflexivity.
  - unfold pos_agree. rewrite Z.eqb_refl.
    destruct x; simpl; rewrite IH by lia; reflexivity.
Qed.

Lemma firstn_app_exact {T : Type} (l l' : list T) n :
  n = length l -> firstn n (l ++ l') = l.
Proof.
  intros ->. induction l; simpl; [destruct l'; reflexivity|now f_equal].
Qed.

Lemma skipn_app_exact {T : Type} (l l' : list T) n :
  n = length l -> skipn n (l ++ l') = l'.
Proof.
  intros ->. induction l; simpl; auto.
Qed.

Lemma drop_before_app short ext :
  frag_wf short ->
  drop_before (frag_app short ext) (frag_len short) = ext.
Proof.
  intros W. unfold drop_before, frag_app, frag_len; simpl.
  rewrite !skipn_app_exact by (auto; symmetry; exact W).
  destruct ext; reflexivity.
Qed.

Lemma split_at_app short ext :
  frag_wf short ->
  split_at (frag_app short ext) (frag_len short) = (short, ext).
Proof.
  intros W. unfold split_at, frag_app, frag_len; simpl.
  rewrite !skipn_app_exact, !firstn_app_exact by (auto; symmetry; exact W).
  destruct short, ext; reflexivity.
Qed.

Lemma drop_before_all p :
  frag_wf p -> drop_before p (frag_len p) = mkFragment [] [].
Proof.
  intros W. unfold frag_wf in W. unfold drop_before, frag_len.
  rewrite skipn_all, skipn_all2 by lia. reflexivity.
Qed.

(** The edge of a signature against an extension of it: the whole edge
    is a prefix. *)
Lemma classify_path_extension short ext to_ ms :
  frag_wf short -> (1 <= frag_len ext)%nat ->
  classify_path (new_edge to_ short ms) (frag_app short ext)
  = (PART, frag_len short).
Proof.
  intros W L. unfold classify_path, longest_common_prefix, new_edge.
  cbn [path len frag_app template fuzziness].
  rewrite lcp_app_l by exact W. fold (frag_len short).
  rewrite Nat.eqb_refl. unfold frag_len at 1. cbn [template frag_app].
  rewrite length_app. fold (frag_len short) (frag_len ext).
  destruct (Nat.eqb_spec (frag_len short + frag_len ext) (frag_len short));
    [lia|reflexivity].
Qed.

(** The edge of the extension against the signature: they branch where
    the signature ends. *)
Lemma classify_path_prefix short ext to_ ms :
  frag_wf short -> (1 <= frag_len short)%nat -> (1 <= frag_len ext)%nat ->
  classify_path (new_edge to_ (frag_app short ext) ms) short
  = (BRANCH, frag_len short).
Proof.
  intros W LS L. unfold classify_path, longest_common_prefix, new_edge.
  cbn [path len frag_app template fuzziness].
  rewrite lcp_app_r by exact W. fold (frag_len short).
  unfold frag_len at 2. cbn [template frag_app].
  rewrite length_app. fold (frag_len short) (frag_len ext).
  destruct (Nat.eqb_spec (frag_len short) (frag_len short + frag_len ext));
    [lia|].
  destruct (Nat.eqb_spec (frag_len short) 0); [lia|reflexivity].
Qed.

Lemma frag_head p :
  frag_wf p -> (1 <= frag_len p)%nat ->
  exists t0 f0,
    getitem (template p) 0 = Ok t0 /\ getitem (fuzziness p) 0 = Ok f0 /\
    (0 <? frag_len p)%nat = true /\
    forall g : Graph Payload,
      bucket_of g p = if f0 then Fuzzy else Bin (t0 mod bin_count g).
Proof.
  intros W L. destruct p as [[|t0 ts] [|f0 fs]];
    try (unfold frag_len in L; simpl in L; lia);
    try (unfold frag_wf in W; simpl in W; discriminate).
  exists t0, f0. split; [reflexivity|]. split; [reflexivity|].
  split; [reflexivity|]. intros g. unfold bucket_of. simpl.
  destruct f0; reflexivity.
Qed.

Lemma frag_app_head p q t0 f0 :
  getitem (template p) 0 = Ok t0 -> getitem (fuzziness p) 0 = Ok f0 ->
  getitem (template (frag_app p q)) 0 = Ok t0 /\
  getitem (fuzziness (frag_app p q)) 0 = Ok f0 /\
  (0 <? frag_len (frag_app p q))%nat = true.
Proof.
  destruct p as [[|a ts] [|b fs]]; simpl; intros H1 H2;
    try discriminate.
  cbv in H1, H2. inversion H1; inversion H2; subst. repeat split.
Qed.

Lemma to_new_edge to_ p ms : to (new_edge to_ p ms) = to_.
Proof. reflexivity. Qed.

Lemma frag_len_app p q :
  frag_len (frag_app p q) = (frag_len p + frag_len q)%nat.
Proof. unfold frag_len, frag_app. simpl. apply length_app. Qed.

Ltac insert_steps H :=
  repeat (progress
    (cbn -[classify_path new_edge Z.of_nat Z.modulo drop_before frag_app
           frag_len getitem split_at Nat.ltb Nat.leb Z.eqb Z.sub] in H;
     unfold _add_edge, _split_edge, _to_bin, mod_, dd_append, dd_get in H)).

(** The other lists of a node whose one edge is in a known list. *)
Ltac other_lists :=
  let b := fresh "b" in
  let Hb := fresh "Hb" in
  let k := fresh "k" in
  intros b Hb; destruct b as [|k];
  cbn -[new_edge Z.modulo Z.eqb];
  try reflexivity; try congruence;
  try (match goal with
       | |- context [Z.eqb ?a ?b] =>
           destruct (Z.eqb_spec a b); [subst; congruence|reflexivity]
       end).

Lemma short_first_two_level bc short ext (ps pl : Payload) g :
  bc <> 0 -> frag_wf short -> frag_wf ext ->
  (1 <= frag_len short)%nat -> (1 <= frag_len ext)%nat ->
  inserted_short_first bc short ext ps pl g ->
  two_level g short ext ps pl 1 2 /\ bin_count g = bc.
Proof.
  intros Hbc WS WX LS LX (g1 & r1 & r2 & I1 & I2).
  assert (Ebc : (bc =? 0) = false) by (apply Z.eqb_neq; exact Hbc).
  pose proof (fun to_ ms => classify_path_extension short ext to_ ms WS LX)
    as CE.
  pose proof (drop_before_app short ext WS) as DB.
  destruct (frag_head short WS LS) as (t0 & f0 & ST & SF & SL & SB).
  destruct (frag_head ext WX LX) as (x0 & y0 & XT & XF & XL & XB).
  destruct (frag_app_head short ext t0 f0 ST SF) as (AT & AF & AL).
  unfold insert in I1, I2.
  pose proof (frag_len_app short ext) as FL.
  remember (Z.of_nat (frag_len (frag_app short ext))) as msl eqn:Emsl.
  assert (EFL : exists n, frag_len (frag_app short ext) = S n)
    by (exists (frag_len short + frag_len ext - 1)%nat; lia).
  destruct EFL as (n & EFL).
  rewrite FL in Emsl. clear FL.
  destruct f0, y0.
  all: do 6 (insert_steps I1;
             rewrite ?SL, ?SF, ?ST, ?Ebc, ?Z.eqb_refl in I1).
  all: inversion I1; subst g1 r1; clear I1.
  all: do 6 (insert_steps I2;
             rewrite ?to_new_edge, ?AL, ?AF, ?AT, ?CE, ?DB, ?Ebc,
               ?Z.eqb_refl in I2).
  all: rewrite EFL in I2.
  all: do 6 (insert_steps I2;
             rewrite ?to_new_edge, ?XL, ?XF, ?XT, ?Ebc, ?Z.eqb_refl in I2).
  all: inversion I2; subst g r2; clear I2.
  all: split; [|reflexivity].
  all: exists (new_edge 1 short (Some (Z.of_nat (frag_len short)))),
              (new_edge 2 ext (Some msl)).
  all: unfold two_level_with, only_edge, leaf_node, in_range, payloads,
         edges_in.
  all: rewrite !SB, !XB; cbn -[new_edge Z.modulo Z.eqb Z.of_nat].
  all: rewrite ?Z.eqb_refl.
  all: split; [split; [reflexivity|other_lists]|].
  all: do 3 (split; [reflexivity|]).
  all: split; [split; [reflexivity|other_lists]|].
  all: do 3 (split; [reflexivity|]).
  all: split; [exact Emsl|].
  all: repeat split; try reflexivity; try lia.
Qed.

Lemma new_edge_fields to_ p ms :
  path (new_edge to_ p (Some ms)) = p /\
  match_size (new_edge to_ p (Some ms)) = ms /\
  weight (new_edge to_ p (Some ms)) = NInt ms /\
  len (new_edge to_ p (Some ms)) = frag_len p.
Proof. repeat split. Qed.

Lemma long_first_two_level bc short ext (ps pl : Payload) g :
  bc <> 0 -> frag_wf short -> frag_wf ext ->
  (1 <= frag_len short)%nat -> (1 <= frag_len ext)%nat ->
  inserted_long_first bc short ext ps pl g ->
  two_level g short ext ps pl 2 1 /\ bin_count g = bc.
Proof.
  intros Hbc WS WX LS LX (g1 & r1 & r2 & I1 & I2).
  assert (Ebc : (bc =? 0) = false) by (apply Z.eqb_neq; exact Hbc).
  pose proof (fun to_ ms => classify_path_prefix short ext to_ ms WS LS LX)
    as CP.
  pose proof (split_at_app short ext WS) as SA.
  assert (DL : (0 <? frag_len (drop_before short (frag_len short)))%nat
               = false).
  { rewrite (drop_before_all short WS). reflexivity. }
  destruct (frag_head short WS LS) as (t0 & f0 & ST & SF & SL & SB).
  destruct (frag_head ext WX LX) as (x0 & y0 & XT & XF & XL & XB).
  destruct (frag_app_head short ext t0 f0 ST SF) as (AT & AF & AL).
  unfold insert in I1, I2.
  pose proof (frag_len_app short ext) as FL.
  remember (Z.of_nat (frag_len (frag_app short ext))) as msl eqn:Emsl.
  rewrite FL in Emsl. clear FL.
  destruct f0, y0.
  all: do 6 (insert_steps I1;
             rewrite ?AL, ?AF, ?AT, ?Ebc, ?Z.eqb_refl in I1).
  all: inversion I1; subst g1 r1; clear I1.
  all: do 8 (insert_steps I2;
             rewrite ?to_new_edge, ?SL, ?SF, ?ST, ?CP, ?Ebc, ?Z.eqb_refl in I2;
             rewrite ?(proj1 (new_edge_fields _ _ _)), ?SA, ?DL,
               ?XF, ?XT in I2).
  all: rewrite ?(proj1 (proj2 (new_edge_fields _ _ _))),
         ?(proj1 (proj2 (proj2 (new_edge_fields _ _ _)))) in I2.
  all: inversion I2; subst g r2; clear I2.
  all: split; [|reflexivity].
  all: exists (mkEdge 2 short (frag_len short)
                      (msl - Z.of_nat (frag_len short)) (NInt msl)),
              (new_edge 1 ext (Some msl)).
  all: unfold two_level_with, only_edge, leaf_node, in_range, payloads,
         edges_in.
  all: rewrite !SB, !XB; cbn -[new_edge Z.modulo Z.eqb Z.of_nat Z.sub].
  all: rewrite ?Z.eqb_refl.
  all: split; [split; [reflexivity|other_lists]|].
  all: do 3 (split; [reflexivity|]).
  all: split; [split; [reflexivity|other_lists]|].
  all: do 3 (split; [reflexivity|]).
  all: split; [exact Emsl|].
  all: repeat split; try reflexivity; try lia.
Qed.

(** The matches of a scan are those of its attempts, in order: what the
    attempt at a position the cursor reaches yields is a segment of what
    the scan yields. *)
Lemma match_loop_attempt inner target offset align g p0 gk pos :
  cursor_reaches inner target offset align g p0 gk pos ->
  pos < Z.of_nat (length target) ->
  forall fuel g' ys,
    match_loop inner fuel g target offset align p0 = Ok (g', ys) ->
    exists g1 ysa pos1 ys0 zs,
      attempt inner gk target offset align pos = Ok (g1, ysa, pos1) /\
      ys = ys0 ++ ysa ++ zs.
Proof.
  induction 1 as [g pos|g pos g1 ys1 pos1 g2 pos2 HL HA HR IH];
    intros HP fuel g' ys H.
  - destruct fuel as [|fuel]; [discriminate|]. cbn [match_loop] in H.
    apply Z.ltb_lt in HP. rewrite HP in H.
    inv_bind H. destruct a as [[g1 ys1] pos1].
    inv_bind H. destruct a as [g2 zs]. inversion H; subst; clear H.
    exists g1, ys1, pos1, [], zs. split; [exact Ha|reflexivity].
  - destruct fuel as [|fuel]; [discriminate|]. cbn [match_loop] in H.
    apply Z.ltb_lt in HL. rewrite HL, HA in H. cbn [bind] in H.
    inv_bind H. destruct a as [g3 zs]. inversion H; subst; clear H.
    destruct (IH HP _ _ _ Ha) as (g4 & ysa & pos4 & ys0 & zs' & E & D).
    exists g4, ysa, pos4, (ys1 ++ ys0), zs'. split; [exact E|].
    rewrite D, <- app_assoc. reflexivity.
Qed.


End Verification.

(* ================================================================== *)
(** ** The theorems at concrete signatures *)
(* ================================================================== *)

Import Examples.

Lemma insert_empty_fragment_witness :
  frag_len (lit []) = 0%nat /\
  insert g_abcd (lit []) (Some 9%nat) = Ok (set_finalized g_abcd false, None).
Proof.
  split; [reflexivity|].
  apply (insert_empty_fragment nat g_abcd (lit []) (Some 9%nat)).
  reflexivity.
Defined.



(** The split of the edge [ABCD] at 2: the prefix [AB] has length 2 and
    leads to the new node 2, whose edge [CD] keeps the match size 4. *)
Lemma split_edge_match_sizes_witness :
  (length (adjacency g_abcd) = nodes g_abcd /\
   length (fuzzy_starts g_abcd) = nodes g_abcd /\
   get_edge g_abcd abcd_loc = Ok abcd_edge /\
   _split_edge g_abcd abcd_loc abcd_edge 2 = Ok abcd_split) /\
  exists prefix tail b,
    get_edge abcd_split abcd_loc = Ok prefix /\
    get_bucket abcd_split (nodes g_abcd) b = Ok [tail] /\
    len prefix = 2%nat /\
    to prefix = nodes g_abcd /\
    path prefix = fst (split_at (path abcd_edge) 2) /\
    to tail = to abcd_edge /\
    path tail = snd (split_at (path abcd_edge) 2) /\
    match_size tail = match_size abcd_edge.
Proof.
  assert (H : length (adjacency g_abcd) = nodes g_abcd /\
              length (fuzzy_starts g_abcd) = nodes g_abcd /\
              get_edge g_abcd abcd_loc = Ok abcd_edge /\
              _split_edge g_abcd abcd_loc abcd_edge 2 = Ok abcd_split).
  { repeat split; vm_compute; reflexivity. }
  split; [exact H|].
  destruct H as (H1 & H2 & H3 & H4).
  exact (split_edge_match_sizes nat g_abcd abcd_loc abcd_edge 2 abcd_split
           H1 H2 H3 H4).
Defined.

(** C1 as the spec words it fails: at the split of [ABCD] at 2, the tail
    edge does not carry 4 - 2 and the prefix edge does not keep 4. *)
Lemma split_tail_reduced_counterexample :
  exists prefix tail,
    _split_edge g_abcd abcd_loc abcd_edge 2 = Ok abcd_split /\
    get_edge abcd_split abcd_loc = Ok prefix /\
    get_bucket abcd_split 2 (Bin C) = Ok [tail] /\
    match_size abcd_edge = 4 /\
    match_size tail <> match_size abcd_edge - 2 /\
    match_size prefix <> match_size abcd_edge.
Proof.
  eexists; eexists.
  split; [vm_compute; reflexivity|].
  split; [vm_compute; reflexivity|].
  split; [vm_compute; reflexivity|].
  split; [reflexivity|].
  split; vm_compute; discriminate.
Qed.

(** The same through [insert]: after [ABCD] and [ABXY] the shared edge
    [AB] has match size 2 and the edge [CD] below it match size 4. *)
Example branch_match_sizes :
  exists ab cd,
    get_edge g_branch (0%nat, Bin A, 0%nat) = Ok ab /\
    get_edge g_branch (2%nat, Bin C, 0%nat) = Ok cd /\
    (len ab, match_size ab) = (2%nat, 2) /\
    (len cd, match_size cd) = (2%nat, 4).
Proof.
  eexists; eexists. repeat split; vm_compute; reflexivity.
Qed.

(** The pass of the scan of [ABCD] over [g_rival] that pops [AB] with
    nothing recorded: the edge [CD] of its end node is pushed. *)
Lemma explore_step_pushes_unless_rejected_witness :
  (matches rival_ab
     (slice rival_target 0 (0 + Z.of_nat (len rival_ab))) = true /\
   getitem rival_target (0 + Z.of_nat (len rival_ab)) = Ok C /\
   nth_error (adjacency (finalized_of g_rival)) (to rival_ab)
   = Some rival_bins /\
   nth_error (fuzzy_starts (finalized_of g_rival)) (to rival_ab)
   = Some rival_fuzzy /\
   (dd_truthy rival_bins || nonempty rival_fuzzy) = true /\
   bin_count (finalized_of g_rival) <> 0) /\
  exists g',
    explore_step (finalized_of g_rival) rival_target 0 0 rival_ab [] None
    = Ok (g',
          if rejected (finalized_of g_rival) rival_bins rival_fuzzy
                      rival_ab None
          then StepContinue [] None
          else StepContinue
                 (push (0 + Z.of_nat (len rival_ab))
                       (bin_edges rival_bins
                                  (C mod bin_count (finalized_of g_rival))
                        ++ rival_fuzzy) [])
                 (recorded (finalized_of g_rival) 0 rival_ab None)).
Proof.
  assert (H : matches rival_ab
                (slice rival_target 0 (0 + Z.of_nat (len rival_ab))) = true /\
              getitem rival_target (0 + Z.of_nat (len rival_ab)) = Ok C /\
              nth_error (adjacency (finalized_of g_rival)) (to rival_ab)
              = Some rival_bins /\
              nth_error (fuzzy_starts (finalized_of g_rival)) (to rival_ab)
              = Some rival_fuzzy /\
              (dd_truthy rival_bins || nonempty rival_fuzzy) = true /\
              bin_count (finalized_of g_rival) <> 0).
  { split; [vm_compute; reflexivity|].
    split; [vm_compute; reflexivity|].
    split; [vm_compute; reflexivity|].
    split; [vm_compute; reflexivity|].
    split; [vm_compute; reflexivity|].
    vm_compute. discriminate. }
  split; [exact H|].
  destruct H as (H1 & H2 & H3 & H4 & H5 & H6).
  exact (explore_step_pushes_unless_rejected nat (finalized_of g_rival)
           rival_target 0 0 rival_ab [] None rival_bins rival_fuzzy C
           H1 H2 H3 H4 H5 H6).
Defined.

(** C3 as the spec words it fails.  In the scan of [ABCD] over [g_rival]
    the fuzzy-start edge [?B] is popped first and its end node recorded
    with match size 2; the pass that then pops [AB], whose end node has
    match size 2 too, pushes nothing although the next byte [C] is in
    range and the end node has the edge [CD] in the bin of [C]. *)
Lemma rejected_pushes_nothing_counterexample :
  explore_step (finalized_of g_rival) rival_target 0 0 rival_wb
               [(0, rival_ab)] None
  = Ok (rival_after_pop, StepContinue [(0, rival_ab)] rival_recorded) /\
  explore_step rival_after_pop rival_target 0 0 rival_ab [] rival_recorded
  = Ok (rival_after_pop, StepContinue [] rival_recorded) /\
  ~ always_pushes rival_after_pop rival_target 0 0 rival_ab [] rival_recorded.
Proof.
  split; [vm_compute; reflexivity|].
  assert (E : explore_step rival_after_pop rival_target 0 0 rival_ab []
                           rival_recorded
              = Ok (rival_after_pop, StepContinue [] rival_recorded))
    by (vm_compute; reflexivity).
  split; [exact E|].
  intros H.
  destruct (H (nth (to rival_ab) (adjacency rival_after_pop) [])
              [] C) as (g' & i' & HE);
    try (vm_compute; reflexivity).
  rewrite E in HE. vm_compute in HE. discriminate.
Qed.

(** What the rejection costs: the scan of [ABCD] over [g_rival] yields
    the match of [?B] only, of size 2, and never that of [ABCD]. *)
Example rival_scan :
  exists g', match_ 16 g_rival rival_target 0 2 = Ok (g', [([Some 3%nat], 2, 2)]).
Proof.
  eexists. vm_compute. reflexivity.
Qed.



(** A scan of the byte [X] over the finalized [g_abcd]. *)
Lemma scan_only_reads_witness :
  (finalized fin_abcd = true /\
   match_ 16 fin_abcd [X] 0 2 = Ok (graph_after fin_abcd [X] 0 2, [])) /\
  only_reads fin_abcd (graph_after fin_abcd [X] 0 2).
Proof.
  assert (H : finalized fin_abcd = true /\
              match_ 16 fin_abcd [X] 0 2
              = Ok (graph_after fin_abcd [X] 0 2, [])).
  { split; vm_compute; reflexivity. }
  split; [exact H|].
  destruct H as (H1 & H2).
  exact (scan_only_reads nat 16 fin_abcd [X] 0 2 _ [] H1 H2).
Defined.

(** C4 as the spec words it fails: that scan reads the bin of [X] at the
    root, which the dictionary did not have, and leaves it there. *)
Lemma scan_grows_bins_counterexample :
  finalized fin_abcd = true /\
  match_ 16 fin_abcd [X] 0 2 = Ok (graph_after fin_abcd [X] 0 2, []) /\
  nth_error (adjacency fin_abcd) 0 = Some [(A, [abcd_edge])] /\
  nth_error (adjacency (graph_after fin_abcd [X] 0 2)) 0
  = Some [(A, [abcd_edge]); (X, [])] /\
  ~ scan_changes_nothing 16 fin_abcd [X] 0 2.
Proof.
  assert (E : match_ 16 fin_abcd [X] 0 2
              = Ok (graph_after fin_abcd [X] 0 2, []))
    by (vm_compute; reflexivity).
  split; [vm_compute; reflexivity|].
  split; [exact E|].
  split; [vm_compute; reflexivity|].
  split; [vm_compute; reflexivity|].
  intros H. destruct (H _ _ eq_refl E) as (HA & _).
  vm_compute in HA. discriminate.
Qed.

(** The same for the payloads: the scan of [ABCD] over the finalized
    [g_branch] reads the payloads of the split node 2, which has none. *)
Example scan_grows_payloads :
  data (finalized_of g_branch) = [(1%nat, [Some 1%nat]); (3%nat, [Some 2%nat])]
  /\ data (graph_after (finalized_of g_branch) [A; B; C; D] 0 2)
     = [(1%nat, [Some 1%nat]); (3%nat, [Some 2%nat]); (2%nat, [])].
Proof.
  split; vm_compute; reflexivity.
Qed.

(** One worker, two slices [binary[0:4]] of the binary [ABCD]: the worker
    scans both, puts a match and a sentinel for each, and exits. *)
Lemma one_worker_two_slices :
  steps 16 [A; B; C; D] (start g_abcd [(0, 4); (0, 4)] 2 1) run_end.
Proof.
  eapply steps_cons.
  { eapply step_take with (i := 0%nat);
      [reflexivity | reflexivity | vm_compute; reflexivity]. }
  eapply steps_cons.
  { eapply step_put with (i := 0%nat). reflexivity. }
  eapply steps_cons.
  { eapply step_put with (i := 0%nat). reflexivity. }
  eapply steps_cons.
  { eapply step_next with (i := 0%nat). reflexivity. }
  eapply steps_cons.
  { eapply step_take with (i := 0%nat);
      [reflexivity | reflexivity | vm_compute; reflexivity]. }
  eapply steps_cons.
  { eapply step_put with (i := 0%nat). reflexivity. }
  eapply steps_cons.
  { eapply step_put with (i := 0%nat). reflexivity. }
  eapply steps_cons.
  { eapply step_next with (i := 0%nat). reflexivity. }
  eapply steps_cons.
  { eapply step_exit with (i := 0%nat); reflexivity. }
  apply steps_refl.
Defined.

Lemma driver_counts_slices_witness :
  steps 16 [A; B; C; D] (start g_abcd [(0, 4); (0, 4)] 2 1) run_end /\
  (sentinels (map snd (ret_queue run_end)) + all_in_flight (procs run_end)
   + length (job_queue run_end) + all_lost (procs run_end)
   = length [(0, 4); (0, 4)])%nat /\
  ((sentinels (map snd (ret_queue run_end)) < length [(0, 4); (0, 4)])%nat ->
   exists ys,
     merge_loop (length [(0, 4); (0, 4)]) 0 (map snd (ret_queue run_end))
     = Waiting ys) /\
  (sentinels (map snd (ret_queue run_end)) = length [(0, 4); (0, 4)] ->
   merge_loop (length [(0, 4); (0, 4)]) 0 (map snd (ret_queue run_end))
   = Merged (somes (map snd (ret_queue run_end))) []).
Proof.
  split; [exact one_worker_two_slices|].
  exact (driver_counts_slices nat 16 [A; B; C; D] g_abcd [(0, 4); (0, 4)] 2 1
           run_end one_worker_two_slices).
Defined.

(** C2 as the spec words it fails: in that run the single worker has put
    two sentinels by the time it has stopped, one for each slice, and the
    merge loop has ended after these two. *)
Lemma two_sentinels_one_worker_counterexample :
  steps 16 [A; B; C; D] (start g_abcd [(0, 4); (0, 4)] 2 1) run_end /\
  forallb (@stopped nat) (procs run_end) = true /\
  sentinels_of 0 (ret_queue run_end) = 2%nat /\
  merge_loop 2 0 (map snd (ret_queue run_end))
  = Merged [abcd_match; abcd_match] [] /\
  ~ one_sentinel_per_worker 16 [A; B; C; D] g_abcd [(0, 4); (0, 4)] 2 1.
Proof.
  split; [exact one_worker_two_slices|].
  split; [reflexivity|]. split; [reflexivity|]. split; [reflexivity|].
  intros H.
  specialize (H run_end 0%nat one_worker_two_slices eq_refl (Nat.lt_0_succ 0)).
  vm_compute in H. discriminate.
Qed.



(** The scan of that target: nothing at 0, and at 2 the match of [ABCD]
    with the payload of the extension. *)
Example nested_scan :
  exists g', match_ 16 g_nested nested_target 0 2
             = Ok (g', [([Some 2%nat], 4, 6)]).
Proof. eexists. vm_compute. reflexivity. Qed.

Lemma finalize_idempotent_witness :
  reachable g_abcd /\
  ((exists N, forall fuel, (N <= fuel)%nat ->
      exists g', finalize fuel g_abcd = Ok g') /\
   (forall fuel g' fuel',
       finalize fuel g_abcd = Ok g' -> finalize fuel' g' = Ok g')).
Proof.
  assert (H : reachable g_abcd).
  { apply (@reach_insert nat fresh (lit [A; B; C; D]) (Some 1%nat)
                         g_abcd (Some true)).
    - apply reach_init.
    - reflexivity.
    - vm_compute. reflexivity. }
  split; [exact H|].
  exact (finalize_idempotent nat g_abcd H).
Defined.

(** Two calls on the graph of [AB] and [ABCD]: the second returns what the
    first returned. *)
Example finalize_twice_nested :
  finalize 16 (finalized_of g_nested) = Ok (finalized_of g_nested) /\
  finalize 16 g_nested = Ok (finalized_of g_nested).
Proof. split; vm_compute; reflexivity. Qed.

Lemma scan_returns_witness :
  (reachable g_abcd /\ bin_count g_abcd <> 0 /\ 0 < 2) /\
  ((forall p edge rest (intermediate : option (MatchRes nat)),
       getitem [A; B] (p + Z.of_nat (len edge)) = Raise IndexError ->
       extend_path g_abcd [A; B] p edge rest intermediate
       = Ok (g_abcd, StepContinue rest intermediate)) /\
   exists N, forall fuel, (N <= fuel)%nat ->
     exists g' ys, match_ fuel g_abcd [A; B] 0 2 = Ok (g', ys)).
Proof.
  assert (H1 : reachable g_abcd).
  { apply (@reach_insert nat fresh (lit [A; B; C; D]) (Some 1%nat)
                         g_abcd (Some true)).
    - apply reach_init.
    - reflexivity.
    - vm_compute. reflexivity. }
  assert (H2 : bin_count g_abcd <> 0) by (vm_compute; discriminate).
  assert (H3 : 0 < 2) by lia.
  split; [split; [exact H1|split; [exact H2|exact H3]]|].
  exact (scan_returns nat g_abcd [A; B] 0 2 H1 H2 H3).
Defined.

(** A scan that ends inside a signature: the edge [ABCD] does not match
    the two bytes left, nothing is yielded and nothing is raised. *)
Example scan_short_target :
  exists g', match_ 16 g_abcd [A; B] 0 2 = Ok (g', []).
Proof. eexists. vm_compute. reflexivity. Qed.

(** A scan whose path ends with the target: after [AB] matched, the read
    of the byte after it is out of range and the path is given up; the
    recorded match of [AB] is yielded. *)
Example scan_path_ends_with_target :
  exists g', match_ 16 g_nested [A; B] 0 2 = Ok (g', [([Some 1%nat], 2, 2)]).
Proof. eexists. vm_compute. reflexivity. Qed.

(** The same scan when the extension was inserted first. *)
Example nested_scan_long_first :
  exists g', match_ 16 g_nested_rev nested_target 0 2
             = Ok (g', [([Some 2%nat], 4, 6)]).
Proof. eexists. vm_compute. reflexivity. Qed.

(** With a negative [align] the realignment moves the cursor back: for
    the target [X], the base offset 8 and the alignment -10 the first
    attempt ends at 1, the realignment adds [(-1 - 8) % -10 = -9], and the
    read [target[-8]] at the head of the loop is out of range. *)
Lemma negative_alignment_index_error_counterexample :
  attempt 16 (finalized_of g_abcd) [X] 8 (-10) 0
  = Ok (graph_after g_abcd [X] 8 2, [], -8) /\
  getitem [X] (-8) = Raise IndexError /\
  match_ 16 g_abcd [X] 8 (-10) = Raise IndexError /\
  ~ never_index_error g_abcd [X] 8 (-10).
Proof.
  assert (E : match_ 16 g_abcd [X] 8 (-10) = Raise IndexError)
    by (vm_compute; reflexivity).
  split; [vm_compute; reflexivity|].
  split; [vm_compute; reflexivity|].
  split; [exact E|].
  intros H. exact (H 16%nat E).
Qed.
